(** * Object graph of git-visualiser-web: layout, overlay, reachability,
      edge emphasis and pointer interaction.

    A shallow embedding of [ObjectGraph.tsx] (the interactive canvas graph)
    and of the parts of its earlier revision that differ.

    Conventions of the embedding
    - JavaScript numbers are modelled as [Z]: every coordinate the component
      handles is a sum or product of integer constants, integer indices and
      pointer coordinates, which are taken to be whole pixels.
    - A JavaScript [Map] keeps its keys in insertion order and the hit test
      depends on that order, so position maps are insertion-ordered
      association lists ([JsMap]); maps and sets that are only looked up
      ([objectMap], [depthMap], [visited], [relatedHashes]) are [gmap]/[gset].
    - [while] loops are run by a fuel-indexed iterator that answers [None]
      when the fuel runs out; the fuel handed to it is computed from the
      collection and is proved sufficient.
    - Event handlers run one at a time, each on the state the previous one
      left (the component re-renders between events); the [onSelectObject]
      callback is modelled by the value a click emits.
    - [useMemo] compares its dependency by identity; here the remembered
      collection is compared by value, which gives the same layout since a
      collection equal to the remembered one has the same layout.
    - An object has the fields of the interface that its [type] names
      ([CommitObject], [TreeObject], [BlobObject], [TagObject]).  Fields that
      the graph component never reads ([size], [author], [timestamp],
      [content], [references], [referencedBy], and the [mode]/[type] of a
      tree entry) are left out of the records. *)

From stdpp Require Import gmap strings list fin_maps fin_sets.
From Stdlib Require Import ZArith Lia.

Local Open Scope Z_scope.

(** ** Data model (ObjectDatabase.tsx) *)

Inductive ObjType := commit | tree | blob | tag.

Record TreeEntry := { entry_hash : string; entry_name : string }.

Record CommitObject := {
  commit_hash : string;
  commit_tree : string;
  commit_parent : option (list string);
  commit_message : string }.

Record TreeObject := {
  tree_hash : string;
  tree_names : list string;
  tree_entries : list TreeEntry }.

Record BlobObject := {
  blob_hash : string;
  blob_names : list string }.

Record TagObject := {
  tag_hash : string;
  tag_objectHash : string }.

Inductive GitObject :=
| Commit (c : CommitObject)
| Tree (t : TreeObject)
| Blob (b : BlobObject)
| Tag (g : TagObject).

#[global] Instance ObjType_eq_dec : EqDecision ObjType.
Proof. solve_decision. Defined.
#[global] Instance TreeEntry_eq_dec : EqDecision TreeEntry.
Proof. solve_decision. Defined.
#[global] Instance CommitObject_eq_dec : EqDecision CommitObject.
Proof. solve_decision. Defined.
#[global] Instance TreeObject_eq_dec : EqDecision TreeObject.
Proof. solve_decision. Defined.
#[global] Instance BlobObject_eq_dec : EqDecision BlobObject.
Proof. solve_decision. Defined.
#[global] Instance TagObject_eq_dec : EqDecision TagObject.
Proof. solve_decision. Defined.
#[global] Instance GitObject_eq_dec : EqDecision GitObject.
Proof. solve_decision. Defined.

(** [o.hash] and [o.type] *)
Definition hash (o : GitObject) : string :=
  match o with
  | Commit c => commit_hash c
  | Tree t => tree_hash t
  | Blob b => blob_hash b
  | Tag g => tag_hash g
  end.

Definition type (o : GitObject) : ObjType :=
  match o with
  | Commit _ => commit
  | Tree _ => tree
  | Blob _ => blob
  | Tag _ => tag
  end.

(** [objects.filter((o) => o.type === 'commit') as CommitObject[]] and its
    three siblings: the filter keeps the order of the collection. *)
Definition asCommit (o : GitObject) : option CommitObject :=
  match o with Commit c => Some c | _ => None end.
Definition asTree (o : GitObject) : option TreeObject :=
  match o with Tree t => Some t | _ => None end.
Definition asBlob (o : GitObject) : option BlobObject :=
  match o with Blob b => Some b | _ => None end.
Definition asTag (o : GitObject) : option TagObject :=
  match o with Tag g => Some g | _ => None end.

Definition commitsOf (objects : list GitObject) : list CommitObject := omap asCommit objects.
Definition treesOf (objects : list GitObject) : list TreeObject := omap asTree objects.
Definition blobsOf (objects : list GitObject) : list BlobObject := omap asBlob objects.
Definition tagsOf (objects : list GitObject) : list TagObject := omap asTag objects.

(** [new Map(objects.map((o) => [o.hash, o]))]: a later object with the same
    hash replaces an earlier one. *)
Definition objectMap (objects : list GitObject) : gmap string GitObject :=
  foldl (λ m o, <[hash o := o]> m) ∅ objects.

(** JavaScript truthiness of a string: only the empty string is falsy. *)
Definition truthy (s : string) : bool := negb (String.eqb s "").

(** ** Insertion-ordered maps *)

Module JsMap.
Definition t (V : Type) := list (string * V).

Definition empty {V} : t V := [].

Fixpoint get {V} (k : string) (m : t V) : option V :=
  match m with
  | [] => None
  | (k', v) :: m' => if decide (k = k') then Some v else get k m'
  end.

(** [m.set(k, v)]: an existing key keeps its place, a new key goes last. *)
Fixpoint set {V} (k : string) (v : V) (m : t V) : t V :=
  match m with
  | [] => [(k, v)]
  | (k', v') :: m' =>
      if decide (k = k') then (k, v) :: m' else (k', v') :: set k v m'
  end.

Definition keys {V} (m : t V) : list string := m.*1.
End JsMap.

(** A [Map] holds each key once. *)
Definition wfMap {V} (m : JsMap.t V) : Prop := NoDup (JsMap.keys m).

(** ** Layout: depth assignment (defaultPositions, step A) *)

Record BfsState := {
  queue : list (string * Z);
  visited : gset string;
  depthMap : gmap string Z }.

(** The commits' root trees, each at depth 0: [if (c.tree) queue.push(...)]. *)
Definition seedQueue (objects : list GitObject) : list (string * Z) :=
  omap (λ c, if truthy (commit_tree c) then Some (commit_tree c, 0) else None)
       (commitsOf objects).

Definition bfsInit (objects : list GitObject) : BfsState :=
  {| queue := seedQueue objects; visited := ∅; depthMap := ∅ |}.

(** One pass through the body of [while (queue.length > 0)], on a state whose
    queue starts with [(hash, depth)]. *)
Definition bfsBody (om : gmap string GitObject) (hash : string) (depth : Z)
    (rest : list (string * Z)) (st : BfsState) : BfsState :=
  if decide (hash ∈ visited st) then
    {| queue := rest; visited := visited st; depthMap := depthMap st |}
  else
    {| queue :=
         match om !! hash with
         | Some (Tree t) => rest ++ map (λ e, (entry_hash e, depth + 1)) (tree_entries t)
         | _ => rest
         end;
       visited := {[hash]} ∪ visited st;
       depthMap :=
         match depthMap st !! hash with
         | None => <[hash := depth]> (depthMap st)
         | Some _ => depthMap st
         end |}.

Fixpoint bfsLoop (fuel : nat) (om : gmap string GitObject) (st : BfsState) : option BfsState :=
  match queue st with
  | [] => Some st
  | (hash, depth) :: rest =>
      match fuel with
      | O => None
      | S fuel' => bfsLoop fuel' om (bfsBody om hash depth rest st)
      end
  end.

(** Fuel for the depth loop: every pass either drops a queue item or visits a
    key of the index for the first time, and a first visit adds at most all
    the entries of one tree. *)
Definition entryCount (o : GitObject) : nat :=
  match o with Tree t => length (tree_entries t) | _ => O end.

Definition totalEntries (objects : list GitObject) : nat :=
  foldr (λ o n, (entryCount o + n)%nat) O objects.

Definition bfsMeasure (objects : list GitObject) (st : BfsState) : nat :=
  (length (queue st)
   + S (totalEntries objects) * size (dom (objectMap objects) ∖ visited st))%nat.

Definition bfsFuel (objects : list GitObject) : nat :=
  bfsMeasure objects (bfsInit objects).

Definition computeDepthMap (objects : list GitObject) : gmap string Z :=
  match bfsLoop (bfsFuel objects) (objectMap objects) (bfsInit objects) with
  | Some st => depthMap st
  | None => ∅
  end.

(** A small repository used by the examples: a commit, its root tree, a
    sub-tree and a blob shared by both trees (a diamond). *)
Definition ex_commit (h t : string) (p : option (list string)) : GitObject :=
  Commit {| commit_hash := h; commit_tree := t; commit_parent := p; commit_message := "msg" |}.
Definition ex_tree (h : string) (es : list string) : GitObject :=
  Tree {| tree_hash := h; tree_names := [];
          tree_entries := map (λ e, {| entry_hash := e; entry_name := e |}) es |}.
Definition ex_blob (h : string) : GitObject :=
  Blob {| blob_hash := h; blob_names := [] |}.
Definition ex_tag (h t : string) : GitObject :=
  Tag {| tag_hash := h; tag_objectHash := t |}.

Definition ex_diamond : list GitObject :=
  [ ex_commit "c1" "t1" None;
    ex_tree "t1" ["t2"; "b1"];
    ex_tree "t2" ["b1"; "b2"];
    ex_blob "b1"; ex_blob "b2" ].


(** The hashes the depth loop visits for the first time, in order (the
    passes that get beyond [if (visited.has(hash)) continue]). *)
Fixpoint bfsVisits (fuel : nat) (om : gmap string GitObject) (st : BfsState) : list string :=
  match queue st with
  | [] => []
  | (hash, depth) :: rest =>
      match fuel with
      | O => []
      | S fuel' =>
          (if decide (hash ∈ visited st) then [] else [hash])
          ++ bfsVisits fuel' om (bfsBody om hash depth rest st)
      end
  end.

(** Two trees that list each other. *)
Definition ex_cycle : list GitObject :=
  [ ex_commit "c1" "t1" None; ex_tree "t1" ["t2"; "b1"]; ex_tree "t2" ["t1"]; ex_blob "b1" ].

(** ** The graph the depth loop walks, stated on the index *)

(** [h'] is an entry of the tree that the index holds under [h]. *)
Definition treeEdge (om : gmap string GitObject) (h h' : string) : Prop :=
  ∃ t, om !! h = Some (Tree t) ∧ h' ∈ map entry_hash (tree_entries t).

(** A commit of the collection names [h] as its (non-empty) tree. *)
Definition isSeed (objects : list GitObject) (h : string) : Prop :=
  ∃ c, Commit c ∈ objects ∧ commit_tree c = h ∧ h ≠ "".

Inductive walk (om : gmap string GitObject) : nat → string → string → Prop :=
| walk_O h : walk om O h h
| walk_S n a b c : treeEdge om a b → walk om n b c → walk om (S n) a c.

(** [h] is reached from some commit's tree by following [n] tree entries. *)
Definition pathFromSeed (objects : list GitObject) (n : nat) (h : string) : Prop :=
  ∃ s, isSeed objects s ∧ walk (objectMap objects) n s h.

Definition shortestPath (objects : list GitObject) (h : string) (n : nat) : Prop :=
  pathFromSeed objects n h ∧ ∀ m, pathFromSeed objects m h → (n ≤ m)%nat.

(** What the loop still owes to a node [h] that has a path of length [n]:
    either [h] already has a depth that is at most [n], or an unvisited node
    on the way to [h] waits in the queue with a depth that leaves room for
    the rest of the way. *)
Definition frontier (objects : list GitObject) (st : BfsState) (h : string) (n : nat) : Prop :=
  (∃ d, depthMap st !! h = Some d ∧ d ≤ Z.of_nat n) ∨
  (∃ h' d' k, (h', d') ∈ queue st ∧ (h' ∉ visited st) ∧
              walk (objectMap objects) k h' h ∧ d' + Z.of_nat k ≤ Z.of_nat n).

(** The queue holds one level followed by the next, and nothing visited lies
    deeper than the first of them. *)
Definition levelled (st : BfsState) : Prop :=
  ∃ k q1 q2, queue st = q1 ++ q2 ∧
    Forall (λ e, e.2 = k) q1 ∧ Forall (λ e, e.2 = k + 1) q2 ∧
    ∀ h d, depthMap st !! h = Some d → d ≤ k.

Record bfsInv (objects : list GitObject) (st : BfsState) : Prop := {
  inv_dom : ∀ h, h ∈ visited st ↔ is_Some (depthMap st !! h);
  inv_queue : ∀ h d, (h, d) ∈ queue st →
    ∃ n, d = Z.of_nat n ∧ pathFromSeed objects n h;
  inv_depth : ∀ h d, depthMap st !! h = Some d →
    ∃ n, d = Z.of_nat n ∧ pathFromSeed objects n h;
  inv_level : levelled st;
  inv_front : ∀ h n, pathFromSeed objects n h → frontier objects st h n }.

(** ** Layout: coordinates (defaultPositions, step B) *)

Record NodePosition := {
  pos_x : Z;
  pos_y : Z;
  pos_hash : string;
  pos_label : string;
  pos_type : ObjType;
  pos_depth : Z }.

#[global] Instance NodePosition_eq_dec : EqDecision NodePosition.
Proof. solve_decision. Defined.

(** The layout constants.  The two revisions of the graph component differ in
    their values, in the top gap (absent from the earlier one, hence 0) and
    in where a tag is put next to its positioned target (given the target's
    x and y and the index of the tag). *)
Record LayoutConsts := {
  NODE_RADIUS : Z;
  ROW_HEIGHT : Z;
  COL_WIDTH_COMMIT : Z;
  COL_START_OBJECTS : Z;
  DEPTH_INDENT : Z;
  NODE_TO_LABELS_GAP : Z;
  tagBeside : Z → Z → Z → Z * Z }.

(** ObjectGraph.tsx as it is now. *)
Definition graphConsts : LayoutConsts :=
  {| NODE_RADIUS := 20;
     ROW_HEIGHT := 70;
     COL_WIDTH_COMMIT := 150;
     COL_START_OBJECTS := 300;
     DEPTH_INDENT := 120;
     NODE_TO_LABELS_GAP := 30;
     tagBeside := λ tx ty _, (tx - 80, ty) |}.

(** The earlier revision of the component. *)
Definition earlierConsts : LayoutConsts :=
  {| NODE_RADIUS := 18;
     ROW_HEIGHT := 60;
     COL_WIDTH_COMMIT := 100;
     COL_START_OBJECTS := 250;
     DEPTH_INDENT := 120;
     NODE_TO_LABELS_GAP := 0;
     tagBeside := λ tx ty index, (tx, ty + 30 + index * 20) |}.

(** [xs.forEach((x, index) => ...)] threading the map that the body updates. *)
Fixpoint forEachFrom {A S : Type} (body : A → Z → S → S) (xs : list A) (index : Z) (s : S) : S :=
  match xs with
  | [] => s
  | x :: xs' => forEachFrom body xs' (index + 1) (body x index s)
  end.

Definition forEach {A S : Type} (body : A → Z → S → S) (xs : list A) (s : S) : S :=
  forEachFrom body xs 0 s.

(** [names.length > 0 ? names[0] : hash.substring(0, 6)] *)
Definition nodeLabel (names : list string) (h : string) : string :=
  match names with
  | name :: _ => name
  | [] => String.substring 0 6 h
  end.

Definition commitPosition (K : LayoutConsts) (c : CommitObject) (index : Z) : NodePosition :=
  {| pos_x := COL_WIDTH_COMMIT K;
     pos_y := index * ROW_HEIGHT K + NODE_TO_LABELS_GAP K;
     pos_hash := commit_hash c;
     pos_label := commit_message c;
     pos_type := commit;
     pos_depth := -1 |}.

Definition treePosition (K : LayoutConsts) (dm : gmap string Z) (t : TreeObject) (index : Z)
    : NodePosition :=
  let depth := default 0 (dm !! tree_hash t) in
  {| pos_x := COL_START_OBJECTS K + depth * DEPTH_INDENT K;
     pos_y := index * ROW_HEIGHT K + NODE_TO_LABELS_GAP K;
     pos_hash := tree_hash t;
     pos_label := nodeLabel (tree_names t) (tree_hash t);
     pos_type := tree;
     pos_depth := depth |}.

Definition blobPosition (K : LayoutConsts) (dm : gmap string Z) (treeCount : Z)
    (b : BlobObject) (index : Z) : NodePosition :=
  let startY := treeCount * ROW_HEIGHT K in
  let depth := default 1 (dm !! blob_hash b) in
  {| pos_x := COL_START_OBJECTS K + depth * DEPTH_INDENT K;
     pos_y := startY + index * ROW_HEIGHT K + NODE_TO_LABELS_GAP K;
     pos_hash := blob_hash b;
     pos_label := nodeLabel (blob_names b) (blob_hash b);
     pos_type := blob;
     pos_depth := depth |}.

Definition tagPosition (K : LayoutConsts) (om : gmap string GitObject)
    (g : TagObject) (index : Z) (positionMap : JsMap.t NodePosition) : NodePosition :=
  let targetObj := om !! tag_objectHash g in
  let base :=
    match targetObj with
    | Some o =>
        match JsMap.get (hash o) positionMap with
        | Some targetPos => tagBeside K (pos_x targetPos) (pos_y targetPos) index
        | None => (COL_START_OBJECTS K, index * ROW_HEIGHT K + NODE_TO_LABELS_GAP K)
        end
    | None => (COL_START_OBJECTS K, index * ROW_HEIGHT K + NODE_TO_LABELS_GAP K)
    end in
  {| pos_x := base.1;
     pos_y := base.2;
     pos_hash := tag_hash g;
     pos_label := String.substring 0 6 (tag_hash g);
     pos_type := tag;
     pos_depth := 0 |}.

Definition defaultPositions (K : LayoutConsts) (objects : list GitObject)
    : JsMap.t NodePosition :=
  let om := objectMap objects in
  let dm := computeDepthMap objects in
  let commits := commitsOf objects in
  let positionMap :=
    forEach (λ c index pm, JsMap.set (commit_hash c) (commitPosition K c index) pm)
            commits JsMap.empty in
  let trees := treesOf objects in
  let positionMap :=
    forEach (λ t index pm, JsMap.set (tree_hash t) (treePosition K dm t index) pm)
            trees positionMap in
  let blobs := blobsOf objects in
  let positionMap :=
    forEach (λ b index pm,
               JsMap.set (blob_hash b)
                 (blobPosition K dm (Z.of_nat (length trees)) b index) pm)
            blobs positionMap in
  let tags := tagsOf objects in
  forEach (λ g index pm, JsMap.set (tag_hash g) (tagPosition K om g index pm) pm)
          tags positionMap.

(** ** Position overlay (nodePositions) *)

(** The merge of ObjectGraph.tsx: an override is applied only when its key is
    a key of the layout. *)
Definition nodePositions (defaultPositions dragOverrides : JsMap.t NodePosition)
    : JsMap.t NodePosition :=
  let merged := defaultPositions in
  let validHashes : gset string := list_to_set (JsMap.keys defaultPositions) in
  foldl (λ merged '(hash, pos),
           if decide (hash ∈ validHashes) then JsMap.set hash pos merged else merged)
        merged dragOverrides.

Module Earlier.
(** The merge of the earlier revision: every override is applied. *)
Definition nodePositions (defaultPositions dragOverrides : JsMap.t NodePosition)
    : JsMap.t NodePosition :=
  foldl (λ merged '(hash, pos), JsMap.set hash pos merged)
        defaultPositions dragOverrides.
End Earlier.

Definition ex_repo : list GitObject :=
  [ ex_commit "c1" "t1" (Some ["c0"]);
    ex_commit "c0" "t0" None;
    ex_tree "t1" ["t2"; "b1"];
    ex_tree "t2" ["b1"; "b2"];
    ex_blob "b1"; ex_blob "b2";
    ex_tag "v1" "c1"; ex_tag "v2" "gone" ].

(** ** Reachability highlighter (relatedHashes) *)

Record RelState := {
  rel_queue : list string;
  rel_set : gset string;
  rel_index : nat }.

(** The [children] array that the loop body builds for an object. *)
Definition childrenOf (obj : GitObject) : list string :=
  match obj with
  | Tag g => [tag_objectHash g]
  | Commit c => [commit_tree c]
  | Tree t => map entry_hash (tree_entries t)
  | Blob _ => []
  end.

(** [for (const child of children) if (!set.has(child)) { set.add(child); queue.push(child) }] *)
Definition addChild (st : RelState) (child : string) : RelState :=
  if decide (child ∈ rel_set st) then st
  else {| rel_queue := rel_queue st ++ [child];
          rel_set := {[child]} ∪ rel_set st;
          rel_index := rel_index st |}.

Definition addChildren (children : list string) (st : RelState) : RelState :=
  foldl addChild st children.

(** One pass through the body of [while (index < queue.length)] with
    [currentHash = queue[index++]]. *)
Definition relBody (om : gmap string GitObject) (currentHash : string) (st : RelState)
    : RelState :=
  let st := {| rel_queue := rel_queue st; rel_set := rel_set st;
               rel_index := S (rel_index st) |} in
  match om !! currentHash with
  | None => st
  | Some obj => addChildren (childrenOf obj) st
  end.

(** [queue[index]] is defined exactly when [index < queue.length]. *)
Fixpoint relLoop (fuel : nat) (om : gmap string GitObject) (st : RelState) : option RelState :=
  match rel_queue st !! rel_index st with
  | None => Some st
  | Some currentHash =>
      match fuel with
      | O => None
      | S fuel' => relLoop fuel' om (relBody om currentHash st)
      end
  end.

Definition relInit (selectedHash : string) : RelState :=
  {| rel_queue := [selectedHash]; rel_set := {[selectedHash]}; rel_index := O |}.

(** Fuel for the reachability loop: the queue never repeats a hash and holds
    only the selected hash and hashes that some object names as a child. *)
Definition relFuel (objects : list GitObject) : nat :=
  S (length (flat_map childrenOf objects)).

(** [selectedHash?: string]; [!selectedHash] holds for [undefined] and for
    the empty string. *)
Definition relatedHashes (objects : list GitObject) (selectedHash : option string)
    : gset string :=
  match selectedHash with
  | None => ∅
  | Some s =>
      if truthy s then
        match relLoop (relFuel objects) (objectMap objects) (relInit s) with
        | Some st => rel_set st
        | None => ∅
        end
      else ∅
  end.

(** The directed edges the highlighter follows, stated on the index:
    tag→target, commit→tree, tree→entry. *)
Definition contentEdge (om : gmap string GitObject) (h h' : string) : Prop :=
  ∃ obj, om !! h = Some obj ∧ h' ∈ childrenOf obj.

(** The commit→parent relation, which the highlighter does not follow. *)
Definition parentEdge (om : gmap string GitObject) (h h' : string) : Prop :=
  ∃ c ps, om !! h = Some (Commit c) ∧ commit_parent c = Some ps ∧ h' ∈ ps.

Record relInv (objects : list GitObject) (s : string) (st : RelState) : Prop := {
  rinv_set : ∀ h, h ∈ rel_set st ↔ h ∈ rel_queue st;
  rinv_nodup : NoDup (rel_queue st);
  rinv_index : (rel_index st ≤ length (rel_queue st))%nat;
  rinv_sel : s ∈ rel_set st;
  rinv_reach : ∀ h, h ∈ rel_set st → rtc (contentEdge (objectMap objects)) s h;
  rinv_closed : ∀ i h h', (i < rel_index st)%nat → rel_queue st !! i = Some h →
    contentEdge (objectMap objects) h h' → h' ∈ rel_set st;
  rinv_bound : ∀ h, h ∈ rel_queue st → h ∈ s :: flat_map childrenOf objects }.

(** ** Render pass: the connections drawn *)

Inductive EdgeKind := CommitToTree | CommitToParent | TagToTarget | TreeToEntry.

#[global] Instance EdgeKind_eq_dec : EqDecision EdgeKind.
Proof. solve_decision. Defined.

(** One stroke of the edge pass: the two hashes that were looked up, the
    positions found for them and the [isHighlighted] flag that chooses the
    stroke colour and width. *)
Record Connection := {
  conn_kind : EdgeKind;
  conn_from : string;
  conn_to : string;
  conn_fromPos : NodePosition;
  conn_toPos : NodePosition;
  conn_highlighted : bool }.

(** [relatedHashes.has(fromPos.hash) && relatedHashes.has(toPos.hash)] *)
Definition bothRelated (related : gset string) (fromPos toPos : NodePosition) : bool :=
  bool_decide (pos_hash fromPos ∈ related) && bool_decide (pos_hash toPos ∈ related).

(** [fromPos.hash === selectedHash || parentPos.hash === selectedHash] *)
Definition eitherSelected (selectedHash : option string) (fromPos parentPos : NodePosition)
    : bool :=
  bool_decide (Some (pos_hash fromPos) = selectedHash)
  || bool_decide (Some (pos_hash parentPos) = selectedHash).

Definition commitConnections (nodePositions : JsMap.t NodePosition)
    (selectedHash : option string) (related : gset string) (c : CommitObject)
    : list Connection :=
  let fromPos := JsMap.get (commit_hash c) nodePositions in
  let toPos := JsMap.get (commit_tree c) nodePositions in
  match fromPos, toPos with
  | Some f, Some t =>
      [ {| conn_kind := CommitToTree; conn_from := commit_hash c; conn_to := commit_tree c;
           conn_fromPos := f; conn_toPos := t;
           conn_highlighted := bothRelated related f t |} ]
  | _, _ => []
  end
  ++
  match commit_parent c with
  | None => []
  | Some parents =>
      flat_map (λ pHash,
        match fromPos, JsMap.get pHash nodePositions with
        | Some f, Some parentPos =>
            [ {| conn_kind := CommitToParent; conn_from := commit_hash c; conn_to := pHash;
                 conn_fromPos := f; conn_toPos := parentPos;
                 conn_highlighted := eitherSelected selectedHash f parentPos |} ]
        | _, _ => []
        end) parents
  end.

Definition tagConnections (nodePositions : JsMap.t NodePosition)
    (related : gset string) (g : TagObject) : list Connection :=
  match JsMap.get (tag_hash g) nodePositions, JsMap.get (tag_objectHash g) nodePositions with
  | Some f, Some t =>
      [ {| conn_kind := TagToTarget; conn_from := tag_hash g; conn_to := tag_objectHash g;
           conn_fromPos := f; conn_toPos := t;
           conn_highlighted := bothRelated related f t |} ]
  | _, _ => []
  end.

Definition treeConnections (nodePositions : JsMap.t NodePosition)
    (related : gset string) (t : TreeObject) : list Connection :=
  match JsMap.get (tree_hash t) nodePositions with
  | Some f =>
      flat_map (λ entry,
        match JsMap.get (entry_hash entry) nodePositions with
        | Some toPos =>
            [ {| conn_kind := TreeToEntry; conn_from := tree_hash t;
                 conn_to := entry_hash entry;
                 conn_fromPos := f; conn_toPos := toPos;
                 conn_highlighted := bothRelated related f toPos |} ]
        | None => []
        end) (tree_entries t)
  | None => []
  end.

(** The edge pass of the render effect, in drawing order. *)
Definition renderConnections (objects : list GitObject)
    (nodePositions : JsMap.t NodePosition) (selectedHash : option string)
    (related : gset string) : list Connection :=
  flat_map (commitConnections nodePositions selectedHash related) (commitsOf objects)
  ++ flat_map (tagConnections nodePositions related) (tagsOf objects)
  ++ flat_map (treeConnections nodePositions related) (treesOf objects).

(** Every entry of a position map carries its own key in its [hash] field. *)
Definition keyed (m : JsMap.t NodePosition) : Prop :=
  ∀ k p, JsMap.get k m = Some p → pos_hash p = k.

(** ** Interaction controller *)

Record Point := { pt_x : Z; pt_y : Z }.

#[global] Instance Point_eq_dec : EqDecision Point.
Proof. solve_decision. Defined.

(** The component's state: the [useState] cells and [hasMovedRef]. *)
Record State := {
  panOffset : Point;
  isPanning : bool;
  draggedNodeHash : option string;
  lastMousePos : Point;
  dragOverrides : JsMap.t NodePosition;
  hasMoved : bool }.

(** What a handler reads besides the state: the [objects] prop and the
    top-left corner of the canvas ([getBoundingClientRect]).  The handlers
    are attached to the canvas element itself, so its ref is set whenever
    one of them runs. *)
Record Env := {
  env_consts : LayoutConsts;
  env_objects : list GitObject;
  rect_left : Z;
  rect_top : Z }.

Record MouseEvent := { clientX : Z; clientY : Z }.

Definition initialState : State :=
  {| panOffset := {| pt_x := 50; pt_y := 50 |};
     isPanning := false;
     draggedNodeHash := None;
     lastMousePos := {| pt_x := 0; pt_y := 0 |};
     dragOverrides := JsMap.empty;
     hasMoved := false |}.

(** The [nodePositions] a handler sees: the layout of the current objects
    merged with the current overrides. *)
Definition effectivePositions (E : Env) (s : State) : JsMap.t NodePosition :=
  nodePositions (defaultPositions (env_consts E) (env_objects E)) (dragOverrides s).

(** [Math.sqrt(dx * dx + dy * dy) <= NODE_RADIUS], on integers: a square root
    is never negative, and it is at most a non-negative radius exactly when
    the sum of squares is at most the square of the radius. *)
Definition withinRadius (K : LayoutConsts) (mouseX mouseY : Z) (pos : NodePosition) : bool :=
  let dx := mouseX - pos_x pos in
  let dy := mouseY - pos_y pos in
  (0 <=? NODE_RADIUS K) && (dx * dx + dy * dy <=? NODE_RADIUS K * NODE_RADIUS K).

(** [for (const [hash, pos] of nodePositions.entries()) if (...) { found = hash; break }] *)
Fixpoint hitTest (K : LayoutConsts) (entries : JsMap.t NodePosition) (mouseX mouseY : Z)
    : option string :=
  match entries with
  | [] => None
  | (hash, pos) :: entries' =>
      if withinRadius K mouseX mouseY pos then Some hash
      else hitTest K entries' mouseX mouseY
  end.

(** A found hash that passes [if (clickedNodeHash)] / [if (foundHash)]. *)
Definition truthyHash (found : option string) : option string :=
  match found with
  | Some h => if truthy h then Some h else None
  | None => None
  end.

Definition handleMouseDown (E : Env) (s : State) (e : MouseEvent) : State :=
  let mouseX := clientX e - rect_left E - pt_x (panOffset s) in
  let mouseY := clientY e - rect_top E - pt_y (panOffset s) in
  let clickedNodeHash := hitTest (env_consts E) (effectivePositions E s) mouseX mouseY in
  match truthyHash clickedNodeHash with
  | Some h =>
      {| panOffset := panOffset s;
         isPanning := isPanning s;
         draggedNodeHash := Some h;
         lastMousePos := {| pt_x := clientX e; pt_y := clientY e |};
         dragOverrides := dragOverrides s;
         hasMoved := false |}
  | None =>
      {| panOffset := panOffset s;
         isPanning := true;
         draggedNodeHash := draggedNodeHash s;
         lastMousePos := {| pt_x := clientX e; pt_y := clientY e |};
         dragOverrides := dragOverrides s;
         hasMoved := false |}
  end.

(** [Math.abs(dx) > 1 || Math.abs(dy) > 1] *)
Definition beyondThreshold (dx dy : Z) : bool :=
  (1 <? Z.abs dx) || (1 <? Z.abs dy).

Definition handleMouseMove (E : Env) (s : State) (e : MouseEvent) : State :=
  let dx := clientX e - pt_x (lastMousePos s) in
  let dy := clientY e - pt_y (lastMousePos s) in
  let moved := if beyondThreshold dx dy then true else hasMoved s in
  match truthyHash (draggedNodeHash s) with
  | Some dragged =>
      let next :=
        match JsMap.get dragged (effectivePositions E s) with
        | Some currentPos =>
            JsMap.set dragged
              {| pos_x := pos_x currentPos + dx;
                 pos_y := pos_y currentPos + dy;
                 pos_hash := pos_hash currentPos;
                 pos_label := pos_label currentPos;
                 pos_type := pos_type currentPos;
                 pos_depth := pos_depth currentPos |}
              (dragOverrides s)
        | None => dragOverrides s
        end in
      {| panOffset := panOffset s;
         isPanning := isPanning s;
         draggedNodeHash := draggedNodeHash s;
         lastMousePos := {| pt_x := clientX e; pt_y := clientY e |};
         dragOverrides := next;
         hasMoved := moved |}
  | None =>
      {| panOffset :=
           if isPanning s
           then {| pt_x := pt_x (panOffset s) + dx; pt_y := pt_y (panOffset s) + dy |}
           else panOffset s;
         isPanning := isPanning s;
         draggedNodeHash := draggedNodeHash s;
         lastMousePos := {| pt_x := clientX e; pt_y := clientY e |};
         dragOverrides := dragOverrides s;
         hasMoved := moved |}
  end.

Definition handleMouseUp (s : State) : State :=
  {| panOffset := panOffset s;
     isPanning := false;
     draggedNodeHash := None;
     lastMousePos := lastMousePos s;
     dragOverrides := dragOverrides s;
     hasMoved := hasMoved s |}.

(** [handleClick] changes no state; its result is the hash handed to
    [onSelectObject], if the callback is invoked. *)
Definition handleClick (E : Env) (s : State) (e : MouseEvent) : option string :=
  if hasMoved s then None
  else
    let clickX := clientX e - rect_left E - pt_x (panOffset s) in
    let clickY := clientY e - rect_top E - pt_y (panOffset s) in
    truthyHash (hitTest (env_consts E) (effectivePositions E s) clickX clickY).

(** Pointer events as the canvas receives them ([onMouseLeave] runs
    [handleMouseUp] too). *)
Inductive Event :=
| MouseDown (e : MouseEvent)
| MouseMove (e : MouseEvent)
| MouseUp
| Click (e : MouseEvent).

(** One event: the next state and the selection emitted, if any. *)
Definition handle (E : Env) (s : State) (ev : Event) : State * option string :=
  match ev with
  | MouseDown e => (handleMouseDown E s e, None)
  | MouseMove e => (handleMouseMove E s e, None)
  | MouseUp => (handleMouseUp s, None)
  | Click e => (s, handleClick E s e)
  end.

(** A run of events: the final state and the selections emitted, in order. *)
Fixpoint run (E : Env) (s : State) (evs : list Event) : State * list string :=
  match evs with
  | [] => (s, [])
  | ev :: evs' =>
      let '(s1, out) := handle E s ev in
      let '(s2, outs) := run E s1 evs' in
      (s2, match out with Some h => h :: outs | None => outs end)
  end.

Definition isMouseDown (ev : Event) : bool :=
  match ev with MouseDown _ => true | _ => false end.

(** The pointer position after a series of moves that started at [p]. *)
Definition lastPosition (p : MouseEvent) (moves : list MouseEvent) : MouseEvent :=
  default p (last moves).

(** Every move of the series is within one pixel of the position before it. *)
Fixpoint withinThreshold (p : MouseEvent) (moves : list MouseEvent) : Prop :=
  match moves with
  | [] => True
  | m :: moves' =>
      beyondThreshold (clientX m - clientX p) (clientY m - clientY p) = false
      ∧ withinThreshold m moves'
  end.

(** ** The memoised layout ([useMemo(..., [objects])]) *)

(** What [useMemo] keeps between renders: the dependency it last saw and the
    value computed for it. *)
Record LayoutMemo := {
  memo_deps : list GitObject;
  memo_value : JsMap.t NodePosition }.

(** One render: the layout handed to the component and the cell kept for the
    next render. *)
Definition useMemoLayout (K : LayoutConsts) (cell : option LayoutMemo)
    (objects : list GitObject) : JsMap.t NodePosition * option LayoutMemo :=
  let recompute :=
    let value := defaultPositions K objects in
    (value, Some {| memo_deps := objects; memo_value := value |}) in
  match cell with
  | Some memo =>
      if decide (memo_deps memo = objects) then (memo_value memo, cell) else recompute
  | None => recompute
  end.

(** The cell after rendering a history of collections, from the first mount. *)
Definition memoAfter (K : LayoutConsts) (history : list (list GitObject)) : option LayoutMemo :=
  foldl (λ cell objects, (useMemoLayout K cell objects).2) None history.

(** The layout the component gets for [objects] after any history. *)
Definition layoutAfter (K : LayoutConsts) (history : list (list GitObject))
    (objects : list GitObject) : JsMap.t NodePosition :=
  (useMemoLayout K (memoAfter K history) objects).1.

(** ** The layout after each of its passes (used to state intermediate facts) *)

Definition afterCommits (K : LayoutConsts) (objects : list GitObject) : JsMap.t NodePosition :=
  forEach (λ c index pm, JsMap.set (commit_hash c) (commitPosition K c index) pm)
          (commitsOf objects) JsMap.empty.

Definition afterTrees (K : LayoutConsts) (objects : list GitObject) : JsMap.t NodePosition :=
  forEach (λ t index pm,
             JsMap.set (tree_hash t) (treePosition K (computeDepthMap objects) t index) pm)
          (treesOf objects) (afterCommits K objects).

Definition afterBlobs (K : LayoutConsts) (objects : list GitObject) : JsMap.t NodePosition :=
  forEach (λ b index pm,
             JsMap.set (blob_hash b)
               (blobPosition K (computeDepthMap objects)
                  (Z.of_nat (length (treesOf objects))) b index) pm)
          (blobsOf objects) (afterTrees K objects).

(** The map a tag sees when its turn comes, after the tags before it. *)
Definition beforeTag (K : LayoutConsts) (objects : list GitObject)
    (earlier : list TagObject) : JsMap.t NodePosition :=
  forEach (λ g index pm,
             JsMap.set (tag_hash g) (tagPosition K (objectMap objects) g index pm) pm)
          earlier (afterBlobs K objects).

(** Where a tag goes when it has no positioned target to stand beside. *)
Definition tagFallback (K : LayoutConsts) (g : TagObject) (index : Z) : NodePosition :=
  {| pos_x := COL_START_OBJECTS K;
     pos_y := index * ROW_HEIGHT K + NODE_TO_LABELS_GAP K;
     pos_hash := tag_hash g;
     pos_label := String.substring 0 6 (tag_hash g);
     pos_type := tag;
     pos_depth := 0 |}.

(** ** Examples: a session on a nested repository *)

Definition ex_env (objects : list GitObject) : Env :=
  {| env_consts := graphConsts; env_objects := objects; rect_left := 0; rect_top := 0 |}.

Definition ex_at (cx cy : Z) : MouseEvent := {| clientX := cx; clientY := cy |}.

(** A commit, its root tree and a sub-tree. *)
Definition ex_nested : list GitObject :=
  [ ex_commit "c1" "t1" None; ex_tree "t1" ["t2"]; ex_tree "t2" [] ].

(** The same collection once the filter panel hides the commits. *)
Definition ex_nested_no_commits : list GitObject :=
  [ ex_tree "t1" ["t2"]; ex_tree "t2" [] ].

(** The sub-tree "t2" is laid out at (420, 100); with the initial pan of
    (50, 50) it is under the pointer at (470, 150).  It is pressed, dragged
    by (10, 10) and released. *)
Definition ex_after_drag : State :=
  (run (ex_env ex_nested) initialState
       [MouseDown (ex_at 470 150); MouseMove (ex_at 480 160); MouseUp]).1.

(** ** Notions used to state the interaction properties *)

(** The states the component can be in: the initial one and those that the
    handlers produce, whatever the props of each render. *)
Inductive reachable : State → Prop :=
| reachable_init : reachable initialState
| reachable_step E s ev : reachable s → reachable (handle E s ev).1.

(** [a] comes before [b] in the iteration order [keys]. *)
Definition precedes (keys : list string) (a b : string) : Prop :=
  ∃ l1 l2 l3, keys = l1 ++ a :: l2 ++ b :: l3.

(** The state after a run of events. *)
Definition stateAfter (E : Env) (s : State) (evs : list Event) : State :=
  (run E s evs).1.

(** World coordinates of a pointer position: [e.clientX - rect.left - panOffset.x]. *)
Definition worldX (E : Env) (s : State) (e : MouseEvent) : Z :=
  clientX e - rect_left E - pt_x (panOffset s).
Definition worldY (E : Env) (s : State) (e : MouseEvent) : Z :=
  clientY e - rect_top E - pt_y (panOffset s).

(** A move to [m] exceeds the threshold in state [s]. *)
Definition exceedsThreshold (s : State) (m : MouseEvent) : Prop :=
  beyondThreshold (clientX m - pt_x (lastMousePos s))
                  (clientY m - pt_y (lastMousePos s)) = true.

(** The press on [p], the moves and the release that precede a click. *)
Definition gesture (p : MouseEvent) (moves : list MouseEvent) : list Event :=
  MouseDown p :: map MouseMove moves ++ [MouseUp].

(** While the node [id], pressed at [p] where it had position [pos0], is
    being dragged and the pointer is at [l]: the node has followed the
    pointer, nothing else has moved, and no move has exceeded the
    threshold. *)
Record dragging (E : Env) (s0 : State) (p : MouseEvent) (id : string)
    (pos0 : NodePosition) (s : State) (l : MouseEvent) : Prop := {
  drag_pan : panOffset s = panOffset s0;
  drag_node : draggedNodeHash s = Some id;
  drag_last : lastMousePos s = {| pt_x := clientX l; pt_y := clientY l |};
  drag_still : hasMoved s = false;
  drag_wf : wfMap (dragOverrides s);
  drag_others : ∀ k, k ≠ id →
    JsMap.get k (effectivePositions E s) = JsMap.get k (effectivePositions E s0);
  drag_follow : ∃ cur, JsMap.get id (effectivePositions E s) = Some cur
    ∧ pos_x cur = pos_x pos0 + (clientX l - clientX p)
    ∧ pos_y cur = pos_y pos0 + (clientY l - clientY p) }.

(** The root tree "t1", laid out at (300, 30), is pressed at its centre,
    dragged 120 pixels to the left and released: it now overlaps the commit
    "c1" at (150, 30). *)
Definition ex_overlapping : State :=
  stateAfter (ex_env ex_nested) initialState
    [MouseDown (ex_at 350 80); MouseMove (ex_at 230 80); MouseUp].

(** ** Notions used to state the render properties *)

(** What every drawn connection satisfies: both looked-up hashes have a
    position, and the highlight flag follows the rule of its kind. *)
Definition drawnProperly (nodePositions : JsMap.t NodePosition)
    (selectedHash : option string) (related : gset string) (e : Connection) : Prop :=
  JsMap.get (conn_from e) nodePositions = Some (conn_fromPos e)
  ∧ JsMap.get (conn_to e) nodePositions = Some (conn_toPos e)
  ∧ conn_highlighted e =
      match conn_kind e with
      | CommitToParent => eitherSelected selectedHash (conn_fromPos e) (conn_toPos e)
      | _ => bothRelated related (conn_fromPos e) (conn_toPos e)
      end.

(** The object behind a connection of each kind. *)
Definition edgeOf (objects : list GitObject) (e : Connection) : Prop :=
  match conn_kind e with
  | CommitToTree =>
      ∃ c, Commit c ∈ objects ∧ conn_from e = commit_hash c ∧ conn_to e = commit_tree c
  | CommitToParent =>
      ∃ c ps, Commit c ∈ objects ∧ conn_from e = commit_hash c
              ∧ commit_parent c = Some ps ∧ conn_to e ∈ ps
  | TagToTarget =>
      ∃ g, Tag g ∈ objects ∧ conn_from e = tag_hash g ∧ conn_to e = tag_objectHash g
  | TreeToEntry =>
      ∃ t entry, Tree t ∈ objects ∧ conn_from e = tree_hash t
                 ∧ entry ∈ tree_entries t ∧ conn_to e = entry_hash entry
  end.

(** The tree "t2" of the nested repository is pressed; and, as another
    start, the empty background is pressed. *)
Definition ex_pressed_node : State :=
  handleMouseDown (ex_env ex_nested) initialState (ex_at 470 150).
Definition ex_pressed_background : State :=
  handleMouseDown (ex_env ex_nested) initialState (ex_at 10 10).

(** ** Render pass: the label drawn under a node *)

Definition MAX_LABEL_LENGTH : nat := 20.

(** [pos.label.length > MAX_LABEL_LENGTH
      ? pos.label.substring(0, MAX_LABEL_LENGTH) + '...' : pos.label] *)
Definition displayLabel (label : string) : string :=
  if (MAX_LABEL_LENGTH <? String.length label)%nat
  then String.append (String.substring 0 MAX_LABEL_LENGTH label) "..."
  else label.

(** ** The shell around the graph (ObjectDatabase.tsx) *)

#[global] Instance ObjType_countable : Countable ObjType.
Proof.
  refine (inj_countable'
            (λ t, match t with commit => 0%nat | tree => 1%nat | blob => 2%nat | tag => 3%nat end)
            (λ n, match n with 0%nat => commit | 1%nat => tree | 2%nat => blob | _ => tag end)
            _).
  by intros [].
Defined.

Module ObjectDatabase.
(** [useState(['commit', 'tree', 'blob', 'tag'])] *)
Definition initialVisibleTypes : list ObjType := [commit; tree; blob; tag].

(** The filter button of [type]:
    [prev.includes(type) ? prev.filter(t => t !== type) : [...prev, type]] *)
Definition toggleType (prev : list ObjType) (type : ObjType) : list ObjType :=
  if bool_decide (type ∈ prev) then filter (λ t, t ≠ type) prev else prev ++ [type].

(** [objects.filter((obj) => visibleTypes.includes(obj.type))], the
    collection handed to the graph. *)
Definition filteredObjects (objects : list GitObject) (visibleTypes : list ObjType)
    : list GitObject :=
  filter (λ obj, type obj ∈ visibleTypes) objects.

(** [objects.reduce((acc, obj) => { acc[obj.type] = (acc[obj.type] || 0) + 1;
    return acc }, {})] *)
Definition objectCounts (objects : list GitObject) : gmap ObjType Z :=
  foldl (λ acc obj, <[type obj := default 0 (acc !! type obj) + 1]> acc) ∅ objects.

(** The badge of a filter button: [objectCounts[type] || 0]. *)
Definition shownCount (objects : list GitObject) (ty : ObjType) : Z :=
  default 0 (objectCounts objects !! ty).

(** The callback handed to the graph:
    [const obj = objects.find((o) => o.hash === hash); if (obj) setSelectedObject(obj)] *)
Definition onSelectObject (objects : list GitObject) (selectedObject : option GitObject)
    (h : string) : option GitObject :=
  match List.find (λ o, String.eqb (hash o) h) objects with
  | Some obj => Some obj
  | None => selectedObject
  end.

(** [selectedHash={selectedObject?.hash}] *)
Definition selectedHashOf (selectedObject : option GitObject) : option string :=
  hash <$> selectedObject.
End ObjectDatabase.

(** ** The inspector's lookups (ObjectDetail.tsx) *)

Module ObjectDetail.
(** [allObjects.find((o) => o.hash === hash)] *)
Definition getObjectByHash (allObjects : list GitObject) (h : string) : option GitObject :=
  List.find (λ o, String.eqb (hash o) h) allObjects.

(** [commit.parent?.map((p) => getObjectByHash(p)).filter(Boolean) || []] *)
Definition parentObjs (allObjects : list GitObject) (c : CommitObject) : list GitObject :=
  match commit_parent c with
  | Some parents => omap (getObjectByHash allObjects) parents
  | None => []
  end.
End ObjectDetail.

(** ** Notions used to state further properties *)

(** An edge that the objects of the collection describe. *)
Definition objectEdge (objects : list GitObject) (kind : EdgeKind) (a b : string) : Prop :=
  match kind with
  | CommitToTree => ∃ c, Commit c ∈ objects ∧ a = commit_hash c ∧ b = commit_tree c
  | CommitToParent =>
      ∃ c ps, Commit c ∈ objects ∧ a = commit_hash c ∧ commit_parent c = Some ps ∧ b ∈ ps
  | TagToTarget => ∃ g, Tag g ∈ objects ∧ a = tag_hash g ∧ b = tag_objectHash g
  | TreeToEntry =>
      ∃ t entry, Tree t ∈ objects ∧ a = tree_hash t ∧ entry ∈ tree_entries t
                 ∧ b = entry_hash entry
  end.

(** [{ ...pos, x: pos.x + dx, y: pos.y + dy }] *)
Definition moveBy (pos : NodePosition) (dx dy : Z) : NodePosition :=
  {| pos_x := pos_x pos + dx;
     pos_y := pos_y pos + dy;
     pos_hash := pos_hash pos;
     pos_label := pos_label pos;
     pos_type := pos_type pos;
     pos_depth := pos_depth pos |}.

(** While the node [id], pressed at [p] where it had position [pos0], is
    being dragged and the pointer is at [l], whatever the size of the moves:
    the node has followed the pointer and nothing else has moved. *)
Record following (E : Env) (s0 : State) (p : MouseEvent) (id : string)
    (pos0 : NodePosition) (s : State) (l : MouseEvent) : Prop := {
  follow_pan : panOffset s = panOffset s0;
  follow_node : draggedNodeHash s = Some id;
  follow_last : lastMousePos s = {| pt_x := clientX l; pt_y := clientY l |};
  follow_wf : wfMap (dragOverrides s);
  follow_others : ∀ k, k ≠ id →
    JsMap.get k (effectivePositions E s) = JsMap.get k (effectivePositions E s0);
  follow_pos : JsMap.get id (effectivePositions E s)
               = Some (moveBy pos0 (clientX l - clientX p) (clientY l - clientY p)) }.

(** While the background, pressed at [p], is being panned and the pointer
    is at [l]: the camera has followed the pointer and the overlay is as it
    was. *)
Record panning (s0 : State) (p : MouseEvent) (s : State) (l : MouseEvent) : Prop := {
  pan_flag : isPanning s = true;
  pan_node : truthyHash (draggedNodeHash s) = None;
  pan_last : lastMousePos s = {| pt_x := clientX l; pt_y := clientY l |};
  pan_overlay : dragOverrides s = dragOverrides s0;
  pan_camera : panOffset s
               = {| pt_x := pt_x (panOffset s0) + (clientX l - clientX p);
                    pt_y := pt_y (panOffset s0) + (clientY l - clientY p) |} }.

(** * Properties *)

Example ex_diamond_depths :
  map (λ h, computeDepthMap ex_diamond !! h) ["t1"; "t2"; "b1"; "b2"; "c1"]
  = [Some 0; Some 1; Some 1; Some 2; None].
Proof. vm_compute. reflexivity. Qed.

Example ex_repo_layout :
  map (λ '(h, p), (h, pos_x p, pos_y p, pos_depth p)) (defaultPositions graphConsts ex_repo)
  = [ ("c1", 150, 30, -1); ("c0", 150, 100, -1);
      ("t1", 300, 30, 0); ("t2", 420, 100, 1);
      ("b1", 420, 170, 1); ("b2", 540, 240, 2);
      ("v1", 70, 30, 0); ("v2", 300, 100, 0) ].
Proof. vm_compute. reflexivity. Qed.

Example ex_repo_layout_earlier :
  map (λ '(h, p), (h, pos_x p, pos_y p, pos_depth p)) (defaultPositions earlierConsts ex_repo)
  = [ ("c1", 100, 0, -1); ("c0", 100, 60, -1);
      ("t1", 250, 0, 0); ("t2", 370, 60, 1);
      ("b1", 370, 120, 1); ("b2", 490, 180, 2);
      ("v1", 100, 30, 0); ("v2", 250, 60, 0) ].
Proof. vm_compute. reflexivity. Qed.

(** ** Facts about the index and the seeds *)

Lemma objectMap_snoc objects o :
  objectMap (objects ++ [o]) = <[hash o := o]> (objectMap objects).
Proof. unfold objectMap. by rewrite foldl_app. Qed.

Lemma objectMap_lookup_Some objects h o :
  objectMap objects !! h = Some o → o ∈ objects ∧ hash o = h.
Proof.
  induction objects as [|x l IH] using rev_ind.
  - unfold objectMap; simpl. by rewrite lookup_empty.
  - rewrite objectMap_snoc. destruct (decide (hash x = h)) as [<-|Hne].
    + rewrite lookup_insert_eq. intros [= <-]. split; [|done].
      apply elem_of_app; right. by apply list_elem_of_singleton.
    + rewrite lookup_insert_ne; [|done]. intros H.
      destruct (IH H) as [Hin Hh]. split; [|done].
      apply elem_of_app; by left.
Qed.

Lemma entryCount_le_total objects o :
  o ∈ objects → (entryCount o ≤ totalEntries objects)%nat.
Proof.
  induction objects as [|x l IH]; [by intros ?%elem_of_nil|].
  intros [->|Hin]%elem_of_cons; simpl; [lia|]. specialize (IH Hin). lia.
Qed.

Lemma elem_of_commitsOf objects c : c ∈ commitsOf objects ↔ Commit c ∈ objects.
Proof.
  unfold commitsOf. rewrite list_elem_of_omap. split.
  - intros (o & Hin & Ho). destruct o; simplify_eq/=. done.
  - intros H. by exists (Commit c).
Qed.

Lemma elem_of_seedQueue objects h d :
  (h, d) ∈ seedQueue objects ↔ d = 0 ∧ isSeed objects h.
Proof.
  unfold seedQueue, isSeed, truthy. rewrite list_elem_of_omap. split.
  - intros (c & Hc%elem_of_commitsOf & Heq).
    destruct (String.eqb_spec (commit_tree c) ""); simplify_eq/=.
    split; [done|]. by exists c.
  - intros (-> & c & Hc & <- & Hne). exists c. split; [by apply elem_of_commitsOf|].
    destruct (String.eqb_spec (commit_tree c) ""); simpl; congruence.
Qed.

(** ** Termination of the depth loop *)

Lemma bfsBody_measure objects hash depth rest st :
  queue st = (hash, depth) :: rest →
  (bfsMeasure objects (bfsBody (objectMap objects) hash depth rest st)
   < bfsMeasure objects st)%nat.
Proof.
  intros Hq. unfold bfsMeasure, bfsBody. rewrite Hq.
  destruct (decide (hash ∈ visited st)) as [Hv|Hv]; simpl; [lia|].
  set (W := S (totalEntries objects)).
  set (U := dom (objectMap objects) ∖ visited st).
  assert (Hsub : dom (objectMap objects) ∖ ({[hash]} ∪ visited st) ⊆ U)
    by (subst U; set_solver).
  pose proof (subseteq_size _ _ Hsub) as Hle.
  destruct (objectMap objects !! hash) as [o|] eqn:Hlook.
  - assert (Hin : hash ∈ U).
    { subst U. apply elem_of_difference. split; [|done].
      apply elem_of_dom. eauto. }
    assert (Hlt : (size (dom (objectMap objects) ∖ ({[hash]} ∪ visited st)) < size U)%nat).
    { apply subset_size. split; [done|]. intros Hc. specialize (Hc _ Hin). set_solver. }
    destruct o as [c|t|b|g]; try (simpl; nia).
    rewrite length_app, length_map.
    apply objectMap_lookup_Some in Hlook as [Hin' _].
    pose proof (entryCount_le_total _ _ Hin') as Hcnt. simpl in Hcnt.
    subst W. nia.
  - subst W. nia.
Qed.

Lemma bfsLoop_enough_fuel objects fuel st :
  (bfsMeasure objects st ≤ fuel)%nat →
  is_Some (bfsLoop fuel (objectMap objects) st).
Proof.
  revert st. induction fuel as [|fuel IH]; intros st Hm.
  - destruct (queue st) as [|[h d] rest] eqn:Hq; simpl; rewrite Hq; [eauto|].
    unfold bfsMeasure in Hm. rewrite Hq in Hm. simpl in Hm. lia.
  - simpl. destruct (queue st) as [|[h d] rest] eqn:Hq; [eauto|].
    apply IH. pose proof (bfsBody_measure objects h d rest st Hq). lia.
Qed.

Lemma bfsLoop_queue_nil fuel om st st' :
  bfsLoop fuel om st = Some st' → queue st' = [].
Proof.
  revert st. induction fuel as [|fuel IH]; intros st; simpl;
    destruct (queue st) as [|[h d] rest] eqn:Hq; try done;
    try (intros [= <-]; done).
  apply IH.
Qed.

(** Spare fuel is never used. *)
Lemma bfsLoop_more_fuel fuel extra om st st' :
  bfsLoop fuel om st = Some st' → bfsLoop (fuel + extra) om st = Some st'.
Proof.
  revert st. induction fuel as [|fuel IH]; intros st; simpl.
  - destruct (queue st) as [|[h d] rest] eqn:Hq; [|done].
    intros [= <-]. destruct extra; simpl; by rewrite Hq.
  - destruct (queue st) as [|[h d] rest] eqn:Hq; [done|]. apply IH.
Qed.

(** ** Correctness of the depth loop: invariants *)

Lemma walk_app om n m a b c : walk om n a b → walk om m b c → walk om (n + m) a c.
Proof.
  induction 1 as [h|n a b' c' He Hw IH]; intros Hrest; simpl; [done|].
  eapply walk_S; [exact He|]. by apply IH.
Qed.

Lemma pathFromSeed_extend objects n m h h' :
  pathFromSeed objects n h → walk (objectMap objects) m h h' →
  pathFromSeed objects (n + m) h'.
Proof. intros (s & Hs & Hw) Hw'. exists s. split; [done|]. by eapply walk_app. Qed.

Lemma bfsInv_init objects : bfsInv objects (bfsInit objects).
Proof.
  split; simpl.
  - intros h. rewrite lookup_empty. split; [set_solver|by intros [? ?]].
  - intros h d [-> Hs]%elem_of_seedQueue. exists O. split; [done|].
    exists h. split; [done|constructor].
  - intros h d. by rewrite lookup_empty.
  - exists 0, (seedQueue objects), []. simpl. rewrite app_nil_r.
    repeat split; [|constructor|intros h d; by rewrite lookup_empty].
    apply Forall_forall. intros [h d] [-> _]%elem_of_seedQueue. done.
  - intros h n (s & Hs & Hw). right. exists s, 0, n. simpl.
    repeat split; [|set_solver|done|lia].
    apply elem_of_seedQueue. done.
Qed.

(** The level invariant read at the head of the queue. *)
Lemma levelled_head st h0 d0 rest :
  levelled st → queue st = (h0, d0) :: rest →
  (∀ h d, (h, d) ∈ rest → (d0 ≤ d) ∧ (d ≤ d0 + 1)) ∧
  (∀ h d, depthMap st !! h = Some d → d ≤ d0) ∧
  ∃ q1 q2, rest = q1 ++ q2 ∧
    Forall (λ e, e.2 = d0) q1 ∧ Forall (λ e, e.2 = d0 + 1) q2.
Proof.
  intros (k & q1 & q2 & Hq & H1 & H2 & Hd) Hq'. rewrite Hq' in Hq.
  destruct q1 as [|e q1]; simpl in Hq.
  - subst q2. apply Forall_cons in H2 as [Hk H2]. simpl in Hk. subst d0.
    split; [|split].
    + intros h d Hin. rewrite Forall_forall in H2. specialize (H2 _ Hin).
      simpl in H2. lia.
    + intros h d Hl. specialize (Hd _ _ Hl). lia.
    + exists rest, []. rewrite app_nil_r. repeat split; [done|constructor].
  - injection Hq as <- ->. apply Forall_cons in H1 as [Hk H1]. simpl in Hk. subst k.
    split; [|split].
    + intros h d [Hin|Hin]%elem_of_app.
      * rewrite Forall_forall in H1. specialize (H1 _ Hin). simpl in H1. lia.
      * rewrite Forall_forall in H2. specialize (H2 _ Hin). simpl in H2. lia.
    + done.
    + by exists q1, q2.
Qed.

(** The state after a first visit of [h0]. *)
Lemma bfsBody_fresh om h0 d0 rest st :
  h0 ∉ visited st → depthMap st !! h0 = None →
  bfsBody om h0 d0 rest st =
  {| queue := match om !! h0 with
              | Some (Tree t) => rest ++ map (λ e, (entry_hash e, d0 + 1)) (tree_entries t)
              | _ => rest
              end;
     visited := {[h0]} ∪ visited st;
     depthMap := <[h0 := d0]> (depthMap st) |}.
Proof. intros Hv Hd. unfold bfsBody. rewrite decide_False by done. by rewrite Hd. Qed.

(** Everything reachable from a freshly visited node is accounted for. *)
Lemma frontier_fresh objects st h0 d0 rest :
  bfsInv objects st → queue st = (h0, d0) :: rest → h0 ∉ visited st →
  ∀ k h n, walk (objectMap objects) k h0 h → d0 + Z.of_nat k ≤ Z.of_nat n →
    frontier objects (bfsBody (objectMap objects) h0 d0 rest st) h n.
Proof.
  intros Hinv Hq Hv.
  destruct (levelled_head _ _ _ _ (inv_level _ _ Hinv) Hq) as (Hrest & Hdeep & _).
  assert (Hnone : depthMap st !! h0 = None).
  { destruct (depthMap st !! h0) eqn:E; [|done].
    exfalso. apply Hv. apply (inv_dom _ _ Hinv). eauto. }
  rewrite (bfsBody_fresh _ _ _ _ _ Hv Hnone).
  induction k as [k IH] using lt_wf_ind. intros h n Hw Hle.
  inversion Hw as [h'|k' a h1 c He Hw']; subst.
  - left. exists d0. simpl. rewrite lookup_insert_eq. split; [done|lia].
  - destruct He as (t & Ht & Hchild). simpl.
    destruct (decide (h1 ∈ ({[h0]} ∪ visited st : gset string))) as [Hin|Hnin].
    + apply elem_of_union in Hin as [->%elem_of_singleton|Hin].
      { apply (IH k'); [lia|done|lia]. }
      apply (inv_dom _ _ Hinv) in Hin as [d1 Hd1].
      destruct (inv_depth _ _ Hinv _ _ Hd1) as (n1 & -> & Hp1).
      pose proof (Hdeep _ _ Hd1) as Hd1le.
      pose proof (pathFromSeed_extend _ _ _ _ _ Hp1 Hw') as Hp.
      destruct (inv_front _ _ Hinv _ _ Hp) as [(d & Hd & Hdle)|(h2 & d2 & k2 & Hin2 & Hv2 & Hw2 & Hle2)].
      * left. exists d. simpl. split; [|lia].
        rewrite lookup_insert_ne; [done|]. intros <-. congruence.
      * rewrite Hq in Hin2. apply elem_of_cons in Hin2 as [[= -> ->]|Hin2].
        { apply (IH k2); [lia|done|lia]. }
        destruct (decide (h2 = h0)) as [->|Hne].
        { pose proof (Hrest _ _ Hin2). apply (IH k2); [lia|done|lia]. }
        right. exists h2, d2, k2. rewrite Ht. repeat split; [|set_solver|done|lia].
        apply elem_of_app. by left.
    + right. exists h1, (d0 + 1), k'. rewrite Ht. repeat split; [|done|done|lia].
      apply elem_of_app. right.
      apply list_elem_of_fmap in Hchild as (e & -> & He).
      apply list_elem_of_fmap. by exists e.
Qed.

Lemma bfsBody_inv objects st h0 d0 rest :
  bfsInv objects st → queue st = (h0, d0) :: rest →
  bfsInv objects (bfsBody (objectMap objects) h0 d0 rest st).
Proof.
  intros Hinv Hq.
  destruct (levelled_head _ _ _ _ (inv_level _ _ Hinv) Hq)
    as (Hrest & Hdeep & q1 & q2 & Hsplit & H1 & H2).
  assert (Hhead : ∃ n0, d0 = Z.of_nat n0 ∧ pathFromSeed objects n0 h0).
  { apply (inv_queue _ _ Hinv). rewrite Hq. by left. }
  destruct (decide (h0 ∈ visited st)) as [Hv|Hv].
  - (* already visited: the item is dropped *)
    unfold bfsBody. rewrite decide_True by done. split; simpl.
    + apply (inv_dom _ _ Hinv).
    + intros h d Hin. apply (inv_queue _ _ Hinv). rewrite Hq. by right.
    + apply (inv_depth _ _ Hinv).
    + exists d0, q1, q2. by repeat split.
    + intros h n Hp.
      destruct (inv_front _ _ Hinv _ _ Hp) as [Hl|(h' & d' & k & Hin & Hv' & Hw & Hle)];
        [by left|].
      right. exists h', d', k. simpl. repeat split; try done.
      rewrite Hq in Hin. apply elem_of_cons in Hin as [[= -> ->]|Hin]; done.
  - (* first visit *)
    assert (Hnone : depthMap st !! h0 = None).
    { destruct (depthMap st !! h0) eqn:E; [|done].
      exfalso. apply Hv. apply (inv_dom _ _ Hinv). eauto. }
    pose proof (frontier_fresh _ _ _ _ _ Hinv Hq Hv) as Hfresh.
    revert Hfresh. rewrite (bfsBody_fresh _ _ _ _ _ Hv Hnone). intros Hfresh.
    destruct Hhead as (n0 & Hd0 & Hp0).
    split; simpl.
    + intros h. rewrite elem_of_union, elem_of_singleton, (inv_dom _ _ Hinv h).
      destruct (decide (h0 = h)) as [<-|Hne].
      * rewrite lookup_insert_eq. split; eauto.
      * rewrite lookup_insert_ne by done. split; [intros [?|?]; [congruence|done]|auto].
    + assert (Hold : ∀ h d, (h, d) ∈ rest → ∃ n, d = Z.of_nat n ∧ pathFromSeed objects n h).
      { intros h d Hin. apply (inv_queue _ _ Hinv). rewrite Hq. by right. }
      intros h d Hin.
      destruct (objectMap objects !! h0) as [[c|t|b|g]|] eqn:Hlook; try by apply Hold.
      apply elem_of_app in Hin as [Hin|Hin]; [by apply Hold|].
      apply list_elem_of_fmap in Hin as (e & [= -> ->] & He).
      exists (n0 + 1)%nat. split; [lia|].
      apply (pathFromSeed_extend _ _ _ _ _ Hp0).
      eapply walk_S; [|constructor]. exists t. split; [done|].
      apply list_elem_of_fmap. by exists e.
    + intros h d. destruct (decide (h0 = h)) as [<-|Hne].
      * rewrite lookup_insert_eq. intros [= <-]. eauto.
      * rewrite lookup_insert_ne by done. apply (inv_depth _ _ Hinv).
    + assert (Hdeep' : ∀ h d, <[h0:=d0]> (depthMap st) !! h = Some d → d ≤ d0).
      { intros h d. destruct (decide (h0 = h)) as [<-|Hne].
        - rewrite lookup_insert_eq. intros [= <-]. lia.
        - rewrite lookup_insert_ne by done. apply Hdeep. }
      destruct (objectMap objects !! h0) as [[c|t|b|g]|] eqn:Hlook;
        try (exists d0, q1, q2; by repeat split).
      exists d0, q1, (q2 ++ map (λ e, (entry_hash e, d0 + 1)) (tree_entries t)).
      rewrite Hsplit, <- app_assoc. repeat split; try done.
      apply Forall_app. split; [done|].
      apply Forall_forall. intros x (e & -> & _)%list_elem_of_fmap. done.
    + intros h n Hp.
      destruct (inv_front _ _ Hinv _ _ Hp) as [(d & Hd & Hle)|(h' & d' & k & Hin & Hv' & Hw & Hle)].
      * left. exists d. simpl. split; [|done].
        rewrite lookup_insert_ne; [done|]. intros <-. congruence.
      * rewrite Hq in Hin. apply elem_of_cons in Hin as [[= -> ->]|Hin].
        { by apply (Hfresh k). }
        destruct (decide (h' = h0)) as [->|Hne].
        { pose proof (Hrest _ _ Hin). apply (Hfresh k); [done|lia]. }
        right. exists h', d', k. simpl. repeat split; [|set_solver|done|done].
        destruct (objectMap objects !! h0) as [[]|]; try done.
        apply elem_of_app. by left.
Qed.

Lemma bfsLoop_inv objects fuel st st' :
  bfsInv objects st → bfsLoop fuel (objectMap objects) st = Some st' →
  bfsInv objects st'.
Proof.
  revert st. induction fuel as [|fuel IH]; intros st Hinv; simpl.
  - destruct (queue st) as [|[h d] rest]; [|done]. by intros [= <-].
  - destruct (queue st) as [|[h d] rest] eqn:Hq; [by intros [= <-]|].
    apply IH. by apply bfsBody_inv.
Qed.

(** The loop of [defaultPositions] runs to its end on every collection. *)
Lemma bfsLoop_terminates objects :
  ∃ st, bfsLoop (bfsFuel objects) (objectMap objects) (bfsInit objects) = Some st
        ∧ queue st = [] ∧ bfsInv objects st ∧ computeDepthMap objects = depthMap st.
Proof.
  destruct (bfsLoop_enough_fuel objects (bfsFuel objects) (bfsInit objects)) as [st Hst];
    [unfold bfsFuel; lia|].
  exists st. split; [done|]. split; [by eapply bfsLoop_queue_nil|]. split.
  - eapply bfsLoop_inv; [apply bfsInv_init|done].
  - unfold computeDepthMap. by rewrite Hst.
Qed.

(** The depth map holds exactly the shortest-path lengths. *)
Lemma computeDepthMap_shortest objects h d :
  computeDepthMap objects !! h = Some d ↔
  ∃ n, d = Z.of_nat n ∧ shortestPath objects h n.
Proof.
  destruct (bfsLoop_terminates objects) as (st & _ & Hnil & Hinv & ->).
  assert (Hcomplete : ∀ h n, pathFromSeed objects n h →
            ∃ d, depthMap st !! h = Some d ∧ d ≤ Z.of_nat n).
  { intros h' n Hp.
    destruct (inv_front _ _ Hinv _ _ Hp) as [Hl|(h2 & d2 & k & Hin & _)]; [done|].
    rewrite Hnil in Hin. by apply elem_of_nil in Hin. }
  split.
  - intros Hd. destruct (inv_depth _ _ Hinv _ _ Hd) as (n & -> & Hp).
    exists n. split; [done|]. split; [done|].
    intros m Hm. destruct (Hcomplete _ _ Hm) as (d' & Hd' & Hle).
    rewrite Hd in Hd'. injection Hd' as <-. lia.
  - intros (n & -> & Hp & Hmin).
    destruct (Hcomplete _ _ Hp) as (d' & Hd' & Hle).
    destruct (inv_depth _ _ Hinv _ _ Hd') as (n' & -> & Hp').
    specialize (Hmin _ Hp'). rewrite Hd'. f_equal. lia.
Qed.

(** ** Insertion-ordered maps: lookup after update *)

Lemma JsMap_get_set_eq {V} k (v : V) m : JsMap.get k (JsMap.set k v m) = Some v.
Proof.
  induction m as [|[k' v'] m IH]; simpl.
  - by rewrite decide_True.
  - destruct (decide (k = k')) as [->|Hne]; simpl.
    + by rewrite decide_True.
    + by rewrite decide_False.
Qed.

Lemma JsMap_get_set_ne {V} k k' (v : V) m :
  k ≠ k' → JsMap.get k' (JsMap.set k v m) = JsMap.get k' m.
Proof.
  intros Hne. induction m as [|[k0 v0] m IH]; simpl.
  - by rewrite decide_False.
  - destruct (decide (k = k0)) as [->|Hne0]; simpl.
    + by rewrite !decide_False.
    + destruct (decide (k' = k0)); [done|apply IH].
Qed.

Lemma JsMap_get_is_Some {V} k (m : JsMap.t V) :
  is_Some (JsMap.get k m) ↔ k ∈ JsMap.keys m.
Proof.
  unfold JsMap.keys. induction m as [|[k' v'] m IH]; simpl.
  - split; [by intros [? ?]|by intros ?%elem_of_nil].
  - rewrite elem_of_cons. destruct (decide (k = k')) as [->|Hne].
    + split; eauto.
    + rewrite IH. split; [auto|]. by intros [?|?].
Qed.

Lemma JsMap_get_None {V} k (m : JsMap.t V) :
  JsMap.get k m = None ↔ k ∉ JsMap.keys m.
Proof. rewrite <- JsMap_get_is_Some, eq_None_not_Some. done. Qed.

Lemma JsMap_keys_set_in {V} k (v : V) m :
  k ∈ JsMap.keys m → JsMap.keys (JsMap.set k v m) = JsMap.keys m.
Proof.
  unfold JsMap.keys. induction m as [|[k' v'] m IH]; simpl.
  - by intros ?%elem_of_nil.
  - intros Hin. destruct (decide (k = k')) as [->|Hne]; simpl; [done|].
    f_equal. apply IH. apply elem_of_cons in Hin as [?|?]; done.
Qed.

Lemma JsMap_keys_set_notin {V} k (v : V) m :
  k ∉ JsMap.keys m → JsMap.keys (JsMap.set k v m) = JsMap.keys m ++ [k].
Proof.
  unfold JsMap.keys. induction m as [|[k' v'] m IH]; simpl; [done|].
  intros Hin. apply not_elem_of_cons in Hin as [Hne Hin].
  rewrite decide_False by done. simpl. f_equal. by apply IH.
Qed.

Lemma JsMap_elem_of_keys_set {V} k k' (v : V) m :
  k' ∈ JsMap.keys (JsMap.set k v m) ↔ k' = k ∨ k' ∈ JsMap.keys m.
Proof.
  destruct (decide (k ∈ JsMap.keys m)) as [Hin|Hnin].
  - rewrite JsMap_keys_set_in by done. split; [auto|]. by intros [->|?].
  - rewrite JsMap_keys_set_notin by done.
    rewrite elem_of_app, list_elem_of_singleton. tauto.
Qed.

Lemma JsMap_keys_set_NoDup {V} k (v : V) m :
  NoDup (JsMap.keys m) → NoDup (JsMap.keys (JsMap.set k v m)).
Proof.
  intros Hnd. destruct (decide (k ∈ JsMap.keys m)) as [Hin|Hnin].
  - by rewrite JsMap_keys_set_in.
  - rewrite JsMap_keys_set_notin by done. apply NoDup_app. split; [done|].
    split; [|apply NoDup_singleton].
    intros x Hx ->%list_elem_of_singleton. done.
Qed.

(** ** Loops that set one key per element *)

Section SetEach.
Context {A : Type} (key : A → string)
        (val : A → Z → JsMap.t NodePosition → NodePosition).

Let body : A → Z → JsMap.t NodePosition → JsMap.t NodePosition :=
  λ a index pm, JsMap.set (key a) (val a index pm) pm.

Lemma forEachFrom_app (xs ys : list A) index pm :
  forEachFrom body (xs ++ ys) index pm
  = forEachFrom body ys (index + Z.of_nat (length xs)) (forEachFrom body xs index pm).
Proof.
  revert index pm. induction xs as [|x xs IH]; intros index pm; simpl.
  - f_equal. lia.
  - rewrite IH. f_equal. lia.
Qed.

Lemma forEachFrom_get_other xs index pm k :
  k ∉ map key xs → JsMap.get k (forEachFrom body xs index pm) = JsMap.get k pm.
Proof.
  revert index pm. induction xs as [|x xs IH]; intros index pm; simpl; [done|].
  intros [Hne Hnin]%not_elem_of_cons. rewrite IH by done.
  apply JsMap_get_set_ne. done.
Qed.

Lemma forEachFrom_keys xs index pm k :
  k ∈ JsMap.keys (forEachFrom body xs index pm) ↔ k ∈ JsMap.keys pm ∨ k ∈ map key xs.
Proof.
  revert index pm. induction xs as [|x xs IH]; intros index pm; simpl.
  - rewrite elem_of_nil. tauto.
  - rewrite IH. unfold body. rewrite JsMap_elem_of_keys_set, elem_of_cons. tauto.
Qed.

Lemma forEachFrom_NoDup xs index pm :
  NoDup (JsMap.keys pm) → NoDup (JsMap.keys (forEachFrom body xs index pm)).
Proof.
  revert index pm. induction xs as [|x xs IH]; intros index pm Hnd; simpl; [done|].
  apply IH. by apply JsMap_keys_set_NoDup.
Qed.

(** An element whose key no later element repeats gets the value computed
    from its index and from the map as its predecessors left it. *)
Lemma forEachFrom_get_nth xs a ys index pm :
  key a ∉ map key ys →
  JsMap.get (key a) (forEachFrom body (xs ++ a :: ys) index pm)
  = Some (val a (index + Z.of_nat (length xs)) (forEachFrom body xs index pm)).
Proof.
  intros Hnin. rewrite forEachFrom_app. simpl.
  rewrite forEachFrom_get_other by done. apply JsMap_get_set_eq.
Qed.

Lemma forEachFrom_keyed xs index pm :
  (∀ a i m, pos_hash (val a i m) = key a) →
  keyed pm → keyed (forEachFrom body xs index pm).
Proof.
  intros Hval. revert index pm.
  induction xs as [|x xs IH]; intros index pm Hk; simpl; [done|].
  apply IH. intros k p. unfold body. destruct (decide (key x = k)) as [<-|Hne].
  - rewrite JsMap_get_set_eq. intros [= <-]. apply Hval.
  - rewrite JsMap_get_set_ne by done. apply Hk.
Qed.
End SetEach.

(** ** The objects of each kind *)

Lemma elem_of_treesOf objects t : t ∈ treesOf objects ↔ Tree t ∈ objects.
Proof.
  unfold treesOf. rewrite list_elem_of_omap. split.
  - intros (o & Hin & Ho). destruct o; simplify_eq/=. done.
  - intros H. by exists (Tree t).
Qed.

Lemma elem_of_blobsOf objects b : b ∈ blobsOf objects ↔ Blob b ∈ objects.
Proof.
  unfold blobsOf. rewrite list_elem_of_omap. split.
  - intros (o & Hin & Ho). destruct o; simplify_eq/=. done.
  - intros H. by exists (Blob b).
Qed.

Lemma elem_of_tagsOf objects g : g ∈ tagsOf objects ↔ Tag g ∈ objects.
Proof.
  unfold tagsOf. rewrite list_elem_of_omap. split.
  - intros (o & Hin & Ho). destruct o; simplify_eq/=. done.
  - intros H. by exists (Tag g).
Qed.

Lemma asCommit_hash o c : asCommit o = Some c → commit_hash c = hash o.
Proof. destruct o; by intros [= <-]. Qed.

Lemma asTree_hash o t : asTree o = Some t → tree_hash t = hash o.
Proof. destruct o; by intros [= <-]. Qed.

Lemma asBlob_hash o b : asBlob o = Some b → blob_hash b = hash o.
Proof. destruct o; by intros [= <-]. Qed.

Lemma asTag_hash o g : asTag o = Some g → tag_hash g = hash o.
Proof. destruct o; by intros [= <-]. Qed.

(** The objects of one kind around an object of the collection. *)
Lemma omap_middle {A} (pick : GitObject → option A) l1 o l2 :
  omap pick (l1 ++ o :: l2)
  = omap pick l1 ++ match pick o with
                    | Some a => a :: omap pick l2
                    | None => omap pick l2
                    end.
Proof. rewrite omap_app. simpl. by destruct (pick o). Qed.

Lemma kind_hash_in {A} (pick : GitObject → option A) (key : A → string) l k :
  (∀ o a, pick o = Some a → key a = hash o) →
  k ∈ map key (omap pick l) → k ∈ map hash l.
Proof.
  intros Hkey (a & -> & (o & Ho & Hp)%list_elem_of_omap)%list_elem_of_fmap.
  rewrite (Hkey _ _ Hp). apply list_elem_of_fmap. by exists o.
Qed.

(** An identifier that no other object shares is not among the hashes of
    another kind, *)
Lemma other_kind_hashes {A} (pick : GitObject → option A) (key : A → string) l1 o l2 :
  (∀ o a, pick o = Some a → key a = hash o) →
  pick o = None → hash o ∉ map hash (l1 ++ l2) →
  hash o ∉ map key (omap pick (l1 ++ o :: l2)).
Proof.
  intros Hkey Hp Hn Hin. rewrite omap_middle, Hp, <- omap_app in Hin.
  apply Hn. by eapply kind_hash_in.
Qed.

(** nor among the later hashes of its own kind. *)
Lemma same_kind_later {A} (pick : GitObject → option A) (key : A → string) l1 l2 k :
  (∀ o a, pick o = Some a → key a = hash o) →
  k ∉ map hash (l1 ++ l2) → k ∉ map key (omap pick l2).
Proof.
  intros Hkey Hn Hin. apply Hn. rewrite map_app. apply elem_of_app. right.
  by eapply kind_hash_in.
Qed.

(** In a collection with distinct hashes no object shares its identifier. *)
Lemma NoDup_unshared l1 o l2 :
  NoDup (map hash (l1 ++ o :: l2)) → hash o ∉ map hash (l1 ++ l2).
Proof.
  rewrite !map_app. simpl. intros (_ & Hdisj & [Hnin _]%NoDup_cons)%NoDup_app.
  intros [Hin|Hin]%elem_of_app; [|done].
  apply (Hdisj _ Hin). by left.
Qed.

Lemma elem_of_commit_hashes objects k :
  k ∈ map commit_hash (commitsOf objects) ↔ ∃ c, Commit c ∈ objects ∧ commit_hash c = k.
Proof.
  rewrite list_elem_of_fmap. split.
  - intros (c & -> & Hc%elem_of_commitsOf). eauto.
  - intros (c & Hc & <-). exists c. by rewrite elem_of_commitsOf.
Qed.

Lemma elem_of_tree_hashes objects k :
  k ∈ map tree_hash (treesOf objects) ↔ ∃ t, Tree t ∈ objects ∧ tree_hash t = k.
Proof.
  rewrite list_elem_of_fmap. split.
  - intros (c & -> & Hc%elem_of_treesOf). eauto.
  - intros (c & Hc & <-). exists c. by rewrite elem_of_treesOf.
Qed.

Lemma elem_of_blob_hashes objects k :
  k ∈ map blob_hash (blobsOf objects) ↔ ∃ b, Blob b ∈ objects ∧ blob_hash b = k.
Proof.
  rewrite list_elem_of_fmap. split.
  - intros (c & -> & Hc%elem_of_blobsOf). eauto.
  - intros (c & Hc & <-). exists c. by rewrite elem_of_blobsOf.
Qed.

Lemma elem_of_tag_hashes objects k :
  k ∈ map tag_hash (tagsOf objects) ↔ ∃ g, Tag g ∈ objects ∧ tag_hash g = k.
Proof.
  rewrite list_elem_of_fmap. split.
  - intros (c & -> & Hc%elem_of_tagsOf). eauto.
  - intros (c & Hc & <-). exists c. by rewrite elem_of_tagsOf.
Qed.

(** ** The layout pass by pass *)

Lemma defaultPositions_passes K objects :
  defaultPositions K objects = beforeTag K objects (tagsOf objects).
Proof. reflexivity. Qed.

Lemma afterCommits_keys K objects k :
  k ∈ JsMap.keys (afterCommits K objects) ↔ ∃ c, Commit c ∈ objects ∧ commit_hash c = k.
Proof.
  unfold afterCommits, forEach.
  rewrite (forEachFrom_keys commit_hash (λ c index _, commitPosition K c index)).
  rewrite elem_of_commit_hashes. unfold JsMap.keys, JsMap.empty. simpl.
  rewrite elem_of_nil. tauto.
Qed.

Lemma afterTrees_keys K objects k :
  k ∈ JsMap.keys (afterTrees K objects) ↔
  (∃ c, Commit c ∈ objects ∧ commit_hash c = k) ∨ (∃ t, Tree t ∈ objects ∧ tree_hash t = k).
Proof.
  unfold afterTrees, forEach.
  rewrite (forEachFrom_keys tree_hash
             (λ t index _, treePosition K (computeDepthMap objects) t index)).
  by rewrite afterCommits_keys, elem_of_tree_hashes.
Qed.

Lemma afterBlobs_keys K objects k :
  k ∈ JsMap.keys (afterBlobs K objects) ↔
  ∃ o, o ∈ objects ∧ type o ≠ tag ∧ hash o = k.
Proof.
  unfold afterBlobs, forEach.
  rewrite (forEachFrom_keys blob_hash
             (λ b index _, blobPosition K (computeDepthMap objects)
                             (Z.of_nat (length (treesOf objects))) b index)).
  rewrite afterTrees_keys, elem_of_blob_hashes. split.
  - intros [[(c & Hc & <-)|(t & Ht & <-)]|(b & Hb & <-)].
    + by exists (Commit c).
    + by exists (Tree t).
    + by exists (Blob b).
  - intros ([c|t|b|g] & Ho & Hty & <-); simpl in *; [eauto..|done].
Qed.

Lemma beforeTag_keys K objects earlier k :
  k ∈ JsMap.keys (beforeTag K objects earlier) ↔
  (∃ o, o ∈ objects ∧ type o ≠ tag ∧ hash o = k) ∨ k ∈ map tag_hash earlier.
Proof.
  unfold beforeTag, forEach.
  rewrite (forEachFrom_keys tag_hash
             (λ g index pm, tagPosition K (objectMap objects) g index pm)).
  by rewrite afterBlobs_keys.
Qed.

(** The layout has one entry per hash of the collection, and no other. *)
Lemma defaultPositions_keys K objects k :
  k ∈ JsMap.keys (defaultPositions K objects) ↔ ∃ o, o ∈ objects ∧ hash o = k.
Proof.
  rewrite defaultPositions_passes, beforeTag_keys, elem_of_tag_hashes. split.
  - intros [(o & Ho & _ & Hk)|(g & Hg & <-)]; [eauto|]. by exists (Tag g).
  - intros (o & Ho & <-). destruct (decide (type o = tag)) as [Hty|Hty].
    + right. destruct o; try done. eauto.
    + left. eauto.
Qed.

Lemma defaultPositions_get_None K objects k :
  (∀ o, o ∈ objects → hash o ≠ k) → JsMap.get k (defaultPositions K objects) = None.
Proof.
  intros Hk. apply JsMap_get_None. rewrite defaultPositions_keys.
  intros (o & Ho & Heq). by eapply Hk.
Qed.

Lemma defaultPositions_get_is_Some K objects o :
  o ∈ objects → is_Some (JsMap.get (hash o) (defaultPositions K objects)).
Proof. intros Ho. apply JsMap_get_is_Some, defaultPositions_keys. eauto. Qed.

Lemma defaultPositions_NoDup K objects :
  NoDup (JsMap.keys (defaultPositions K objects)).
Proof.
  unfold defaultPositions, forEach. repeat apply @forEachFrom_NoDup. constructor.
Qed.

Lemma defaultPositions_keyed K objects : keyed (defaultPositions K objects).
Proof.
  unfold defaultPositions, forEach.
  apply (forEachFrom_keyed tag_hash
           (λ g index pm, tagPosition K (objectMap objects) g index pm)); [done|].
  apply (forEachFrom_keyed blob_hash
           (λ b index _, blobPosition K (computeDepthMap objects)
                           (Z.of_nat (length (treesOf objects))) b index)); [done|].
  apply (forEachFrom_keyed tree_hash
           (λ t index _, treePosition K (computeDepthMap objects) t index)); [done|].
  apply (forEachFrom_keyed commit_hash (λ c index _, commitPosition K c index)); [done|].
  intros k p. done.
Qed.

(** ** Where an object lands when no other object shares its identifier *)

Lemma get_through_tags K objects k :
  k ∉ map tag_hash (tagsOf objects) →
  JsMap.get k (defaultPositions K objects) = JsMap.get k (afterBlobs K objects).
Proof.
  intros Hk. rewrite defaultPositions_passes. unfold beforeTag, forEach.
  by apply (forEachFrom_get_other tag_hash
              (λ g index pm, tagPosition K (objectMap objects) g index pm)).
Qed.

Lemma get_through_blobs K objects k :
  k ∉ map blob_hash (blobsOf objects) →
  JsMap.get k (afterBlobs K objects) = JsMap.get k (afterTrees K objects).
Proof.
  intros Hk. unfold afterBlobs, forEach.
  by apply (forEachFrom_get_other blob_hash
              (λ b index _, blobPosition K (computeDepthMap objects)
                              (Z.of_nat (length (treesOf objects))) b index)).
Qed.

Lemma get_through_trees K objects k :
  k ∉ map tree_hash (treesOf objects) →
  JsMap.get k (afterTrees K objects) = JsMap.get k (afterCommits K objects).
Proof.
  intros Hk. unfold afterTrees, forEach.
  by apply (forEachFrom_get_other tree_hash
              (λ t index _, treePosition K (computeDepthMap objects) t index)).
Qed.

Lemma commit_position K l1 c l2 :
  commit_hash c ∉ map hash (l1 ++ l2) →
  JsMap.get (commit_hash c) (defaultPositions K (l1 ++ Commit c :: l2))
  = Some (commitPosition K c (Z.of_nat (length (commitsOf l1)))).
Proof.
  intros Hn.
  rewrite get_through_tags
    by (by apply (other_kind_hashes asTag tag_hash l1 (Commit c) l2 asTag_hash)).
  rewrite get_through_blobs
    by (by apply (other_kind_hashes asBlob blob_hash l1 (Commit c) l2 asBlob_hash)).
  rewrite get_through_trees
    by (by apply (other_kind_hashes asTree tree_hash l1 (Commit c) l2 asTree_hash)).
  unfold afterCommits, forEach, commitsOf. rewrite omap_middle. simpl.
  rewrite (forEachFrom_get_nth commit_hash (λ c index _, commitPosition K c index)).
  - done.
  - by apply (same_kind_later asCommit commit_hash l1 l2 _ asCommit_hash).
Qed.

Lemma tree_position K l1 t l2 :
  tree_hash t ∉ map hash (l1 ++ l2) →
  JsMap.get (tree_hash t) (defaultPositions K (l1 ++ Tree t :: l2))
  = Some (treePosition K (computeDepthMap (l1 ++ Tree t :: l2)) t
            (Z.of_nat (length (treesOf l1)))).
Proof.
  intros Hn.
  rewrite get_through_tags
    by (by apply (other_kind_hashes asTag tag_hash l1 (Tree t) l2 asTag_hash)).
  rewrite get_through_blobs
    by (by apply (other_kind_hashes asBlob blob_hash l1 (Tree t) l2 asBlob_hash)).
  unfold afterTrees, forEach. unfold treesOf at 1. rewrite omap_middle. simpl.
  rewrite (forEachFrom_get_nth tree_hash
             (λ t' index _, treePosition K (computeDepthMap (l1 ++ Tree t :: l2)) t' index)).
  - done.
  - by apply (same_kind_later asTree tree_hash l1 l2 _ asTree_hash).
Qed.

Lemma blob_position K l1 b l2 :
  blob_hash b ∉ map hash (l1 ++ l2) →
  JsMap.get (blob_hash b) (defaultPositions K (l1 ++ Blob b :: l2))
  = Some (blobPosition K (computeDepthMap (l1 ++ Blob b :: l2))
            (Z.of_nat (length (treesOf (l1 ++ Blob b :: l2)))) b
            (Z.of_nat (length (blobsOf l1)))).
Proof.
  intros Hn.
  rewrite get_through_tags
    by (by apply (other_kind_hashes asTag tag_hash l1 (Blob b) l2 asTag_hash)).
  unfold afterBlobs, forEach. unfold blobsOf at 1. rewrite omap_middle. simpl.
  rewrite (forEachFrom_get_nth blob_hash
             (λ b' index _, blobPosition K (computeDepthMap (l1 ++ Blob b :: l2))
                              (Z.of_nat (length (treesOf (l1 ++ Blob b :: l2)))) b' index)).
  - done.
  - by apply (same_kind_later asBlob blob_hash l1 l2 _ asBlob_hash).
Qed.

Lemma tag_position K l1 g l2 :
  tag_hash g ∉ map hash (l1 ++ l2) →
  JsMap.get (tag_hash g) (defaultPositions K (l1 ++ Tag g :: l2))
  = Some (tagPosition K (objectMap (l1 ++ Tag g :: l2)) g
            (Z.of_nat (length (tagsOf l1)))
            (beforeTag K (l1 ++ Tag g :: l2) (tagsOf l1))).
Proof.
  intros Hn. rewrite defaultPositions_passes. unfold beforeTag, forEach.
  unfold tagsOf at 1. rewrite omap_middle. simpl.
  rewrite (forEachFrom_get_nth tag_hash
             (λ g' index pm, tagPosition K (objectMap (l1 ++ Tag g :: l2)) g' index pm)).
  - done.
  - by apply (same_kind_later asTag tag_hash l1 l2 _ asTag_hash).
Qed.

(** The place of an object among those of its kind. *)
Lemma kind_index {A} (pick : GitObject → option A) l1 o l2 a :
  pick o = Some a → omap pick (l1 ++ o :: l2) !! length (omap pick l1) = Some a.
Proof. intros Hp. rewrite omap_middle, Hp. apply list_lookup_middle. done. Qed.

(** A tag whose target resolves to no object, or to an object that has no
    position yet when the tag's turn comes, is put in the default column. *)
Lemma tagPosition_fallback K objects g index pm :
  (objectMap objects !! tag_objectHash g = None
   ∨ JsMap.get (tag_objectHash g) pm = None) →
  tagPosition K (objectMap objects) g index pm = tagFallback K g index.
Proof.
  intros Hcase. unfold tagPosition, tagFallback.
  destruct (objectMap objects !! tag_objectHash g) as [o|] eqn:Hlook; [|done].
  destruct Hcase as [?|Hnone]; [done|].
  apply objectMap_lookup_Some in Hlook as [_ ->]. by rewrite Hnone.
Qed.

(** ** Depth assignment: consequences of the shortest-path characterisation *)

Lemma computeDepthMap_complete objects h n :
  pathFromSeed objects n h →
  ∃ m, computeDepthMap objects !! h = Some (Z.of_nat m) ∧ (m ≤ n)%nat
       ∧ shortestPath objects h m.
Proof.
  intros Hp.
  destruct (bfsLoop_terminates objects) as (st & _ & Hnil & Hinv & Hdm).
  destruct (inv_front _ _ Hinv _ _ Hp) as [(d & Hd & Hle)|(h2 & d2 & k & Hin & _)].
  - rewrite <- Hdm in Hd.
    pose proof Hd as Hd'. apply computeDepthMap_shortest in Hd' as (m & -> & Hs).
    exists m. split; [done|]. split; [lia|done].
  - rewrite Hnil in Hin. by apply elem_of_nil in Hin.
Qed.

Lemma walk_inv_last om n a c :
  walk om (S n) a c → ∃ b, walk om n a b ∧ treeEdge om b c.
Proof.
  revert a. induction n as [|n IH]; intros a Hw.
  - inversion Hw as [|? ? b ? He Hw']; subst. inversion Hw'; subst.
    exists a. split; [constructor|done].
  - inversion Hw as [|? ? b ? He Hw']; subst.
    destruct (IH _ Hw') as (b' & Hw'' & He'). exists b'. split; [|done].
    by eapply walk_S.
Qed.

Lemma seed_depth_zero objects h :
  isSeed objects h → computeDepthMap objects !! h = Some 0.
Proof.
  intros Hs. apply computeDepthMap_shortest. exists O. split; [done|].
  split; [|lia]. exists h. split; [done|constructor].
Qed.

Lemma depth_via_parents objects h d :
  computeDepthMap objects !! h = Some d → ¬ isSeed objects h →
  (∃ p dp, treeEdge (objectMap objects) p h ∧ computeDepthMap objects !! p = Some dp
           ∧ d = dp + 1)
  ∧ (∀ p dp, treeEdge (objectMap objects) p h → computeDepthMap objects !! p = Some dp →
       d ≤ dp + 1).
Proof.
  intros (n & -> & (s & Hs & Hw) & Hmin)%computeDepthMap_shortest Hns.
  assert (Hparent : ∀ p dp, treeEdge (objectMap objects) p h →
            computeDepthMap objects !! p = Some dp → Z.of_nat n ≤ dp + 1).
  { intros p dp He (m & -> & Hp & _)%computeDepthMap_shortest.
    assert (Hh : pathFromSeed objects (m + 1) h).
    { apply (pathFromSeed_extend _ _ _ _ _ Hp). eapply walk_S; [done|constructor]. }
    specialize (Hmin _ Hh). lia. }
  split; [|done].
  destruct n as [|n]; [inversion Hw; by subst|].
  apply walk_inv_last in Hw as (p & Hw & He).
  destruct (computeDepthMap_complete objects p n) as (m & Hm & Hle & _); [by exists s|].
  exists p, (Z.of_nat m). split; [done|]. split; [done|].
  specialize (Hparent _ _ He Hm). lia.
Qed.

Lemma layout_depth K l1 o l2 n :
  hash o ∉ map hash (l1 ++ l2) → type o = tree ∨ type o = blob →
  shortestPath (l1 ++ o :: l2) (hash o) n →
  ∃ p, JsMap.get (hash o) (defaultPositions K (l1 ++ o :: l2)) = Some p
       ∧ pos_depth p = Z.of_nat n
       ∧ pos_x p = COL_START_OBJECTS K + Z.of_nat n * DEPTH_INDENT K.
Proof.
  intros Hn Hty Hs.
  assert (Hd : computeDepthMap (l1 ++ o :: l2) !! hash o = Some (Z.of_nat n)).
  { apply computeDepthMap_shortest. eauto. }
  destruct o as [c|t|b|g]; simpl in *; try (destruct Hty; done).
  - eexists. split; [by apply tree_position|].
    unfold treePosition. simpl. by rewrite Hd.
  - eexists. split; [by apply blob_position|].
    unfold blobPosition. simpl. by rewrite Hd.
Qed.

(** C1. The depth assignment of the layout is a breadth-first traversal from
    the commits' trees: a hash has a depth exactly when some commit's tree
    reaches it through tree entries, and the depth is the length of the
    shortest such path.  Hence every (non-empty) tree reference of a commit
    has depth 0, and the depth of any other node is one more than the least
    depth among the trees that list it (a shared child takes the minimum over
    its parents plus one).  The layout entry of a reachable tree or blob
    carries that depth and the matching indentation, provided no other object
    of the collection shares its identifier (a later object with the same
    identifier would overwrite the entry). *)
Theorem C1_depth_is_shortest_path (K : LayoutConsts) (objects : list GitObject) :
  (∀ h d, computeDepthMap objects !! h = Some d ↔
          ∃ n, d = Z.of_nat n ∧ shortestPath objects h n)
  ∧ (∀ h, isSeed objects h → computeDepthMap objects !! h = Some 0)
  ∧ (∀ h d, computeDepthMap objects !! h = Some d → ¬ isSeed objects h →
       (∃ p dp, treeEdge (objectMap objects) p h
                ∧ computeDepthMap objects !! p = Some dp ∧ d = dp + 1)
       ∧ (∀ p dp, treeEdge (objectMap objects) p h →
            computeDepthMap objects !! p = Some dp → d ≤ dp + 1))
  ∧ (∀ l1 o l2 n, objects = l1 ++ o :: l2 → hash o ∉ map hash (l1 ++ l2) →
       type o = tree ∨ type o = blob →
       shortestPath objects (hash o) n →
       ∃ p, JsMap.get (hash o) (defaultPositions K objects) = Some p
            ∧ pos_depth p = Z.of_nat n
            ∧ pos_x p = COL_START_OBJECTS K + Z.of_nat n * DEPTH_INDENT K).
Proof.
  split; [|split; [|split]].
  - apply computeDepthMap_shortest.
  - apply seed_depth_zero.
  - apply depth_via_parents.
  - intros l1 o l2 n -> Hn Hty Hs. by apply layout_depth.
Qed.

Lemma C1_depth_is_shortest_path_witness :
  isSeed ex_diamond "t1"
  ∧ (hash (ex_blob "b1")
     ∉ map hash ([ex_commit "c1" "t1" None; ex_tree "t1" ["t2"; "b1"];
                  ex_tree "t2" ["b1"; "b2"]] ++ [ex_blob "b2"]))
  ∧ shortestPath ex_diamond "b1" 1
  ∧ computeDepthMap ex_diamond !! "t1" = Some 0
  ∧ ∃ p, JsMap.get "b1" (defaultPositions graphConsts ex_diamond) = Some p
         ∧ pos_depth p = 1 ∧ pos_x p = 420.
Proof.
  destruct (C1_depth_is_shortest_path graphConsts ex_diamond)
    as (Hiff & Hseed & _ & Hlayout).
  assert (Hs : isSeed ex_diamond "t1").
  { eexists. split; [by left|]. split; [reflexivity|discriminate]. }
  assert (Hun : hash (ex_blob "b1")
                ∉ map hash ([ex_commit "c1" "t1" None; ex_tree "t1" ["t2"; "b1"];
                             ex_tree "t2" ["b1"; "b2"]] ++ [ex_blob "b2"])).
  { apply (bool_decide_unpack _). vm_compute. exact I. }
  assert (Hb : shortestPath ex_diamond "b1" 1).
  { destruct (proj1 (Hiff "b1" 1)) as (n & Hn & Hsp); [vm_compute; reflexivity|].
    replace n with 1%nat in Hsp by lia. exact Hsp. }
  split; [exact Hs|]. split; [exact Hun|]. split; [exact Hb|].
  split; [exact (Hseed _ Hs)|].
  destruct (Hlayout [ex_commit "c1" "t1" None; ex_tree "t1" ["t2"; "b1"];
                     ex_tree "t2" ["b1"; "b2"]]
              (ex_blob "b1") [ex_blob "b2"] 1%nat eq_refl Hun) as (p & Hp & Hd & Hx);
    [by right|exact Hb|].
  exists p. split; [exact Hp|]. split; [exact Hd|]. rewrite Hx. reflexivity.
Defined.

(** ** Position overlay *)

Lemma nodePositions_fold_keys (valid : gset string) (ov m : JsMap.t NodePosition) :
  (∀ k, k ∈ valid → k ∈ JsMap.keys m) →
  JsMap.keys (foldl (λ merged '(hash, pos),
                       if decide (hash ∈ valid) then JsMap.set hash pos merged else merged)
                    m ov) = JsMap.keys m.
Proof.
  revert m. induction ov as [|[k0 v0] ov IH]; intros m Hvalid; simpl; [done|].
  destruct (decide (k0 ∈ valid)) as [Hin|Hnin]; [|by apply IH].
  rewrite IH.
  - apply JsMap_keys_set_in. auto.
  - intros k Hk. rewrite JsMap_keys_set_in by auto. auto.
Qed.

Lemma nodePositions_fold_get (valid : gset string) (ov m : JsMap.t NodePosition) k :
  wfMap ov →
  JsMap.get k (foldl (λ merged '(hash, pos),
                        if decide (hash ∈ valid) then JsMap.set hash pos merged else merged)
                     m ov)
  = if decide (k ∈ valid)
    then match JsMap.get k ov with Some o => Some o | None => JsMap.get k m end
    else JsMap.get k m.
Proof.
  unfold wfMap. revert m. induction ov as [|[k0 v0] ov IH]; intros m Hnd; simpl.
  - by destruct (decide (k ∈ valid)).
  - unfold JsMap.keys in Hnd. simpl in Hnd. apply NoDup_cons in Hnd as [Hk0 Hnd].
    rewrite IH by done. destruct (decide (k = k0)) as [->|Hne].
    + assert (Hnone : JsMap.get k0 ov = None) by (by apply JsMap_get_None).
      rewrite Hnone. destruct (decide (k0 ∈ valid)); [|done].
      by rewrite JsMap_get_set_eq.
    + destruct (decide (k0 ∈ valid)); [|done].
      by rewrite JsMap_get_set_ne.
Qed.

Lemma nodePositions_keys dp ov : JsMap.keys (nodePositions dp ov) = JsMap.keys dp.
Proof.
  unfold nodePositions. apply nodePositions_fold_keys.
  intros k. by rewrite elem_of_list_to_set.
Qed.

Lemma nodePositions_get dp ov k :
  wfMap ov →
  JsMap.get k (nodePositions dp ov)
  = match JsMap.get k dp with
    | Some base => Some (default base (JsMap.get k ov))
    | None => None
    end.
Proof.
  intros Hwf. unfold nodePositions. rewrite nodePositions_fold_get by done.
  destruct (decide (k ∈ (list_to_set (JsMap.keys dp) : gset string))) as [Hin|Hnin].
  - rewrite elem_of_list_to_set in Hin. apply JsMap_get_is_Some in Hin as [base Hb].
    rewrite Hb. by destruct (JsMap.get k ov).
  - rewrite elem_of_list_to_set in Hnin. apply JsMap_get_None in Hnin. by rewrite Hnin.
Qed.

Lemma nodePositions_keyed dp ov : wfMap ov → keyed dp → keyed ov → keyed (nodePositions dp ov).
Proof.
  intros Hwf Hdp Hov k p. rewrite nodePositions_get by done.
  destruct (JsMap.get k dp) as [base|] eqn:Hb; [|done].
  destruct (JsMap.get k ov) as [o|] eqn:Ho; simpl; intros [= <-]; eauto.
Qed.

(** C2 (as amended). The merged map has exactly the keys of the layout, in
    the layout's order.  Under a key of the layout that has an override the
    merged entry is the override record as a whole: its x and y, and also the
    kind and depth stored in it.  A key of the layout without override keeps
    its base entry, and an override under a key that the layout lacks leaves
    no entry. *)
Theorem C2_merge_overrides (dp ov : JsMap.t NodePosition) :
  wfMap ov →
  JsMap.keys (nodePositions dp ov) = JsMap.keys dp
  ∧ (∀ k base o, JsMap.get k dp = Some base → JsMap.get k ov = Some o →
       JsMap.get k (nodePositions dp ov) = Some o)
  ∧ (∀ k base, JsMap.get k dp = Some base → JsMap.get k ov = None →
       JsMap.get k (nodePositions dp ov) = Some base)
  ∧ (∀ k, JsMap.get k dp = None → JsMap.get k (nodePositions dp ov) = None).
Proof.
  intros Hwf. split; [apply nodePositions_keys|].
  split; [|split]; intros k.
  - intros base o Hb Ho. by rewrite nodePositions_get, Hb, Ho.
  - intros base Hb Ho. by rewrite nodePositions_get, Hb, Ho.
  - intros Hb. by rewrite nodePositions_get, Hb.
Qed.

Lemma C2_merge_overrides_witness :
  wfMap (dragOverrides ex_after_drag)
  ∧ JsMap.keys (nodePositions (defaultPositions graphConsts ex_nested)
                  (dragOverrides ex_after_drag))
    = ["c1"; "t1"; "t2"].
Proof.
  assert (Hwf : wfMap (dragOverrides ex_after_drag)).
  { apply (bool_decide_unpack _). vm_compute. exact I. }
  split; [exact Hwf|].
  destruct (C2_merge_overrides (defaultPositions graphConsts ex_nested)
              (dragOverrides ex_after_drag) Hwf) as (Hkeys & _).
  rewrite Hkeys. vm_compute. reflexivity.
Defined.

(** C2 as stated fails: "t2" is dragged while it has depth 1; once the
    commits are filtered out its base depth is 0, yet the merged entry still
    carries the depth 1 of the override. *)
Lemma C2_counterexample :
  ∃ base o merged,
    JsMap.get "t2" (defaultPositions graphConsts ex_nested_no_commits) = Some base
    ∧ JsMap.get "t2" (dragOverrides ex_after_drag) = Some o
    ∧ JsMap.get "t2" (nodePositions (defaultPositions graphConsts ex_nested_no_commits)
                        (dragOverrides ex_after_drag)) = Some merged
    ∧ pos_depth base = 0 ∧ pos_depth merged = 1
    ∧ pos_depth merged ≠ pos_depth base.
Proof.
  vm_compute. do 3 eexists. repeat split; try reflexivity. discriminate.
Qed.

(** The earlier revision applies every override, also one whose key the
    layout lacks. *)
Lemma earlier_merge_keeps_stale_override :
  JsMap.get "t2" (defaultPositions earlierConsts [ex_tree "t1" []]) = None
  ∧ is_Some (JsMap.get "t2" (Earlier.nodePositions
                               (defaultPositions earlierConsts [ex_tree "t1" []])
                               (dragOverrides ex_after_drag))).
Proof. vm_compute. split; [reflexivity|eauto]. Qed.

(** ** Reachability highlighter *)

Lemma addChild_spec st child :
  (∀ h, h ∈ rel_set st ↔ h ∈ rel_queue st) → NoDup (rel_queue st) →
  let st' := addChild st child in
  (∀ h, h ∈ rel_set st' ↔ h ∈ rel_queue st')
  ∧ NoDup (rel_queue st')
  ∧ rel_index st' = rel_index st
  ∧ (∀ h, h ∈ rel_set st' ↔ h ∈ rel_set st ∨ h = child)
  ∧ ∃ added, rel_queue st' = rel_queue st ++ added ∧ ∀ h, h ∈ added → h = child.
Proof.
  intros Hset Hnd. unfold addChild.
  destruct (decide (child ∈ rel_set st)) as [Hin|Hnin]; simpl.
  - split; [done|]. split; [done|]. split; [done|]. split.
    + intros h. split; [by left|]. intros [?| ->]; done.
    + exists []. rewrite app_nil_r. split; [done|]. by intros h ?%elem_of_nil.
  - split; [|split; [|split; [done|split]]].
    + intros h.
      rewrite elem_of_union, elem_of_singleton, elem_of_app, list_elem_of_singleton, Hset.
      tauto.
    + apply NoDup_app. split; [done|]. split; [|apply NoDup_singleton].
      intros x Hx ->%list_elem_of_singleton. apply Hnin. by apply Hset.
    + intros h. rewrite elem_of_union, elem_of_singleton. tauto.
    + exists [child]. split; [done|]. by intros h ->%list_elem_of_singleton.
Qed.

Lemma addChildren_spec children st :
  (∀ h, h ∈ rel_set st ↔ h ∈ rel_queue st) → NoDup (rel_queue st) →
  let st' := addChildren children st in
  (∀ h, h ∈ rel_set st' ↔ h ∈ rel_queue st')
  ∧ NoDup (rel_queue st')
  ∧ rel_index st' = rel_index st
  ∧ (∀ h, h ∈ rel_set st' ↔ h ∈ rel_set st ∨ h ∈ children)
  ∧ ∃ added, rel_queue st' = rel_queue st ++ added ∧ ∀ h, h ∈ added → h ∈ children.
Proof.
  unfold addChildren. revert st.
  induction children as [|c cs IH]; intros st Hset Hnd; simpl.
  - split; [done|]. split; [done|]. split; [done|]. split.
    + intros h. split; [by left|]. intros [?|?%elem_of_nil]; done.
    + exists []. rewrite app_nil_r. split; [done|]. by intros h ?%elem_of_nil.
  - destruct (addChild_spec st c Hset Hnd) as (Hset1 & Hnd1 & Hidx1 & Hmem1 & add1 & Hq1 & Hadd1).
    destruct (IH _ Hset1 Hnd1) as (Hset2 & Hnd2 & Hidx2 & Hmem2 & add2 & Hq2 & Hadd2).
    split; [done|]. split; [done|]. split; [congruence|]. split.
    + intros h. rewrite Hmem2, Hmem1, elem_of_cons. tauto.
    + exists (add1 ++ add2). rewrite Hq2, Hq1, <- app_assoc. split; [done|].
      intros h [H1|H2]%elem_of_app.
      * apply elem_of_cons. left. by apply Hadd1.
      * apply elem_of_cons. right. by apply Hadd2.
Qed.

Lemma relInv_init objects s : relInv objects s (relInit s).
Proof.
  split; simpl.
  - intros h. by rewrite elem_of_singleton, list_elem_of_singleton.
  - apply NoDup_singleton.
  - lia.
  - by apply elem_of_singleton.
  - intros h ->%elem_of_singleton. done.
  - intros i h h' Hi. lia.
  - intros h ->%list_elem_of_singleton. by left.
Qed.

Lemma childrenOf_bound objects obj h :
  obj ∈ objects → h ∈ childrenOf obj → h ∈ flat_map childrenOf objects.
Proof.
  intros Ho Hh. apply list_elem_of_In, in_flat_map. exists obj.
  split; by apply list_elem_of_In.
Qed.

Lemma relBody_inv objects s st cur :
  relInv objects s st → rel_queue st !! rel_index st = Some cur →
  relInv objects s (relBody (objectMap objects) cur st).
Proof.
  intros Hinv Hcur. unfold relBody.
  pose proof (lookup_lt_Some _ _ _ Hcur) as Hlt.
  assert (Hcurset : cur ∈ rel_set st).
  { apply (rinv_set _ _ _ Hinv). by eapply list_elem_of_lookup_2. }
  destruct (objectMap objects !! cur) as [obj|] eqn:Hlook.
  - set (st0 := {| rel_queue := rel_queue st; rel_set := rel_set st;
                   rel_index := S (rel_index st) |}).
    destruct (addChildren_spec (childrenOf obj) st0)
      as (Hset & Hnd & Hidx & Hmem & added & Hq & Hadd);
      [apply (rinv_set _ _ _ Hinv)|apply (rinv_nodup _ _ _ Hinv)|].
    simpl in *. split.
    + done.
    + done.
    + rewrite Hidx, Hq, length_app. lia.
    + apply Hmem. left. apply (rinv_sel _ _ _ Hinv).
    + intros h [Hold|Hnew]%Hmem; [by apply (rinv_reach _ _ _ Hinv)|].
      eapply rtc_r; [by apply (rinv_reach _ _ _ Hinv)|]. by exists obj.
    + rewrite Hidx, Hq. intros i h h' Hi Hlk Hedge.
      rewrite lookup_app_l in Hlk by lia. apply Hmem.
      destruct (decide (i = rel_index st)) as [->|Hne].
      * right. rewrite Hcur in Hlk. injection Hlk as <-.
        destruct Hedge as (obj' & Hobj' & Hin). congruence.
      * left. apply (rinv_closed _ _ _ Hinv i h h'); [lia|done|done].
    + rewrite Hq. intros h [Hold|Hnew]%elem_of_app; [by apply (rinv_bound _ _ _ Hinv)|].
      right. apply objectMap_lookup_Some in Hlook as [Ho _].
      eapply childrenOf_bound; eauto.
  - split; simpl;
      [apply (rinv_set _ _ _ Hinv)|apply (rinv_nodup _ _ _ Hinv)|lia
      |apply (rinv_sel _ _ _ Hinv)|apply (rinv_reach _ _ _ Hinv)|
      |apply (rinv_bound _ _ _ Hinv)].
    intros i h h' Hi Hlk Hedge.
      destruct (decide (i = rel_index st)) as [->|Hne].
      * rewrite Hcur in Hlk. injection Hlk as <-.
        destruct Hedge as (obj' & Hobj' & _). congruence.
      * apply (rinv_closed _ _ _ Hinv i h h'); [lia|done|done].
Qed.

Lemma relLoop_inv objects s fuel st st' :
  relInv objects s st → relLoop fuel (objectMap objects) st = Some st' →
  relInv objects s st' ∧ rel_queue st' !! rel_index st' = None.
Proof.
  revert st. induction fuel as [|fuel IH]; intros st Hinv; simpl.
  - destruct (rel_queue st !! rel_index st) eqn:Hlk; [done|]. by intros [= <-].
  - destruct (rel_queue st !! rel_index st) eqn:Hlk; [|by intros [= <-]].
    apply IH. by apply relBody_inv.
Qed.

Lemma relInv_queue_length objects s st :
  relInv objects s st → (length (rel_queue st) ≤ relFuel objects)%nat.
Proof.
  intros Hinv. unfold relFuel.
  change (S (length (flat_map childrenOf objects)))
    with (length (s :: flat_map childrenOf objects)).
  apply submseteq_length, NoDup_submseteq; [apply Hinv|].
  intros x. apply (rinv_bound _ _ _ Hinv).
Qed.

Lemma relLoop_enough_fuel objects s fuel st :
  relInv objects s st → (relFuel objects - rel_index st ≤ fuel)%nat →
  is_Some (relLoop fuel (objectMap objects) st).
Proof.
  revert st. induction fuel as [|fuel IH]; intros st Hinv Hfuel; simpl.
  - destruct (rel_queue st !! rel_index st) eqn:Hlk; [|eauto].
    apply lookup_lt_Some in Hlk. pose proof (relInv_queue_length _ _ _ Hinv). lia.
  - destruct (rel_queue st !! rel_index st) as [cur|] eqn:Hlk; [|eauto].
    apply IH; [by apply relBody_inv|].
    assert (rel_index (relBody (objectMap objects) cur st) = S (rel_index st)) as ->; [|lia].
    unfold relBody. destruct (objectMap objects !! cur) as [obj|]; [|done].
    set (st0 := {| rel_queue := rel_queue st; rel_set := rel_set st;
                   rel_index := S (rel_index st) |}).
    destruct (addChildren_spec (childrenOf obj) st0) as (_ & _ & Hidx & _);
      [apply (rinv_set _ _ _ Hinv)|apply (rinv_nodup _ _ _ Hinv)|done].
Qed.

Lemma relLoop_more_fuel fuel extra om st st' :
  relLoop fuel om st = Some st' → relLoop (fuel + extra) om st = Some st'.
Proof.
  revert st. induction fuel as [|fuel IH]; intros st; simpl.
  - destruct (rel_queue st !! rel_index st) eqn:Hlk; [done|].
    intros [= <-]. destruct extra; simpl; by rewrite Hlk.
  - destruct (rel_queue st !! rel_index st) eqn:Hlk; [|done]. apply IH.
Qed.

(** The loop of [relatedHashes] runs to its end on every collection. *)
Lemma relLoop_terminates objects s :
  ∃ st, relLoop (relFuel objects) (objectMap objects) (relInit s) = Some st
        ∧ relInv objects s st ∧ rel_queue st !! rel_index st = None.
Proof.
  destruct (relLoop_enough_fuel objects s (relFuel objects) (relInit s)) as [st Hst];
    [apply relInv_init|lia|].
  exists st. split; [done|]. eapply relLoop_inv; [apply relInv_init|done].
Qed.

Lemma relatedHashes_truthy objects s :
  s ≠ "" →
  ∃ st, relLoop (relFuel objects) (objectMap objects) (relInit s) = Some st
        ∧ relatedHashes objects (Some s) = rel_set st.
Proof.
  intros Hne. destruct (relLoop_terminates objects s) as (st & Hst & _).
  exists st. split; [done|]. unfold relatedHashes.
  assert (truthy s = true) as ->
    by (unfold truthy; destruct (String.eqb_spec s ""); done).
  by rewrite Hst.
Qed.

Lemma relatedHashes_reachable objects s h :
  s ≠ "" →
  h ∈ relatedHashes objects (Some s) ↔ rtc (contentEdge (objectMap objects)) s h.
Proof.
  intros Hne. destruct (relatedHashes_truthy objects s Hne) as (st & Hst & ->).
  destruct (relLoop_inv objects s _ _ _ (relInv_init objects s) Hst) as [Hinv Hend].
  split; [apply (rinv_reach _ _ _ Hinv)|].
  revert h. apply rtc_ind_r; [apply (rinv_sel _ _ _ Hinv)|].
  intros b c _ Hedge IH.
  apply (rinv_set _ _ _ Hinv), list_elem_of_lookup in IH as [i Hi].
  apply (rinv_closed _ _ _ Hinv i b c); [|done|done].
  apply lookup_ge_None in Hend. apply lookup_lt_Some in Hi. lia.
Qed.

Lemma relatedHashes_falsy objects : relatedHashes objects (Some "") = ∅.
Proof. reflexivity. Qed.

(** C3. With no selection ([undefined], or the empty string, which the
    component reads as "no selection") the reachable set is empty.  With a
    selected identifier [s] the set contains [s] and exactly the hashes reached from
    [s] along tag→target, commit→tree and tree→entry edges.  The
    commit→parent relation adds nothing: a parent of the selected commit is
    in the set only if those content edges reach it. *)
Theorem C3_reachable_set (objects : list GitObject) :
  relatedHashes objects None = ∅
  ∧ relatedHashes objects (Some "") = ∅
  ∧ ∀ s, s ≠ "" →
      s ∈ relatedHashes objects (Some s)
      ∧ (∀ h, h ∈ relatedHashes objects (Some s) ↔
              rtc (contentEdge (objectMap objects)) s h)
      ∧ (∀ p, parentEdge (objectMap objects) s p →
              ¬ rtc (contentEdge (objectMap objects)) s p →
              p ∉ relatedHashes objects (Some s)).
Proof.
  split; [done|]. split; [done|]. intros s Hne. split; [|split].
  - by apply relatedHashes_reachable.
  - intros h. by apply relatedHashes_reachable.
  - intros p _ Hnot Hin. apply Hnot. by apply relatedHashes_reachable in Hin.
Qed.

Example ex_repo_related :
  map (λ h, bool_decide (h ∈ relatedHashes ex_repo (Some "v1")))
      ["v1"; "c1"; "t1"; "t2"; "b1"; "b2"; "c0"; "t0"; "v2"]
  = [true; true; true; true; true; true; false; false; false].
Proof. vm_compute. reflexivity. Qed.

Lemma C3_reachable_set_witness :
  "v1" ≠ ""
  ∧ "v1" ∈ relatedHashes ex_repo (Some "v1")
  ∧ rtc (contentEdge (objectMap ex_repo)) "v1" "b2"
  ∧ parentEdge (objectMap ex_repo) "c1" "c0"
  ∧ "c0" ∉ relatedHashes ex_repo (Some "c1").
Proof.
  destruct (C3_reachable_set ex_repo) as (_ & _ & Hsel).
  assert (Hv1 : "v1" ≠ "") by discriminate.
  assert (Hc1 : "c1" ≠ "") by discriminate.
  destruct (Hsel "v1" Hv1) as (Hself & Hiff & _).
  destruct (Hsel "c1" Hc1) as (_ & Hiff1 & Hparent).
  split; [exact Hv1|]. split; [exact Hself|]. split.
  { apply Hiff. apply (bool_decide_unpack _). vm_compute. exact I. }
  assert (Hpe : parentEdge (objectMap ex_repo) "c1" "c0").
  { eexists _, _. split; [vm_compute; reflexivity|]. split; [reflexivity|]. by left. }
  split; [exact Hpe|].
  apply (Hparent "c0" Hpe). intros Hr. apply Hiff1 in Hr. revert Hr.
  apply (bool_decide_unpack _). vm_compute. exact I.
Defined.

(** ** Render pass: which connections are drawn, and how *)

Lemma commitConnections_spec objects pos sel related c e :
  Commit c ∈ objects → e ∈ commitConnections pos sel related c →
  drawnProperly pos sel related e ∧ edgeOf objects e.
Proof.
  intros Hc. unfold commitConnections. intros [He|He]%elem_of_app.
  - destruct (JsMap.get (commit_hash c) pos) as [f|] eqn:Hf;
      [|by apply elem_of_nil in He].
    destruct (JsMap.get (commit_tree c) pos) as [t|] eqn:Ht;
      [|by apply elem_of_nil in He].
    apply list_elem_of_singleton in He as ->. split.
    + by repeat split.
    + by exists c.
  - destruct (commit_parent c) as [ps|] eqn:Hps; [|by apply elem_of_nil in He].
    apply list_elem_of_In, in_flat_map in He as (pHash & Hin%list_elem_of_In & He%list_elem_of_In).
    destruct (JsMap.get (commit_hash c) pos) as [f|] eqn:Hf;
      [|by apply elem_of_nil in He].
    destruct (JsMap.get pHash pos) as [p|] eqn:Hp; [|by apply elem_of_nil in He].
    apply list_elem_of_singleton in He as ->. split.
    + by repeat split.
    + by exists c, ps.
Qed.

Lemma tagConnections_spec objects pos sel related g e :
  Tag g ∈ objects → e ∈ tagConnections pos related g →
  drawnProperly pos sel related e ∧ edgeOf objects e.
Proof.
  intros Hg. unfold tagConnections. intros He.
  destruct (JsMap.get (tag_hash g) pos) as [f|] eqn:Hf; [|by apply elem_of_nil in He].
  destruct (JsMap.get (tag_objectHash g) pos) as [t|] eqn:Ht;
    [|by apply elem_of_nil in He].
  apply list_elem_of_singleton in He as ->. split.
  - by repeat split.
  - by exists g.
Qed.

Lemma treeConnections_spec objects pos sel related t e :
  Tree t ∈ objects → e ∈ treeConnections pos related t →
  drawnProperly pos sel related e ∧ edgeOf objects e.
Proof.
  intros Ht. unfold treeConnections. intros He.
  destruct (JsMap.get (tree_hash t) pos) as [f|] eqn:Hf; [|by apply elem_of_nil in He].
  apply list_elem_of_In, in_flat_map in He as (entry & Hin%list_elem_of_In & He%list_elem_of_In).
  destruct (JsMap.get (entry_hash entry) pos) as [p|] eqn:Hp;
    [|by apply elem_of_nil in He].
  apply list_elem_of_singleton in He as ->. split.
  - by repeat split.
  - by exists t, entry.
Qed.

Lemma renderConnections_spec objects pos sel related e :
  e ∈ renderConnections objects pos sel related →
  drawnProperly pos sel related e ∧ edgeOf objects e.
Proof.
  unfold renderConnections. rewrite !elem_of_app.
  intros [He|[He|He]];
    apply list_elem_of_In, in_flat_map in He as (x & Hx%list_elem_of_In & He%list_elem_of_In).
  - apply elem_of_commitsOf in Hx. by eapply commitConnections_spec.
  - apply elem_of_tagsOf in Hx. by eapply tagConnections_spec.
  - apply elem_of_treesOf in Hx. by eapply treeConnections_spec.
Qed.

Lemma bothRelated_true related f t :
  bothRelated related f t = true ↔ pos_hash f ∈ related ∧ pos_hash t ∈ related.
Proof.
  unfold bothRelated. rewrite andb_true_iff, !bool_decide_eq_true. done.
Qed.

Lemma eitherSelected_true sel f p :
  eitherSelected sel f p = true ↔ sel = Some (pos_hash f) ∨ sel = Some (pos_hash p).
Proof.
  unfold eitherSelected. rewrite orb_true_iff, !bool_decide_eq_true.
  split; (intros [?|?]; [left|right]; done).
Qed.

(** C4 (as amended). Among the connections the render pass draws, a
    commit→tree, tree→entry or tag→target connection is emphasised exactly
    when both of its endpoints are in the reachable set, and a commit→parent
    connection is emphasised exactly when one of its two endpoints is the
    selected identifier itself.  (Position maps carry each key in the [hash]
    field of its entry, as the layout and the drags build them.) *)
Theorem C4_edge_emphasis (objects : list GitObject) (pos : JsMap.t NodePosition)
    (selectedHash : option string) (e : Connection) :
  keyed pos →
  e ∈ renderConnections objects pos selectedHash (relatedHashes objects selectedHash) →
  (conn_kind e ≠ CommitToParent →
     (conn_highlighted e = true ↔
      conn_from e ∈ relatedHashes objects selectedHash
      ∧ conn_to e ∈ relatedHashes objects selectedHash))
  ∧ (conn_kind e = CommitToParent →
     (conn_highlighted e = true ↔
      selectedHash = Some (conn_from e) ∨ selectedHash = Some (conn_to e))).
Proof.
  intros Hkeyed He.
  destruct (renderConnections_spec _ _ _ _ _ He) as ((Hf & Ht & Hh) & _).
  rewrite Hh. rewrite <- (Hkeyed _ _ Hf), <- (Hkeyed _ _ Ht) at 1.
  rewrite <- (Hkeyed _ _ Hf), <- (Hkeyed _ _ Ht). split.
  - intros Hk. destruct (conn_kind e); try done; apply bothRelated_true.
  - intros ->. apply eitherSelected_true.
Qed.

Example ex_repo_connections :
  map (λ e, (conn_kind e, conn_from e, conn_to e, conn_highlighted e))
      (renderConnections ex_repo (defaultPositions graphConsts ex_repo) (Some "c1")
         (relatedHashes ex_repo (Some "c1")))
  = [ (CommitToTree, "c1", "t1", true); (CommitToParent, "c1", "c0", true);
      (TagToTarget, "v1", "c1", false);
      (TreeToEntry, "t1", "t2", true); (TreeToEntry, "t1", "b1", true);
      (TreeToEntry, "t2", "b1", true); (TreeToEntry, "t2", "b2", true) ].
Proof. vm_compute. reflexivity. Qed.

Lemma C4_edge_emphasis_witness :
  keyed (defaultPositions graphConsts ex_repo)
  ∧ ∃ e, e ∈ renderConnections ex_repo (defaultPositions graphConsts ex_repo) (Some "c1")
               (relatedHashes ex_repo (Some "c1"))
         ∧ conn_kind e = TagToTarget
         ∧ (conn_highlighted e = true ↔
            conn_from e ∈ relatedHashes ex_repo (Some "c1")
            ∧ conn_to e ∈ relatedHashes ex_repo (Some "c1")).
Proof.
  pose proof (defaultPositions_keyed graphConsts ex_repo) as Hkeyed.
  split; [exact Hkeyed|].
  assert (Hex : ∃ e,
    renderConnections ex_repo (defaultPositions graphConsts ex_repo) (Some "c1")
      (relatedHashes ex_repo (Some "c1")) !! 2%nat = Some e
    ∧ conn_kind e = TagToTarget).
  { vm_compute. eexists. split; reflexivity. }
  destruct Hex as (e & He & Hkind). exists e.
  assert (Hin : e ∈ renderConnections ex_repo (defaultPositions graphConsts ex_repo)
                      (Some "c1") (relatedHashes ex_repo (Some "c1"))).
  { eapply list_elem_of_lookup_2. exact He. }
  split; [exact Hin|]. split; [exact Hkind|].
  destruct (C4_edge_emphasis ex_repo _ (Some "c1") e Hkeyed Hin) as [Hrel _].
  apply Hrel. rewrite Hkind. discriminate.
Defined.

(** C4 as stated fails on commit→parent connections: with the commit "c1"
    selected, the connection from "c1" to its parent "c0" is drawn
    emphasised although "c0" is not in the reachable set. *)
Lemma C4_counterexample :
  ∃ e, e ∈ renderConnections ex_repo (defaultPositions graphConsts ex_repo) (Some "c1")
             (relatedHashes ex_repo (Some "c1"))
       ∧ conn_kind e = CommitToParent
       ∧ conn_from e = "c1" ∧ conn_to e = "c0"
       ∧ conn_highlighted e = true
       ∧ ¬ (conn_from e ∈ relatedHashes ex_repo (Some "c1")
            ∧ conn_to e ∈ relatedHashes ex_repo (Some "c1")).
Proof.
  assert (Hex : ∃ e,
    renderConnections ex_repo (defaultPositions graphConsts ex_repo) (Some "c1")
      (relatedHashes ex_repo (Some "c1")) !! 1%nat = Some e
    ∧ conn_kind e = CommitToParent ∧ conn_from e = "c1" ∧ conn_to e = "c0"
    ∧ conn_highlighted e = true).
  { vm_compute. eexists. repeat split; reflexivity. }
  destruct Hex as (e & He & Hkind & Hfrom & Hto & Hhl). exists e.
  split; [by eapply list_elem_of_lookup_2|].
  repeat (split; [done|]). rewrite Hto. intros [_ Hc0]. revert Hc0.
  apply (bool_decide_unpack _). vm_compute. exact I.
Qed.

(** ** Interaction: the hit test *)

Lemma hitTest_Some K (m : JsMap.t NodePosition) x y h :
  wfMap m → hitTest K m x y = Some h →
  ∃ p, JsMap.get h m = Some p ∧ withinRadius K x y p = true.
Proof.
  unfold wfMap, JsMap.keys. induction m as [|[k v] m IH]; simpl; [done|].
  intros [Hk Hnd]%NoDup_cons.
  destruct (withinRadius K x y v) eqn:Hw.
  - intros [= ->]. exists v. by rewrite decide_True.
  - intros Hh. destruct (IH Hnd Hh) as (p & Hp & Hwp). exists p. split; [|done].
    rewrite decide_False; [done|]. intros ->. apply Hk.
    apply JsMap_get_is_Some. eauto.
Qed.

(** A node within the radius is found, unless an earlier one is. *)
Lemma hitTest_finds K (m : JsMap.t NodePosition) x y k p :
  wfMap m → JsMap.get k m = Some p → withinRadius K x y p = true →
  ∃ h, hitTest K m x y = Some h ∧ (h = k ∨ precedes (JsMap.keys m) h k).
Proof.
  unfold wfMap, JsMap.keys. induction m as [|[k' v] m IH]; simpl; [done|].
  intros [Hk Hnd]%NoDup_cons.
  destruct (decide (k = k')) as [->|Hne].
  - intros [= ->] ->. exists k'. split; [done|by left].
  - intros Hget Hw. destruct (withinRadius K x y v) eqn:Hwv.
    + exists k'. split; [done|]. right.
      assert (Hin : k ∈ m.*1) by (apply JsMap_get_is_Some; eauto).
      apply list_elem_of_split in Hin as (l2 & l3 & Heq).
      exists [], l2, l3. simpl. f_equal. exact Heq.
    + destruct (IH Hnd Hget Hw) as (h & Hh & Hcase). exists h. split; [done|].
      destruct Hcase as [->|(l1 & l2 & l3 & Heq)]; [by left|right].
      exists (k' :: l1), l2, l3. simpl. f_equal. exact Heq.
Qed.

Lemma withinRadius_follow K x y a b pos0 cur :
  pos_x cur = pos_x pos0 + a → pos_y cur = pos_y pos0 + b →
  withinRadius K (x + a) (y + b) cur = withinRadius K x y pos0.
Proof.
  intros Hx Hy. unfold withinRadius. rewrite Hx, Hy.
  replace (x + a - (pos_x pos0 + a)) with (x - pos_x pos0) by lia.
  replace (y + b - (pos_y pos0 + b)) with (y - pos_y pos0) by lia.
  done.
Qed.

Lemma truthy_ne s : s ≠ "" → truthy s = true.
Proof. intros Hne. unfold truthy. by destruct (String.eqb_spec s ""). Qed.

(** ** Interaction: states and runs *)

Lemma effectivePositions_keys E s :
  JsMap.keys (effectivePositions E s)
  = JsMap.keys (defaultPositions (env_consts E) (env_objects E)).
Proof. apply nodePositions_keys. Qed.

Lemma effectivePositions_wf E s : wfMap (effectivePositions E s).
Proof. unfold wfMap. rewrite effectivePositions_keys. apply defaultPositions_NoDup. Qed.

Lemma stateAfter_cons E s ev evs :
  stateAfter E s (ev :: evs) = stateAfter E (handle E s ev).1 evs.
Proof.
  unfold stateAfter. simpl. destruct (handle E s ev) as [s1 out]. simpl.
  by destruct (run E s1 evs).
Qed.

Lemma stateAfter_app E s evs1 evs2 :
  stateAfter E s (evs1 ++ evs2) = stateAfter E (stateAfter E s evs1) evs2.
Proof.
  revert s. induction evs1 as [|ev evs1 IH]; intros s; simpl; [done|].
  by rewrite !stateAfter_cons, IH.
Qed.

(** Only a pointer-down clears the moved flag. *)
Lemma handle_keeps_moved E s ev :
  isMouseDown ev = false → hasMoved s = true → hasMoved (handle E s ev).1 = true.
Proof.
  intros Hev Hm. destruct ev as [e|e| |e]; simpl in *; try done.
  unfold handleMouseMove. rewrite Hm.
  destruct (truthyHash (draggedNodeHash s)); simpl;
    by destruct (beyondThreshold _ _).
Qed.

Lemma stateAfter_keeps_moved E s evs :
  Forall (λ ev, isMouseDown ev = false) evs → hasMoved s = true →
  hasMoved (stateAfter E s evs) = true.
Proof.
  revert s. induction evs as [|ev evs IH]; intros s Hall Hm; [done|].
  apply Forall_cons in Hall as [Hev Hall]. rewrite stateAfter_cons.
  apply IH; [done|]. by apply handle_keeps_moved.
Qed.

Lemma handleMouseMove_sets_moved E s m :
  exceedsThreshold s m → hasMoved (handleMouseMove E s m) = true.
Proof.
  unfold exceedsThreshold, handleMouseMove. intros ->.
  by destruct (truthyHash (draggedNodeHash s)).
Qed.

(** A move that exceeds the threshold silences the next click. *)
Lemma click_suppressed E s m after click :
  Forall (λ ev, isMouseDown ev = false) after → exceedsThreshold s m →
  handleClick E (stateAfter E s (MouseMove m :: after)) click = None.
Proof.
  intros Hall Hex. unfold handleClick.
  rewrite stateAfter_cons, stateAfter_keeps_moved; [done|done|].
  by apply handleMouseMove_sets_moved.
Qed.

(** ** Interaction: the overlay of a reachable state *)

Lemma handleMouseMove_overlay E s e :
  wfMap (dragOverrides s) → keyed (dragOverrides s) →
  wfMap (dragOverrides (handleMouseMove E s e))
  ∧ keyed (dragOverrides (handleMouseMove E s e)).
Proof.
  intros Hwf Hkeyed. unfold handleMouseMove.
  destruct (truthyHash (draggedNodeHash s)) as [dragged|]; simpl; [|done].
  destruct (JsMap.get dragged (effectivePositions E s)) as [cur|] eqn:Hcur; [|done].
  split; [by apply JsMap_keys_set_NoDup|].
  assert (Hhash : pos_hash cur = dragged).
  { apply (nodePositions_keyed _ _ Hwf (defaultPositions_keyed _ _) Hkeyed _ _ Hcur). }
  intros k p. destruct (decide (dragged = k)) as [<-|Hne].
  - rewrite JsMap_get_set_eq. by intros [= <-].
  - rewrite JsMap_get_set_ne by done. apply Hkeyed.
Qed.

(** In every reachable state the overlay holds each key once and every
    override carries its key in its [hash] field. *)
Lemma reachable_overlay s :
  reachable s → wfMap (dragOverrides s) ∧ keyed (dragOverrides s).
Proof.
  induction 1 as [|E s ev _ [Hwf Hkeyed]].
  - split; [apply NoDup_nil_2|]. intros k p. done.
  - destruct ev as [e|e| |e]; simpl; try done.
    + unfold handleMouseDown. by destruct (truthyHash _).
    + by apply handleMouseMove_overlay.
Qed.

(** So the positions a handler or the render pass sees are keyed. *)
Lemma reachable_effective_keyed E s :
  reachable s → keyed (effectivePositions E s).
Proof.
  intros [Hwf Hkeyed]%reachable_overlay.
  apply nodePositions_keyed; [done|apply defaultPositions_keyed|done].
Qed.

(** ** Interaction: dragging a node *)

Lemma effectivePositions_get E s k :
  wfMap (dragOverrides s) →
  JsMap.get k (effectivePositions E s)
  = match JsMap.get k (defaultPositions (env_consts E) (env_objects E)) with
    | Some base => Some (default base (JsMap.get k (dragOverrides s)))
    | None => None
    end.
Proof. apply nodePositions_get. Qed.

Lemma handleMouseDown_dragging E s0 p id pos0 :
  wfMap (dragOverrides s0) → id ≠ "" →
  hitTest (env_consts E) (effectivePositions E s0) (worldX E s0 p) (worldY E s0 p) = Some id →
  JsMap.get id (effectivePositions E s0) = Some pos0 →
  dragging E s0 p id pos0 (handleMouseDown E s0 p) p.
Proof.
  intros Hwf Hne Hhit Hpos. unfold handleMouseDown.
  fold (worldX E s0 p) (worldY E s0 p). rewrite Hhit. simpl.
  rewrite (truthy_ne _ Hne). split; simpl; try done.
  exists pos0. split; [done|]. lia.
Qed.

Lemma handleMouseMove_dragging E s0 p id pos0 s l m :
  id ≠ "" → dragging E s0 p id pos0 s l →
  beyondThreshold (clientX m - clientX l) (clientY m - clientY l) = false →
  dragging E s0 p id pos0 (handleMouseMove E s m) m.
Proof.
  intros Hne Hd Hth.
  destruct (drag_follow _ _ _ _ _ _ _ Hd) as (cur & Hcur & Hx & Hy).
  pose proof (drag_wf _ _ _ _ _ _ _ Hd) as Hwf.
  unfold handleMouseMove.
  rewrite (drag_node _ _ _ _ _ _ _ Hd), (drag_last _ _ _ _ _ _ _ Hd),
    (drag_still _ _ _ _ _ _ _ Hd). simpl.
  rewrite (truthy_ne _ Hne), Hth, Hcur.
  set (cur' := {| pos_x := pos_x cur + (clientX m - clientX l);
                  pos_y := pos_y cur + (clientY m - clientY l);
                  pos_hash := pos_hash cur; pos_label := pos_label cur;
                  pos_type := pos_type cur; pos_depth := pos_depth cur |}).
  assert (Hwf' : wfMap (JsMap.set id cur' (dragOverrides s)))
    by (by apply JsMap_keys_set_NoDup).
  assert (Hbase : is_Some (JsMap.get id (defaultPositions (env_consts E) (env_objects E)))).
  { rewrite effectivePositions_get in Hcur by done.
    destruct (JsMap.get id (defaultPositions (env_consts E) (env_objects E))); eauto. }
  split; simpl.
  - apply (drag_pan _ _ _ _ _ _ _ Hd).
  - done.
  - done.
  - done.
  - done.
  - intros k Hk. rewrite <- (drag_others _ _ _ _ _ _ _ Hd k Hk).
    rewrite !effectivePositions_get by done. simpl.
    by rewrite JsMap_get_set_ne.
  - exists cur'. split; [|simpl; lia].
    rewrite effectivePositions_get by done. simpl.
    destruct Hbase as [base ->]. by rewrite JsMap_get_set_eq.
Qed.

Lemma moves_dragging E s0 p id pos0 ms s l :
  id ≠ "" → dragging E s0 p id pos0 s l → withinThreshold l ms →
  dragging E s0 p id pos0 (stateAfter E s (map MouseMove ms)) (lastPosition l ms).
Proof.
  intros Hne. revert s l. induction ms as [|m ms IH]; intros s l Hd Hth; simpl.
  - done.
  - destruct Hth as [Hm Hth]. rewrite stateAfter_cons. simpl.
    replace (lastPosition l (m :: ms)) with (lastPosition m ms).
    + apply IH; [|done]. by eapply handleMouseMove_dragging.
    + unfold lastPosition. rewrite (last_cons m ms). by destruct (last ms).
Qed.

Lemma handleMouseUp_effective E s :
  effectivePositions E (handleMouseUp s) = effectivePositions E s.
Proof. done. Qed.

(** After pressing a node, moving within the threshold and releasing, the
    click at the last pointer position still has the pressed node under it,
    and selects the first node in iteration order that is under it. *)
Lemma click_after_drag E s0 p ms id :
  wfMap (dragOverrides s0) →
  (∀ o, o ∈ env_objects E → hash o ≠ "") →
  hitTest (env_consts E) (effectivePositions E s0) (worldX E s0 p) (worldY E s0 p) = Some id →
  withinThreshold p ms →
  let q := lastPosition p ms in
  let s := stateAfter E s0 (gesture p ms) in
  ∃ h pos_h pos_id,
    handleClick E s q = Some h
    ∧ JsMap.get h (effectivePositions E s) = Some pos_h
    ∧ withinRadius (env_consts E) (worldX E s q) (worldY E s q) pos_h = true
    ∧ JsMap.get id (effectivePositions E s) = Some pos_id
    ∧ withinRadius (env_consts E) (worldX E s q) (worldY E s q) pos_id = true
    ∧ (h = id ∨ precedes (JsMap.keys (effectivePositions E s)) h id).
Proof.
  intros Hwf Hnonempty Hhit Hth q s.
  assert (Hkeys : ∀ k, k ∈ JsMap.keys (defaultPositions (env_consts E) (env_objects E)) →
                       k ≠ "").
  { intros k (o & Ho & <-)%defaultPositions_keys. by apply Hnonempty. }
  destruct (hitTest_Some _ _ _ _ _ (effectivePositions_wf E s0) Hhit) as (pos0 & Hpos0 & Hw0).
  assert (Hne : id ≠ "").
  { apply Hkeys. rewrite <- (effectivePositions_keys E s0).
    apply JsMap_get_is_Some. eauto. }
  pose proof (handleMouseDown_dragging E s0 p id pos0 Hwf Hne Hhit Hpos0) as Hd.
  pose proof (moves_dragging E s0 p id pos0 ms _ _ Hne Hd Hth) as Hd'.
  fold q in Hd'.
  set (s1 := stateAfter E (handleMouseDown E s0 p) (map MouseMove ms)) in *.
  assert (Hs : s = handleMouseUp s1).
  { unfold s, gesture. rewrite stateAfter_cons, stateAfter_app. simpl.
    fold s1. by rewrite stateAfter_cons. }
  destruct (drag_follow _ _ _ _ _ _ _ Hd') as (cur & Hcur & Hx & Hy).
  assert (Hpan : panOffset s = panOffset s0).
  { rewrite Hs. simpl. apply (drag_pan _ _ _ _ _ _ _ Hd'). }
  assert (Heff : effectivePositions E s = effectivePositions E s1).
  { rewrite Hs. apply handleMouseUp_effective. }
  assert (Hwcur : withinRadius (env_consts E) (worldX E s q) (worldY E s q) cur = true).
  { rewrite <- Hw0.
    replace (worldX E s q) with (worldX E s0 p + (clientX q - clientX p))
      by (unfold worldX; rewrite Hpan; lia).
    replace (worldY E s q) with (worldY E s0 p + (clientY q - clientY p))
      by (unfold worldY; rewrite Hpan; lia).
    by apply withinRadius_follow. }
  rewrite <- Heff in Hcur.
  destruct (hitTest_finds _ _ _ _ _ _ (effectivePositions_wf E s) Hcur Hwcur)
    as (h & Hh & Hcase).
  destruct (hitTest_Some _ _ _ _ _ (effectivePositions_wf E s) Hh) as (ph & Hph & Hwh).
  exists h, ph, cur. split; [|done].
  unfold handleClick. fold (worldX E s q) (worldY E s q).
  assert (hasMoved s = false) as ->.
  { rewrite Hs. simpl. apply (drag_still _ _ _ _ _ _ _ Hd'). }
  rewrite Hh. simpl. rewrite truthy_ne; [done|].
  apply Hkeys. rewrite <- (effectivePositions_keys E s).
  apply JsMap_get_is_Some. eauto.
Qed.

(** C5 (as amended). In a sequence of pointer events that begins with a
    pointer-down, a move that exceeds the one-pixel threshold silences every
    later click (until the next pointer-down).  When the pointer-down hits a
    node, every move stays within the threshold and the pointer is released,
    the click at the last pointer position invokes the selection callback;
    the pressed node is still under the pointer, and the identifier handed
    to the callback is that of the first node in iteration order under the
    pointer: the pressed node itself, or a node that precedes it in the
    iteration order.  (Identifiers are non-empty; an empty one is never
    handed to the callback.) *)
Theorem C5_click_versus_drag (E : Env) (s0 : State) (p : MouseEvent) :
  (∀ before m after click,
     Forall (λ ev, isMouseDown ev = false) after →
     exceedsThreshold (stateAfter E s0 (MouseDown p :: before)) m →
     handleClick E (stateAfter E s0 (MouseDown p :: before ++ MouseMove m :: after)) click
     = None)
  ∧ (∀ ms id,
       wfMap (dragOverrides s0) →
       (∀ o, o ∈ env_objects E → hash o ≠ "") →
       hitTest (env_consts E) (effectivePositions E s0) (worldX E s0 p) (worldY E s0 p)
       = Some id →
       withinThreshold p ms →
       let q := lastPosition p ms in
       let s := stateAfter E s0 (gesture p ms) in
       ∃ h pos_h pos_id,
         handleClick E s q = Some h
         ∧ JsMap.get h (effectivePositions E s) = Some pos_h
         ∧ withinRadius (env_consts E) (worldX E s q) (worldY E s q) pos_h = true
         ∧ JsMap.get id (effectivePositions E s) = Some pos_id
         ∧ withinRadius (env_consts E) (worldX E s q) (worldY E s q) pos_id = true
         ∧ (h = id ∨ precedes (JsMap.keys (effectivePositions E s)) h id)).
Proof.
  split.
  - intros before m after click Hall Hex.
    change (MouseDown p :: before ++ MouseMove m :: after)
      with ((MouseDown p :: before) ++ MouseMove m :: after).
    rewrite stateAfter_app. by apply click_suppressed.
  - intros ms id. apply click_after_drag.
Qed.

Lemma C5_click_versus_drag_witness :
  exceedsThreshold (stateAfter (ex_env ex_nested) initialState [MouseDown (ex_at 470 150)])
                   (ex_at 480 160)
  ∧ handleClick (ex_env ex_nested)
      (stateAfter (ex_env ex_nested) initialState
         (MouseDown (ex_at 470 150) :: [] ++ MouseMove (ex_at 480 160) :: [MouseUp]))
      (ex_at 480 160) = None
  ∧ hitTest graphConsts (effectivePositions (ex_env ex_nested) initialState) 420 100
    = Some "t2"
  ∧ withinThreshold (ex_at 470 150) [ex_at 471 151]
  ∧ ∃ h, handleClick (ex_env ex_nested)
           (stateAfter (ex_env ex_nested) initialState
              (gesture (ex_at 470 150) [ex_at 471 151]))
           (ex_at 471 151) = Some h.
Proof.
  destruct (C5_click_versus_drag (ex_env ex_nested) initialState (ex_at 470 150))
    as [Hsuppress Hselect].
  assert (Hex : exceedsThreshold
                  (stateAfter (ex_env ex_nested) initialState [MouseDown (ex_at 470 150)])
                  (ex_at 480 160)) by (vm_compute; reflexivity).
  assert (Hhit : hitTest graphConsts (effectivePositions (ex_env ex_nested) initialState)
                   420 100 = Some "t2") by (vm_compute; reflexivity).
  assert (Hth : withinThreshold (ex_at 470 150) [ex_at 471 151])
    by (simpl; split; [vm_compute; reflexivity|exact I]).
  split; [exact Hex|]. split.
  { apply (Hsuppress [] (ex_at 480 160) [MouseUp] (ex_at 480 160)); [|exact Hex].
    repeat constructor. }
  split; [exact Hhit|]. split; [exact Hth|].
  destruct (Hselect [ex_at 471 151] "t2") as (h & _ & _ & Hclick & _).
  - apply NoDup_nil_2.
  - intros o Ho. apply (bool_decide_unpack _).
    revert o Ho. apply Forall_forall. apply (bool_decide_unpack _). vm_compute. exact I.
  - exact Hhit.
  - exact Hth.
  - exists h. exact Hclick.
Defined.

(** C5 as stated fails in its second half: "t1" overlaps "c1"; it is pressed
    one pixel outside the disc of "c1", moved by one pixel (within the
    threshold) and released.  The click selects "c1", which comes first in
    the iteration order, not the pressed node "t1". *)
Lemma C5_counterexample :
  hitTest graphConsts (effectivePositions (ex_env ex_nested) ex_overlapping)
    (worldX (ex_env ex_nested) ex_overlapping (ex_at 221 80))
    (worldY (ex_env ex_nested) ex_overlapping (ex_at 221 80)) = Some "t1"
  ∧ withinThreshold (ex_at 221 80) [ex_at 220 80]
  ∧ handleClick (ex_env ex_nested)
      (stateAfter (ex_env ex_nested) ex_overlapping (gesture (ex_at 221 80) [ex_at 220 80]))
      (ex_at 220 80) = Some "c1".
Proof.
  split; [vm_compute; reflexivity|]. split; [|vm_compute; reflexivity].
  simpl. split; [vm_compute; reflexivity|exact I].
Qed.

(** ** The memoised layout *)

Lemma memoAfter_coherent K history memo :
  memoAfter K history = Some memo →
  memo_value memo = defaultPositions K (memo_deps memo).
Proof.
  revert memo. induction history as [|objects history IH] using rev_ind; [done|].
  intros memo. unfold memoAfter. rewrite foldl_app. simpl.
  fold (memoAfter K history). unfold useMemoLayout.
  destruct (memoAfter K history) as [m|] eqn:Hm.
  - destruct (decide (memo_deps m = objects)); simpl.
    + intros [= <-]. by apply IH.
    + by intros [= <-].
  - by intros [= <-].
Qed.

Lemma layoutAfter_defaultPositions K history objects :
  layoutAfter K history objects = defaultPositions K objects.
Proof.
  unfold layoutAfter, useMemoLayout.
  destruct (memoAfter K history) as [m|] eqn:Hm; [|done].
  destruct (decide (memo_deps m = objects)) as [<-|]; [|done].
  simpl. by apply memoAfter_coherent in Hm.
Qed.

(** C6. The layout the component obtains for a collection does not depend on
    what was rendered before: after any two histories of renders the layout
    for the same collection is the same map (same identifiers in the same
    order, same x, y, kind and depth in every entry), namely the one
    [defaultPositions] computes from the collection alone. *)
Theorem C6_layout_deterministic (K : LayoutConsts) (objects : list GitObject)
    (history1 history2 : list (list GitObject)) :
  layoutAfter K history1 objects = layoutAfter K history2 objects
  ∧ layoutAfter K history1 objects = defaultPositions K objects
  ∧ ∀ id, JsMap.get id (layoutAfter K history1 objects)
          = JsMap.get id (layoutAfter K history2 objects).
Proof.
  rewrite !layoutAfter_defaultPositions. done.
Qed.

(** ** Dangling references *)

Lemma tag_fallback_position K l1 g l2 :
  tag_hash g ∉ map hash (l1 ++ l2) →
  (objectMap (l1 ++ Tag g :: l2) !! tag_objectHash g = None
   ∨ ((∀ o, o ∈ l1 → hash o ≠ tag_objectHash g)
      ∧ ∀ o, o ∈ l2 → hash o = tag_objectHash g → type o = tag)) →
  JsMap.get (tag_hash g) (defaultPositions K (l1 ++ Tag g :: l2))
  = Some (tagFallback K g (Z.of_nat (length (tagsOf l1)))).
Proof.
  intros Hn Hcase. rewrite tag_position by done.
  f_equal. apply tagPosition_fallback.
  destruct Hcase as [Hnone|[Hbefore Hafter]]; [by left|right].
  apply JsMap_get_None. rewrite beforeTag_keys.
  intros [(o & Ho & Hty & Hh)|Hxs].
  - apply elem_of_app in Ho as [Ho|Ho]; [by apply (Hbefore o)|].
    apply elem_of_cons in Ho as [->|Ho]; [done|]. by apply Hty, Hafter.
  - apply (kind_hash_in asTag tag_hash _ _ asTag_hash) in Hxs.
    apply list_elem_of_fmap in Hxs as (o & Heq & Ho). by apply (Hbefore o).
Qed.

Lemma drawn_endpoints_exist K objects ov sel related e :
  e ∈ renderConnections objects (nodePositions (defaultPositions K objects) ov) sel related →
  (∃ o, o ∈ objects ∧ hash o = conn_from e) ∧ (∃ o, o ∈ objects ∧ hash o = conn_to e).
Proof.
  intros He. destruct (renderConnections_spec _ _ _ _ _ He) as ((Hf & Ht & _) & _).
  split; apply (defaultPositions_keys K); rewrite <- (nodePositions_keys _ ov);
    apply JsMap_get_is_Some; eauto.
Qed.

(** C7. Whatever references dangle: every object of the collection has a
    layout entry; a hash that resolves to no object has none; a tag whose
    target resolves to no object, or only to tags that have not been
    positioned yet (itself or later ones), sits in the default column at its
    own row (no other object sharing the tag's identifier); and the render
    pass draws no connection to or from a hash without object.  The layout
    is a total function whose loop runs to its end. *)
Theorem C7_dangling_references (K : LayoutConsts) (objects : list GitObject) :
  (∀ o, o ∈ objects → is_Some (JsMap.get (hash o) (defaultPositions K objects)))
  ∧ (∀ h, (∀ o, o ∈ objects → hash o ≠ h) →
          JsMap.get h (defaultPositions K objects) = None)
  ∧ (∀ l1 g l2, objects = l1 ++ Tag g :: l2 → tag_hash g ∉ map hash (l1 ++ l2) →
       (objectMap objects !! tag_objectHash g = None
        ∨ ((∀ o, o ∈ l1 → hash o ≠ tag_objectHash g)
           ∧ ∀ o, o ∈ l2 → hash o = tag_objectHash g → type o = tag)) →
       JsMap.get (tag_hash g) (defaultPositions K objects)
       = Some (tagFallback K g (Z.of_nat (length (tagsOf l1)))))
  ∧ (∀ ov sel related e,
       e ∈ renderConnections objects (nodePositions (defaultPositions K objects) ov)
             sel related →
       (∃ o, o ∈ objects ∧ hash o = conn_from e)
       ∧ (∃ o, o ∈ objects ∧ hash o = conn_to e))
  ∧ is_Some (bfsLoop (bfsFuel objects) (objectMap objects) (bfsInit objects)).
Proof.
  split; [|split; [|split; [|split]]].
  - intros o. apply defaultPositions_get_is_Some.
  - apply defaultPositions_get_None.
  - intros l1 g l2 -> Hn Hcase. by apply tag_fallback_position.
  - intros ov sel related e. apply drawn_endpoints_exist.
  - destruct (bfsLoop_terminates objects) as (st & -> & _). eauto.
Qed.

Lemma C7_dangling_references_witness :
  (tag_hash {| tag_hash := "v2"; tag_objectHash := "gone" |}
   ∉ map hash ([ ex_commit "c1" "t1" (Some ["c0"]); ex_commit "c0" "t0" None;
                 ex_tree "t1" ["t2"; "b1"]; ex_tree "t2" ["b1"; "b2"];
                 ex_blob "b1"; ex_blob "b2"; ex_tag "v1" "c1" ] ++ []))
  ∧ objectMap ex_repo !! "gone" = None
  ∧ JsMap.get "gone" (defaultPositions graphConsts ex_repo) = None
  ∧ ∃ p, JsMap.get "v2" (defaultPositions graphConsts ex_repo) = Some p
         ∧ pos_x p = 300 ∧ pos_y p = 100.
Proof.
  destruct (C7_dangling_references graphConsts ex_repo) as (_ & Hnone & Htag & _).
  assert (Hun : tag_hash {| tag_hash := "v2"; tag_objectHash := "gone" |}
    ∉ map hash ([ ex_commit "c1" "t1" (Some ["c0"]); ex_commit "c0" "t0" None;
                  ex_tree "t1" ["t2"; "b1"]; ex_tree "t2" ["b1"; "b2"];
                  ex_blob "b1"; ex_blob "b2"; ex_tag "v1" "c1" ] ++ [])).
  { apply (bool_decide_unpack _). vm_compute. exact I. }
  assert (Hgone : objectMap ex_repo !! "gone" = None) by (vm_compute; reflexivity).
  split; [exact Hun|]. split; [exact Hgone|]. split.
  - apply Hnone. intros o Ho. apply (bool_decide_unpack _).
    revert o Ho. apply Forall_forall. apply (bool_decide_unpack _). vm_compute. exact I.
  - eexists. split.
    + apply (Htag [ ex_commit "c1" "t1" (Some ["c0"]); ex_commit "c0" "t0" None;
                    ex_tree "t1" ["t2"; "b1"]; ex_tree "t2" ["b1"; "b2"];
                    ex_blob "b1"; ex_blob "b2"; ex_tag "v1" "c1" ]
                  {| tag_hash := "v2"; tag_objectHash := "gone" |} [] eq_refl Hun).
      left. exact Hgone.
    + split; reflexivity.
Defined.

(** A tag that names itself, or a later tag, as its target has no
    positioned target when its turn comes. *)
Example ex_tag_before_target :
  map (λ '(h, p), (h, pos_x p, pos_y p))
      (defaultPositions graphConsts [ex_tag "a" "b"; ex_tag "b" "b"; ex_tag "c" "a"])
  = [("a", 300, 30); ("b", 300, 100); ("c", 220, 30)].
Proof. vm_compute. reflexivity. Qed.

(** ** Rows *)

(** C8 (as amended). An object whose identifier no other object of the
    collection shares, and which is the i-th of its kind in collection
    order, has its row at y = i * ROW_HEIGHT + NODE_TO_LABELS_GAP if it is a
    commit or a tree, and at
    y = treeCount * ROW_HEIGHT + i * ROW_HEIGHT + NODE_TO_LABELS_GAP if it
    is a blob; no property of the graph enters the row.  The gap is 30 in
    the component as it is now and 0 in its earlier revision.  With a
    positive row height every tree lies above
    treeCount * ROW_HEIGHT + NODE_TO_LABELS_GAP, where the rows of the blobs
    begin. *)
Theorem C8_rows (K : LayoutConsts) (objects : list GitObject) :
  (∀ l1 c l2, objects = l1 ++ Commit c :: l2 → commit_hash c ∉ map hash (l1 ++ l2) →
     commitsOf objects !! length (commitsOf l1) = Some c
     ∧ ∃ p, JsMap.get (commit_hash c) (defaultPositions K objects) = Some p
            ∧ pos_y p = Z.of_nat (length (commitsOf l1)) * ROW_HEIGHT K
                        + NODE_TO_LABELS_GAP K)
  ∧ (∀ l1 t l2, objects = l1 ++ Tree t :: l2 → tree_hash t ∉ map hash (l1 ++ l2) →
       treesOf objects !! length (treesOf l1) = Some t
       ∧ ∃ p, JsMap.get (tree_hash t) (defaultPositions K objects) = Some p
              ∧ pos_y p = Z.of_nat (length (treesOf l1)) * ROW_HEIGHT K
                          + NODE_TO_LABELS_GAP K
              ∧ (0 < ROW_HEIGHT K →
                 pos_y p < Z.of_nat (length (treesOf objects)) * ROW_HEIGHT K
                           + NODE_TO_LABELS_GAP K))
  ∧ (∀ l1 b l2, objects = l1 ++ Blob b :: l2 → blob_hash b ∉ map hash (l1 ++ l2) →
       blobsOf objects !! length (blobsOf l1) = Some b
       ∧ ∃ p, JsMap.get (blob_hash b) (defaultPositions K objects) = Some p
              ∧ pos_y p = Z.of_nat (length (treesOf objects)) * ROW_HEIGHT K
                          + Z.of_nat (length (blobsOf l1)) * ROW_HEIGHT K
                          + NODE_TO_LABELS_GAP K
              ∧ (0 < ROW_HEIGHT K →
                 Z.of_nat (length (treesOf objects)) * ROW_HEIGHT K
                 + NODE_TO_LABELS_GAP K ≤ pos_y p)).
Proof.
  split; [|split].
  - intros l1 c l2 -> Hn. split; [by apply (kind_index asCommit)|].
    eexists. split; [by apply commit_position|]. done.
  - intros l1 t l2 -> Hn. split; [by apply (kind_index asTree)|].
    eexists. split; [by apply tree_position|]. split; [done|].
    intros Hrow. simpl. unfold treesOf at 2. rewrite omap_middle. simpl.
    rewrite length_app. simpl. fold (treesOf l1). nia.
  - intros l1 b l2 -> Hn. split; [by apply (kind_index asBlob)|].
    eexists. split; [by apply blob_position|]. split; [done|].
    intros Hrow. simpl. nia.
Qed.

Lemma C8_rows_witness :
  (commit_hash {| commit_hash := "c0"; commit_tree := "t0";
                  commit_parent := None; commit_message := "msg" |}
   ∉ map hash ([ex_commit "c1" "t1" (Some ["c0"])]
               ++ [ ex_tree "t1" ["t2"; "b1"]; ex_tree "t2" ["b1"; "b2"];
                    ex_blob "b1"; ex_blob "b2"; ex_tag "v1" "c1"; ex_tag "v2" "gone" ]))
  ∧ ∃ p, JsMap.get "c0" (defaultPositions graphConsts ex_repo) = Some p
         ∧ pos_y p = 1 * 70 + 30.
Proof.
  destruct (C8_rows graphConsts ex_repo) as (Hcommit & _).
  assert (Hun :
    commit_hash {| commit_hash := "c0"; commit_tree := "t0";
                   commit_parent := None; commit_message := "msg" |}
    ∉ map hash ([ex_commit "c1" "t1" (Some ["c0"])]
                ++ [ ex_tree "t1" ["t2"; "b1"]; ex_tree "t2" ["b1"; "b2"];
                     ex_blob "b1"; ex_blob "b2"; ex_tag "v1" "c1"; ex_tag "v2" "gone" ])).
  { apply (bool_decide_unpack _). vm_compute. exact I. }
  split; [exact Hun|].
  exact (proj2 (Hcommit [ex_commit "c1" "t1" (Some ["c0"])] _
                  [ ex_tree "t1" ["t2"; "b1"]; ex_tree "t2" ["b1"; "b2"];
                    ex_blob "b1"; ex_blob "b2"; ex_tag "v1" "c1"; ex_tag "v2" "gone" ]
                  eq_refl Hun)).
Defined.

(** C8 as stated fails on the component as it is now: the first commit of a
    collection is at y = 30, not at y = 0 * ROW_HEIGHT. *)
Lemma C8_counterexample :
  ∃ c p, commitsOf ex_repo !! 0%nat = Some c
         ∧ JsMap.get (commit_hash c) (defaultPositions graphConsts ex_repo) = Some p
         ∧ pos_y p = 30
         ∧ pos_y p ≠ 0 * ROW_HEIGHT graphConsts.
Proof.
  vm_compute. do 2 eexists. repeat split; try reflexivity. discriminate.
Qed.

(** In the earlier revision, which has no top gap, rows are at exactly
    i * ROW_HEIGHT. *)
Lemma earlier_rows l1 c l2 :
  commit_hash c ∉ map hash (l1 ++ l2) →
  ∃ p, JsMap.get (commit_hash c) (defaultPositions earlierConsts (l1 ++ Commit c :: l2))
       = Some p
       ∧ pos_y p = Z.of_nat (length (commitsOf l1)) * ROW_HEIGHT earlierConsts.
Proof.
  intros Hn. eexists. split; [by apply commit_position|]. simpl. lia.
Qed.

(** ** Termination of both traversals *)

Lemma bfsBody_visited_mono om h d rest st x :
  x ∈ visited st → x ∈ visited (bfsBody om h d rest st).
Proof.
  unfold bfsBody. destruct (decide (h ∈ visited st)); simpl; [done|]. set_solver.
Qed.

Lemma bfsVisits_fresh fuel om st x :
  x ∈ bfsVisits fuel om st → x ∉ visited st.
Proof.
  revert st. induction fuel as [|fuel IH]; intros st; simpl;
    destruct (queue st) as [|[h d] rest]; try by intros ?%elem_of_nil.
  intros [Hx|Hx]%elem_of_app.
  - destruct (decide (h ∈ visited st)); [by apply elem_of_nil in Hx|].
    by apply list_elem_of_singleton in Hx as ->.
  - intros Hv. apply (IH _ Hx). by apply bfsBody_visited_mono.
Qed.

(** No hash is expanded twice. *)
Lemma bfsVisits_NoDup fuel om st : NoDup (bfsVisits fuel om st).
Proof.
  revert st. induction fuel as [|fuel IH]; intros st; simpl;
    destruct (queue st) as [|[h d] rest]; try constructor.
  destruct (decide (h ∈ visited st)) as [Hv|Hv]; simpl; [apply IH|].
  apply NoDup_cons. split; [|apply IH].
  intros Hin%bfsVisits_fresh. apply Hin. unfold bfsBody.
  rewrite decide_False by done. simpl. set_solver.
Qed.

Example ex_cycle_depths :
  map (λ h, computeDepthMap ex_cycle !! h) ["t1"; "t2"; "b1"] = [Some 0; Some 1; Some 1]
  ∧ bfsVisits (bfsFuel ex_cycle) (objectMap ex_cycle) (bfsInit ex_cycle) = ["t1"; "t2"; "b1"]
  ∧ map (λ h, bool_decide (h ∈ relatedHashes ex_cycle (Some "t2"))) ["t2"; "t1"; "b1"; "c1"]
    = [true; true; true; false].
Proof. vm_compute. done. Qed.

(** C9. Both traversals run to their end on every collection, cyclic or
    not: with the fuel computed from the collection the depth loop stops
    with an empty queue and the reachability loop stops with its index at
    the end of the queue, and spare fuel changes neither result.  The depth
    loop expands no hash twice and the reachability queue holds no hash
    twice. *)
Theorem C9_traversals_terminate (objects : list GitObject) :
  (∃ st, bfsLoop (bfsFuel objects) (objectMap objects) (bfsInit objects) = Some st
         ∧ queue st = []
         ∧ (∀ extra, bfsLoop (bfsFuel objects + extra) (objectMap objects)
                       (bfsInit objects) = Some st)
         ∧ ∀ fuel, NoDup (bfsVisits fuel (objectMap objects) (bfsInit objects)))
  ∧ (∀ s, ∃ st, relLoop (relFuel objects) (objectMap objects) (relInit s) = Some st
                ∧ rel_queue st !! rel_index st = None
                ∧ (∀ extra, relLoop (relFuel objects + extra) (objectMap objects)
                              (relInit s) = Some st)
                ∧ NoDup (rel_queue st)).
Proof.
  split.
  - destruct (bfsLoop_terminates objects) as (st & Hst & Hnil & _).
    exists st. split; [done|]. split; [done|]. split.
    + intros extra. by apply bfsLoop_more_fuel.
    + intros fuel. apply bfsVisits_NoDup.
  - intros s. destruct (relLoop_terminates objects s) as (st & Hst & Hinv & Hend).
    exists st. split; [done|]. split; [done|]. split.
    + intros extra. by apply relLoop_more_fuel.
    + apply (rinv_nodup _ _ _ Hinv).
Qed.

(** ** Frame of a pointer move *)

(** C10. A pointer-move processed while the node [id] is dragged leaves the
    camera offset and every overlay entry other than the one for [id] as they
    were; a pointer-move processed while panning (no node being dragged)
    leaves the overlay as it was and adds the pointer delta to the camera
    offset. *)
Theorem C10_move_frame (E : Env) (s : State) (e : MouseEvent) :
  (∀ id, truthyHash (draggedNodeHash s) = Some id →
     panOffset (handleMouseMove E s e) = panOffset s
     ∧ ∀ k, k ≠ id →
         JsMap.get k (dragOverrides (handleMouseMove E s e))
         = JsMap.get k (dragOverrides s))
  ∧ (truthyHash (draggedNodeHash s) = None → isPanning s = true →
     dragOverrides (handleMouseMove E s e) = dragOverrides s
     ∧ panOffset (handleMouseMove E s e)
       = {| pt_x := pt_x (panOffset s) + (clientX e - pt_x (lastMousePos s));
            pt_y := pt_y (panOffset s) + (clientY e - pt_y (lastMousePos s)) |}).
Proof.
  split.
  - intros id Hid. unfold handleMouseMove. rewrite Hid. simpl. split; [done|].
    intros k Hk. destruct (JsMap.get id (effectivePositions E s)); [|done].
    by apply JsMap_get_set_ne.
  - intros Hnone Hpan. unfold handleMouseMove. rewrite Hnone, Hpan. done.
Qed.

Lemma C10_move_frame_witness :
  truthyHash (draggedNodeHash ex_pressed_node) = Some "t2"
  ∧ panOffset (handleMouseMove (ex_env ex_nested) ex_pressed_node (ex_at 480 160))
    = panOffset ex_pressed_node
  ∧ truthyHash (draggedNodeHash ex_pressed_background) = None
  ∧ isPanning ex_pressed_background = true
  ∧ dragOverrides (handleMouseMove (ex_env ex_nested) ex_pressed_background (ex_at 20 30))
    = dragOverrides ex_pressed_background.
Proof.
  assert (Hd : truthyHash (draggedNodeHash ex_pressed_node) = Some "t2")
    by (vm_compute; reflexivity).
  assert (Hn : truthyHash (draggedNodeHash ex_pressed_background) = None)
    by (vm_compute; reflexivity).
  assert (Hp : isPanning ex_pressed_background = true) by (vm_compute; reflexivity).
  split; [exact Hd|]. split.
  - destruct (C10_move_frame (ex_env ex_nested) ex_pressed_node (ex_at 480 160))
      as [Hdrag _].
    exact (proj1 (Hdrag "t2" Hd)).
  - split; [exact Hn|]. split; [exact Hp|].
    destruct (C10_move_frame (ex_env ex_nested) ex_pressed_background (ex_at 20 30))
      as [_ Hpanning].
    exact (proj1 (Hpanning Hn Hp)).
Defined.

(** * Further properties of the code *)

(** ** Layout: entries and their order *)

(** X1. The layout has one entry per distinct hash of the collection and no
    other: its keys are the hashes of the objects, no key occurs twice, and
    every entry carries its key in its [hash] field. *)
Theorem X1_layout_entries (K : LayoutConsts) (objects : list GitObject) :
  (∀ k, k ∈ JsMap.keys (defaultPositions K objects) ↔ ∃ o, o ∈ objects ∧ hash o = k)
  ∧ NoDup (JsMap.keys (defaultPositions K objects))
  ∧ keyed (defaultPositions K objects)
  ∧ (length (JsMap.keys (defaultPositions K objects)) ≤ length objects)%nat.
Proof.
  split; [apply defaultPositions_keys|]. split; [apply defaultPositions_NoDup|].
  split; [apply defaultPositions_keyed|].
  rewrite <- (length_map hash objects).
  apply submseteq_length, NoDup_submseteq; [apply defaultPositions_NoDup|].
  intros k (o & Ho & <-)%defaultPositions_keys. apply list_elem_of_fmap. eauto.
Qed.

Lemma forEachFrom_keys_fresh {A} (key : A → string)
    (val : A → Z → JsMap.t NodePosition → NodePosition) xs index pm :
  NoDup (map key xs) → (∀ k, k ∈ map key xs → k ∉ JsMap.keys pm) →
  JsMap.keys (forEachFrom (λ a i m, JsMap.set (key a) (val a i m) m) xs index pm)
  = JsMap.keys pm ++ map key xs.
Proof.
  revert index pm. induction xs as [|x xs IH]; intros index pm Hnd Hfresh; simpl.
  - by rewrite app_nil_r.
  - apply NoDup_cons in Hnd as [Hx Hnd].
    assert (Hxpm : key x ∉ JsMap.keys pm) by (apply Hfresh; left).
    rewrite IH; [|done|].
    + rewrite JsMap_keys_set_notin by done. by rewrite <- app_assoc.
    + intros k Hk. rewrite JsMap_keys_set_notin by done.
      intros [Hin|Hin%list_elem_of_singleton]%elem_of_app.
      * apply (Hfresh k); [by right|done].
      * by subst k.
Qed.

Lemma NoDup_kind_hashes {A} (pick : GitObject → option A) (key : A → string) objects :
  (∀ o a, pick o = Some a → key a = hash o) →
  NoDup (map hash objects) → NoDup (map key (omap pick objects)).
Proof.
  intros Hkey. induction objects as [|x l IH]; simpl; [constructor|].
  intros [Hx Hnd]%NoDup_cons. destruct (pick x) as [a|] eqn:Hp; simpl; [|by apply IH].
  apply NoDup_cons. split; [|by apply IH].
  intros Hin%(kind_hash_in pick key l _ Hkey). apply Hx. by rewrite <- (Hkey _ _ Hp).
Qed.

(** With distinct hashes, a hash of one kind is not a hash of another. *)
Lemma kinds_apart {A B} (pickA : GitObject → option A) (keyA : A → string)
    (pickB : GitObject → option B) (keyB : B → string) objects k :
  (∀ o a, pickA o = Some a → keyA a = hash o) →
  (∀ o b, pickB o = Some b → keyB b = hash o) →
  (∀ o, pickA o = None ∨ pickB o = None) →
  NoDup (map hash objects) →
  k ∈ map keyA (omap pickA objects) → k ∉ map keyB (omap pickB objects).
Proof.
  intros HA HB Hex. induction objects as [|x l IH]; simpl; [by intros _ ?%elem_of_nil|].
  intros [Hx Hnd]%NoDup_cons.
  destruct (pickA x) as [a|] eqn:Ha; destruct (pickB x) as [b|] eqn:Hb; simpl.
  - destruct (Hex x); congruence.
  - intros [->|Hin]%elem_of_cons; [|by apply IH].
    intros Hin%(kind_hash_in pickB keyB l _ HB). apply Hx. by rewrite <- (HA _ _ Ha).
  - intros Hin [->|Hin']%elem_of_cons; [|by apply (IH Hnd Hin)].
    apply (kind_hash_in pickA keyA l _ HA) in Hin. apply Hx. by rewrite <- (HB _ _ Hb).
  - by apply IH.
Qed.

(** X2. In a collection with distinct hashes the layout lists the commits
    first, then the trees, then the blobs, then the tags, each kind in
    collection order; this is the order in which the hit test tries the
    nodes. *)
Theorem X2_layout_order (K : LayoutConsts) (objects : list GitObject) :
  NoDup (map hash objects) →
  JsMap.keys (defaultPositions K objects)
  = map commit_hash (commitsOf objects) ++ map tree_hash (treesOf objects)
    ++ map blob_hash (blobsOf objects) ++ map tag_hash (tagsOf objects).
Proof.
  intros Hnd.
  pose proof (NoDup_kind_hashes asCommit commit_hash objects asCommit_hash Hnd) as Hc.
  pose proof (NoDup_kind_hashes asTree tree_hash objects asTree_hash Hnd) as Ht.
  pose proof (NoDup_kind_hashes asBlob blob_hash objects asBlob_hash Hnd) as Hb.
  pose proof (NoDup_kind_hashes asTag tag_hash objects asTag_hash Hnd) as Hg.
  assert (Hcommits : JsMap.keys (afterCommits K objects) = map commit_hash (commitsOf objects)).
  { unfold afterCommits, forEach.
    rewrite (forEachFrom_keys_fresh commit_hash (λ c i _, commitPosition K c i)); [done|done|].
    intros k _. apply not_elem_of_nil. }
  assert (Htrees : JsMap.keys (afterTrees K objects)
                   = map commit_hash (commitsOf objects) ++ map tree_hash (treesOf objects)).
  { unfold afterTrees, forEach.
    rewrite (forEachFrom_keys_fresh tree_hash
               (λ t i _, treePosition K (computeDepthMap objects) t i)); [by rewrite Hcommits|done|].
    intros k Hk. rewrite Hcommits. intros Hin. revert Hk.
    apply (kinds_apart asCommit commit_hash asTree tree_hash objects k
             asCommit_hash asTree_hash); [by intros []; auto|done|done]. }
  assert (Hblobs : JsMap.keys (afterBlobs K objects)
                   = map commit_hash (commitsOf objects) ++ map tree_hash (treesOf objects)
                     ++ map blob_hash (blobsOf objects)).
  { unfold afterBlobs, forEach.
    rewrite (forEachFrom_keys_fresh blob_hash
               (λ b i _, blobPosition K (computeDepthMap objects)
                           (Z.of_nat (length (treesOf objects))) b i));
      [by rewrite Htrees, <- app_assoc|done|].
    intros k Hk. rewrite Htrees. intros [Hin|Hin]%elem_of_app; revert Hk.
    - apply (kinds_apart asCommit commit_hash asBlob blob_hash objects k
               asCommit_hash asBlob_hash); [by intros []; auto|done|done].
    - apply (kinds_apart asTree tree_hash asBlob blob_hash objects k
               asTree_hash asBlob_hash); [by intros []; auto|done|done]. }
  rewrite defaultPositions_passes. unfold beforeTag, forEach.
  rewrite (forEachFrom_keys_fresh tag_hash
             (λ g i pm, tagPosition K (objectMap objects) g i pm));
    [by rewrite Hblobs, <- !app_assoc|done|].
  intros k Hk. rewrite Hblobs. intros [Hin|[Hin|Hin]%elem_of_app]%elem_of_app; revert Hk.
  - apply (kinds_apart asCommit commit_hash asTag tag_hash objects k
             asCommit_hash asTag_hash); [by intros []; auto|done|done].
  - apply (kinds_apart asTree tree_hash asTag tag_hash objects k
             asTree_hash asTag_hash); [by intros []; auto|done|done].
  - apply (kinds_apart asBlob blob_hash asTag tag_hash objects k
             asBlob_hash asTag_hash); [by intros []; auto|done|done].
Qed.

Lemma X2_layout_order_witness :
  NoDup (map hash ex_repo)
  ∧ JsMap.keys (defaultPositions graphConsts ex_repo)
    = ["c1"; "c0"; "t1"; "t2"; "b1"; "b2"; "v1"; "v2"].
Proof.
  assert (Hnd : NoDup (map hash ex_repo)).
  { apply (bool_decide_unpack _). vm_compute. exact I. }
  split; [exact Hnd|].
  rewrite (X2_layout_order graphConsts ex_repo Hnd). reflexivity.
Defined.

(** ** Layout: what an entry holds *)

Lemma computeDepthMap_None objects h :
  (∀ n, ¬ pathFromSeed objects n h) → computeDepthMap objects !! h = None.
Proof.
  intros Hno. destruct (computeDepthMap objects !! h) as [d|] eqn:Hd; [|done].
  apply computeDepthMap_shortest in Hd as (n & _ & Hp & _). by destruct (Hno n).
Qed.

Lemma orphan_position K l1 l2 o :
  hash o ∉ map hash (l1 ++ l2) →
  computeDepthMap (l1 ++ o :: l2) !! hash o = None →
  ∃ p, JsMap.get (hash o) (defaultPositions K (l1 ++ o :: l2)) = Some p
       ∧ match o with
         | Tree _ => pos_depth p = 0 ∧ pos_x p = COL_START_OBJECTS K
         | Blob _ => pos_depth p = 1 ∧ pos_x p = COL_START_OBJECTS K + DEPTH_INDENT K
         | _ => True
         end.
Proof.
  intros Hn Hd. destruct o as [c|t|b|g]; simpl in *.
  - eexists. split; [by apply commit_position|done].
  - eexists. split; [by apply tree_position|].
    unfold treePosition. simpl. rewrite Hd. simpl. split; [done|lia].
  - eexists. split; [by apply blob_position|].
    unfold blobPosition. simpl. rewrite Hd. simpl. split; [done|lia].
  - eexists. split; [by apply tag_position|done].
Qed.

(** X3. A tree that no commit's tree reaches through tree entries is laid
    out as a root (depth 0, in the column of the root trees), and a blob
    that none reaches is laid out at depth 1, one indent to the right; this
    is stated for an object whose identifier no other object shares. *)
Theorem X3_orphan_defaults (K : LayoutConsts) (l1 l2 : list GitObject) (o : GitObject) :
  hash o ∉ map hash (l1 ++ l2) →
  (∀ n, ¬ pathFromSeed (l1 ++ o :: l2) n (hash o)) →
  ∃ p, JsMap.get (hash o) (defaultPositions K (l1 ++ o :: l2)) = Some p
       ∧ match o with
         | Tree _ => pos_depth p = 0 ∧ pos_x p = COL_START_OBJECTS K
         | Blob _ => pos_depth p = 1 ∧ pos_x p = COL_START_OBJECTS K + DEPTH_INDENT K
         | _ => True
         end.
Proof.
  intros Hn Hno. apply orphan_position; [done|]. by apply computeDepthMap_None.
Qed.

Lemma X3_orphan_defaults_witness :
  (hash (ex_tree "t9" []) ∉ map hash ([ex_commit "c1" "t1" None] ++ [ex_blob "b9"]))
  ∧ (∀ n, ¬ pathFromSeed ([ex_commit "c1" "t1" None] ++ ex_tree "t9" [] :: [ex_blob "b9"])
             n (hash (ex_tree "t9" [])))
  ∧ ∃ p, JsMap.get "t9" (defaultPositions graphConsts
                            [ex_commit "c1" "t1" None; ex_tree "t9" []; ex_blob "b9"])
         = Some p
         ∧ pos_depth p = 0 ∧ pos_x p = 300.
Proof.
  assert (Hun : hash (ex_tree "t9" [])
                ∉ map hash ([ex_commit "c1" "t1" None] ++ [ex_blob "b9"])).
  { apply (bool_decide_unpack _). vm_compute. exact I. }
  assert (Hno : ∀ n, ¬ pathFromSeed
                        ([ex_commit "c1" "t1" None] ++ ex_tree "t9" [] :: [ex_blob "b9"])
                        n (hash (ex_tree "t9" []))).
  { intros n Hp. apply computeDepthMap_complete in Hp as (m & Hm & _).
    vm_compute in Hm. discriminate Hm. }
  split; [exact Hun|]. split; [exact Hno|].
  destruct (X3_orphan_defaults graphConsts [ex_commit "c1" "t1" None] [ex_blob "b9"]
              (ex_tree "t9" []) Hun Hno) as (p & Hp & Hd & Hx).
  exists p. split; [exact Hp|]. split; [exact Hd|exact Hx].
Defined.

(** X4. The entry of an object whose identifier no other object shares has
    the kind of the object; a commit is in the commit column with depth -1
    and its message as label; a tree or blob is labelled with its first name
    or, without names, with the first six characters of its hash; a tag has
    depth 0 and the first six characters of its hash as label. *)
Theorem X4_entry_kind_and_label (K : LayoutConsts) (l1 l2 : list GitObject) (o : GitObject) :
  hash o ∉ map hash (l1 ++ l2) →
  ∃ p, JsMap.get (hash o) (defaultPositions K (l1 ++ o :: l2)) = Some p
       ∧ pos_type p = type o
       ∧ match o with
         | Commit c => pos_x p = COL_WIDTH_COMMIT K ∧ pos_depth p = -1
                       ∧ pos_label p = commit_message c
         | Tree t => pos_label p = nodeLabel (tree_names t) (tree_hash t)
         | Blob b => pos_label p = nodeLabel (blob_names b) (blob_hash b)
         | Tag g => pos_depth p = 0 ∧ pos_label p = String.substring 0 6 (tag_hash g)
         end.
Proof.
  intros Hn. destruct o as [c|t|b|g]; simpl in *.
  - eexists. split; [by apply commit_position|]. done.
  - eexists. split; [by apply tree_position|]. done.
  - eexists. split; [by apply blob_position|]. done.
  - eexists. split; [by apply tag_position|]. done.
Qed.

Lemma X4_entry_kind_and_label_witness :
  (hash (ex_blob "b1234567") ∉ map hash ([ex_commit "c1" "t1" None] ++ []))
  ∧ ∃ p, JsMap.get "b1234567" (defaultPositions graphConsts
                                  [ex_commit "c1" "t1" None; ex_blob "b1234567"])
         = Some p
         ∧ pos_type p = blob ∧ pos_label p = "b12345".
Proof.
  assert (Hun : hash (ex_blob "b1234567") ∉ map hash ([ex_commit "c1" "t1" None] ++ [])).
  { apply (bool_decide_unpack _). vm_compute. exact I. }
  split; [exact Hun|].
  destruct (X4_entry_kind_and_label graphConsts [ex_commit "c1" "t1" None] []
              (ex_blob "b1234567") Hun) as (p & Hp & Hty & Hl).
  exists p. split; [exact Hp|]. split; [exact Hty|exact Hl].
Defined.

(** X5. A tag whose target resolves to an object that is not itself a tag
    stands beside the layout entry of that object: 80 pixels to its left on
    the same row in the component as it is now (every tag of one target on
    the same spot), and in the earlier revision in the target's column,
    30 + 20 * index pixels below it.  (No other object shares the tag's
    identifier.) *)
Theorem X5_tag_beside_target (K : LayoutConsts) (l1 l2 : list GitObject) (g : TagObject) :
  tag_hash g ∉ map hash (l1 ++ l2) →
  is_Some (objectMap (l1 ++ Tag g :: l2) !! tag_objectHash g) →
  tag_objectHash g ∉ map tag_hash (tagsOf (l1 ++ Tag g :: l2)) →
  ∃ tp p,
    JsMap.get (tag_objectHash g) (defaultPositions K (l1 ++ Tag g :: l2)) = Some tp
    ∧ JsMap.get (tag_hash g) (defaultPositions K (l1 ++ Tag g :: l2)) = Some p
    ∧ (pos_x p, pos_y p)
      = tagBeside K (pos_x tp) (pos_y tp) (Z.of_nat (length (tagsOf l1))).
Proof.
  intros Hn [o Ho] Hnt.
  pose proof (objectMap_lookup_Some _ _ _ Ho) as [Hin Hh].
  destruct (defaultPositions_get_is_Some K _ o Hin) as [tp Htp].
  rewrite Hh in Htp. exists tp. eexists. split; [done|].
  split; [by apply tag_position|].
  assert (Hbefore : JsMap.get (tag_objectHash g)
                      (beforeTag K (l1 ++ Tag g :: l2) (tagsOf l1)) = Some tp).
  { rewrite <- Htp, get_through_tags by done. unfold beforeTag, forEach.
    apply (forEachFrom_get_other tag_hash
             (λ g' i pm, tagPosition K (objectMap (l1 ++ Tag g :: l2)) g' i pm)).
    intros Hin'. apply Hnt. unfold tagsOf. rewrite omap_middle, map_app.
    apply elem_of_app. by left. }
  unfold tagPosition. cbn [pos_x pos_y]. rewrite Ho, Hh, Hbefore.
  by destruct (tagBeside K _ _ _).
Qed.

Lemma X5_tag_beside_target_witness :
  (tag_hash {| tag_hash := "v1"; tag_objectHash := "c1" |}
   ∉ map hash ([ ex_commit "c1" "t1" (Some ["c0"]); ex_commit "c0" "t0" None;
                 ex_tree "t1" ["t2"; "b1"]; ex_tree "t2" ["b1"; "b2"];
                 ex_blob "b1"; ex_blob "b2" ] ++ [ex_tag "v2" "gone"]))
  ∧ is_Some (objectMap ex_repo !! "c1")
  ∧ ("c1" ∉ map tag_hash (tagsOf ex_repo))
  ∧ ∃ tp p, JsMap.get "c1" (defaultPositions graphConsts ex_repo) = Some tp
            ∧ JsMap.get "v1" (defaultPositions graphConsts ex_repo) = Some p
            ∧ (pos_x p, pos_y p) = (pos_x tp - 80, pos_y tp).
Proof.
  assert (Hun : tag_hash {| tag_hash := "v1"; tag_objectHash := "c1" |}
   ∉ map hash ([ ex_commit "c1" "t1" (Some ["c0"]); ex_commit "c0" "t0" None;
                 ex_tree "t1" ["t2"; "b1"]; ex_tree "t2" ["b1"; "b2"];
                 ex_blob "b1"; ex_blob "b2" ] ++ [ex_tag "v2" "gone"])).
  { apply (bool_decide_unpack _). vm_compute. exact I. }
  assert (Hres : is_Some (objectMap ex_repo !! "c1")) by (vm_compute; eauto).
  assert (Hnt : "c1" ∉ map tag_hash (tagsOf ex_repo)).
  { apply (bool_decide_unpack _). vm_compute. exact I. }
  split; [exact Hun|]. split; [exact Hres|]. split; [exact Hnt|].
  exact (X5_tag_beside_target graphConsts
           [ ex_commit "c1" "t1" (Some ["c0"]); ex_commit "c0" "t0" None;
             ex_tree "t1" ["t2"; "b1"]; ex_tree "t2" ["b1"; "b2"];
             ex_blob "b1"; ex_blob "b2" ] [ex_tag "v2" "gone"]
           {| tag_hash := "v1"; tag_objectHash := "c1" |} Hun Hres Hnt).
Defined.

(** ** Hit test *)

(** X6. The hit test returns the first entry, in iteration order, whose
    position is within the node radius of the point, and nothing when no
    entry is. *)
Theorem X6_hit_test_first_match (K : LayoutConsts) (entries : JsMap.t NodePosition)
    (mouseX mouseY : Z) :
  (∀ h, hitTest K entries mouseX mouseY = Some h ↔
        ∃ before pos after,
          entries = before ++ (h, pos) :: after
          ∧ withinRadius K mouseX mouseY pos = true
          ∧ Forall (λ e, withinRadius K mouseX mouseY e.2 = false) before)
  ∧ (hitTest K entries mouseX mouseY = None ↔
     Forall (λ e, withinRadius K mouseX mouseY e.2 = false) entries).
Proof.
  induction entries as [|[k v] m [IHsome IHnone]]; simpl.
  - split.
    + intros h. split; [done|]. intros (before & pos & after & Heq & _).
      by destruct before.
    + split; [constructor|done].
  - destruct (withinRadius K mouseX mouseY v) eqn:Hw; split.
    + intros h. split.
      * intros [= <-]. exists [], v, m. by repeat split.
      * intros (before & pos & after & Heq & Hpos & Hall).
        destruct before as [|[k' v'] before]; simpl in Heq; [by injection Heq as -> _ _|].
        injection Heq as -> -> _. apply Forall_cons in Hall as [Hv _]. simpl in Hv.
        congruence.
    + split; [done|]. intros [Hv _]%Forall_cons. simpl in Hv. congruence.
    + intros h. rewrite IHsome. split.
      * intros (before & pos & after & -> & Hpos & Hall).
        exists ((k, v) :: before), pos, after. split; [done|]. split; [done|].
        by constructor.
      * intros (before & pos & after & Heq & Hpos & Hall).
        destruct before as [|[k' v'] before]; simpl in Heq.
        { injection Heq as _ -> _. congruence. }
        injection Heq as -> -> ->. apply Forall_cons in Hall as [_ Hall].
        by exists before, pos, after.
    + rewrite IHnone. split; [by constructor|]. by intros [_ ?]%Forall_cons.
Qed.

(** ** The merge of the earlier revision *)

Lemma earlier_fold_get (ov m : JsMap.t NodePosition) k :
  wfMap ov →
  JsMap.get k (foldl (λ merged '(hash, pos), JsMap.set hash pos merged) m ov)
  = match JsMap.get k ov with Some o => Some o | None => JsMap.get k m end.
Proof.
  unfold wfMap. revert m. induction ov as [|[k0 v0] ov IH]; intros m Hnd; simpl; [done|].
  unfold JsMap.keys in Hnd. simpl in Hnd. apply NoDup_cons in Hnd as [Hk0 Hnd].
  rewrite IH by done. destruct (decide (k = k0)) as [->|Hne].
  - assert (JsMap.get k0 ov = None) as -> by (by apply JsMap_get_None).
    by rewrite JsMap_get_set_eq.
  - by rewrite JsMap_get_set_ne.
Qed.

(** X7. The merge of the earlier revision applies every override: under
    each override key the merged map holds the override, also when the
    layout has no such key (an override left from an object that is gone
    brings its node back), and every other key keeps its layout entry. *)
Theorem X7_earlier_merge (dp ov : JsMap.t NodePosition) :
  wfMap ov →
  (∀ k o, JsMap.get k ov = Some o → JsMap.get k (Earlier.nodePositions dp ov) = Some o)
  ∧ (∀ k, JsMap.get k ov = None →
          JsMap.get k (Earlier.nodePositions dp ov) = JsMap.get k dp)
  ∧ (∀ k, k ∈ JsMap.keys (Earlier.nodePositions dp ov) ↔
          k ∈ JsMap.keys dp ∨ k ∈ JsMap.keys ov).
Proof.
  intros Hwf. unfold Earlier.nodePositions. split; [|split].
  - intros k o Ho. by rewrite earlier_fold_get, Ho.
  - intros k Ho. by rewrite earlier_fold_get, Ho.
  - intros k. rewrite <- !JsMap_get_is_Some, earlier_fold_get by done.
    destruct (JsMap.get k ov) as [o|]; split; eauto.
    + intros [?|[? ?]]; [done|done].
Qed.

Lemma X7_earlier_merge_witness :
  wfMap (dragOverrides ex_after_drag)
  ∧ JsMap.get "t2" (defaultPositions earlierConsts [ex_tree "t1" []]) = None
  ∧ "t2" ∈ JsMap.keys (Earlier.nodePositions (defaultPositions earlierConsts [ex_tree "t1" []])
                         (dragOverrides ex_after_drag)).
Proof.
  assert (Hwf : wfMap (dragOverrides ex_after_drag)).
  { apply (bool_decide_unpack _). vm_compute. exact I. }
  split; [exact Hwf|]. split; [vm_compute; reflexivity|].
  destruct (X7_earlier_merge (defaultPositions earlierConsts [ex_tree "t1" []])
              (dragOverrides ex_after_drag) Hwf) as (_ & _ & Hkeys).
  apply Hkeys. right. apply (bool_decide_unpack _). vm_compute. exact I.
Defined.

(** ** Reachability highlighter: leaves and descendants *)

(** X8. Selecting a hash that has no object in the collection, or the hash
    of a blob, highlights that hash alone. *)
Theorem X8_related_of_leaf (objects : list GitObject) (s : string) :
  s ≠ "" →
  (objectMap objects !! s = None ∨ ∃ b, objectMap objects !! s = Some (Blob b)) →
  relatedHashes objects (Some s) = {[s]}.
Proof.
  intros Hne Hleaf. apply set_eq. intros h.
  rewrite relatedHashes_reachable by done. rewrite elem_of_singleton. split.
  - intros Hr. apply rtc_inv in Hr as [<-|(y & (obj & Hobj & Hin) & _)]; [done|].
    destruct Hleaf as [Hnone|[b Hb]]; [congruence|].
    rewrite Hb in Hobj. injection Hobj as <-. by apply elem_of_nil in Hin.
  - by intros ->.
Qed.

Lemma X8_related_of_leaf_witness :
  "gone" ≠ "" ∧ objectMap ex_repo !! "gone" = None
  ∧ relatedHashes ex_repo (Some "gone") = {["gone"]}.
Proof.
  assert (Hne : "gone" ≠ "") by discriminate.
  assert (Hnone : objectMap ex_repo !! "gone" = None) by (vm_compute; reflexivity).
  split; [exact Hne|]. split; [exact Hnone|].
  exact (X8_related_of_leaf ex_repo "gone" Hne (or_introl Hnone)).
Defined.

(** X9. What is highlighted for a node that is itself highlighted is part
    of the current highlight: if [h] is in the reachable set of [s], the
    reachable set of [h] is included in that of [s]. *)
Theorem X9_related_of_descendant (objects : list GitObject) (s h : string) :
  s ≠ "" → h ≠ "" →
  h ∈ relatedHashes objects (Some s) →
  relatedHashes objects (Some h) ⊆ relatedHashes objects (Some s).
Proof.
  intros Hs Hh Hin x Hx.
  apply relatedHashes_reachable in Hin; [|done].
  apply relatedHashes_reachable in Hx; [|done].
  apply relatedHashes_reachable; [done|]. by etrans.
Qed.

Lemma X9_related_of_descendant_witness :
  "c1" ≠ "" ∧ "t2" ≠ "" ∧ "t2" ∈ relatedHashes ex_repo (Some "c1")
  ∧ relatedHashes ex_repo (Some "t2") ⊆ relatedHashes ex_repo (Some "c1").
Proof.
  assert (Hs : "c1" ≠ "") by discriminate.
  assert (Hh : "t2" ≠ "") by discriminate.
  assert (Hin : "t2" ∈ relatedHashes ex_repo (Some "c1")).
  { apply (bool_decide_unpack _). vm_compute. exact I. }
  split; [exact Hs|]. split; [exact Hh|]. split; [exact Hin|].
  exact (X9_related_of_descendant ex_repo "c1" "t2" Hs Hh Hin).
Defined.

(** ** Render pass: exactly the edges with two positioned ends *)

Lemma edgeOf_objectEdge objects e :
  edgeOf objects e ↔ objectEdge objects (conn_kind e) (conn_from e) (conn_to e).
Proof. unfold edgeOf, objectEdge. by destruct (conn_kind e). Qed.

Lemma elem_of_flat_map {A B} (f : A → list B) (l : list A) (y : B) :
  y ∈ flat_map f l ↔ ∃ x, x ∈ l ∧ y ∈ f x.
Proof.
  rewrite list_elem_of_In, in_flat_map. split.
  - intros (x & Hx & Hy). exists x. by rewrite !list_elem_of_In.
  - intros (x & Hx & Hy). exists x. by rewrite <- !list_elem_of_In.
Qed.

Lemma renderConnections_complete objects pos sel related kind a b fa fb :
  objectEdge objects kind a b →
  JsMap.get a pos = Some fa → JsMap.get b pos = Some fb →
  ∃ e, e ∈ renderConnections objects pos sel related
       ∧ conn_kind e = kind ∧ conn_from e = a ∧ conn_to e = b
       ∧ conn_fromPos e = fa ∧ conn_toPos e = fb.
Proof.
  intros Hedge Ha Hb. unfold renderConnections.
  destruct kind; simpl in Hedge.
  - destruct Hedge as (c & Hc & -> & ->). eexists. split.
    + apply elem_of_app. left. apply elem_of_flat_map. exists c.
      split; [by apply elem_of_commitsOf|].
      unfold commitConnections. rewrite Ha, Hb. apply elem_of_app. left. by left.
    + done.
  - destruct Hedge as (c & ps & Hc & -> & Hps & Hin). eexists. split.
    + apply elem_of_app. left. apply elem_of_flat_map. exists c.
      split; [by apply elem_of_commitsOf|].
      unfold commitConnections. rewrite Hps. apply elem_of_app. right.
      apply elem_of_flat_map. exists b. split; [done|]. rewrite Ha, Hb. by left.
    + done.
  - destruct Hedge as (g & Hg & -> & ->). eexists. split.
    + apply elem_of_app. right. apply elem_of_app. left.
      apply elem_of_flat_map. exists g. split; [by apply elem_of_tagsOf|].
      unfold tagConnections. rewrite Ha, Hb. by left.
    + done.
  - destruct Hedge as (t & entry & Ht & -> & Hentry & ->). eexists. split.
    + apply elem_of_app. right. apply elem_of_app. right.
      apply elem_of_flat_map. exists t. split; [by apply elem_of_treesOf|].
      unfold treeConnections. rewrite Ha. apply elem_of_flat_map. exists entry.
      split; [done|]. rewrite Hb. by left.
    + done.
Qed.

(** X10. The render pass draws a connection of a kind from [a] to [b]
    exactly when the objects describe such an edge (a commit and its tree, a
    commit and one of its parents, a tag and its target, a tree and one of
    its entries) and both [a] and [b] have a position; an edge with an end
    that has no position is left out, and nothing else is drawn. *)
Theorem X10_connections_drawn (objects : list GitObject) (pos : JsMap.t NodePosition)
    (selectedHash : option string) (related : gset string)
    (kind : EdgeKind) (a b : string) :
  (∃ e, e ∈ renderConnections objects pos selectedHash related
        ∧ conn_kind e = kind ∧ conn_from e = a ∧ conn_to e = b)
  ↔ objectEdge objects kind a b
    ∧ is_Some (JsMap.get a pos) ∧ is_Some (JsMap.get b pos).
Proof.
  split.
  - intros (e & He & <- & <- & <-).
    destruct (renderConnections_spec _ _ _ _ _ He) as ((Hf & Ht & _) & Hedge).
    split; [by apply edgeOf_objectEdge|]. eauto.
  - intros (Hedge & [fa Ha] & [fb Hb]).
    destruct (renderConnections_complete objects pos selectedHash related
                kind a b fa fb Hedge Ha Hb) as (e & He & Hk & Hf & Ht & _).
    by exists e.
Qed.

(** ** Interaction: gestures as a whole *)

Lemma moveBy_zero pos : moveBy pos 0 0 = pos.
Proof. destruct pos. unfold moveBy. simpl. f_equal; lia. Qed.

Lemma moveBy_moveBy pos a b c d : moveBy (moveBy pos a b) c d = moveBy pos (a + c) (b + d).
Proof. unfold moveBy. simpl. f_equal; lia. Qed.

Lemma handleMouseDown_following E s0 p id pos0 :
  wfMap (dragOverrides s0) → id ≠ "" →
  hitTest (env_consts E) (effectivePositions E s0) (worldX E s0 p) (worldY E s0 p) = Some id →
  JsMap.get id (effectivePositions E s0) = Some pos0 →
  following E s0 p id pos0 (handleMouseDown E s0 p) p.
Proof.
  intros Hwf Hne Hhit Hpos. unfold handleMouseDown.
  fold (worldX E s0 p) (worldY E s0 p). rewrite Hhit. simpl.
  rewrite (truthy_ne _ Hne). split; simpl; try done.
  rewrite !Z.sub_diag, moveBy_zero. done.
Qed.

Lemma handleMouseMove_following E s0 p id pos0 s l m :
  id ≠ "" → following E s0 p id pos0 s l →
  following E s0 p id pos0 (handleMouseMove E s m) m.
Proof.
  intros Hne Hf.
  pose proof (follow_pos _ _ _ _ _ _ _ Hf) as Hcur.
  pose proof (follow_wf _ _ _ _ _ _ _ Hf) as Hwf.
  unfold handleMouseMove.
  rewrite (follow_node _ _ _ _ _ _ _ Hf), (follow_last _ _ _ _ _ _ _ Hf). simpl.
  rewrite (truthy_ne _ Hne), Hcur.
  set (cur := moveBy pos0 (clientX l - clientX p) (clientY l - clientY p)) in *.
  change {| pos_x := pos_x cur + (clientX m - clientX l);
            pos_y := pos_y cur + (clientY m - clientY l);
            pos_hash := pos_hash cur; pos_label := pos_label cur;
            pos_type := pos_type cur; pos_depth := pos_depth cur |}
    with (moveBy cur (clientX m - clientX l) (clientY m - clientY l)).
  set (cur' := moveBy cur (clientX m - clientX l) (clientY m - clientY l)).
  assert (Hwf' : wfMap (JsMap.set id cur' (dragOverrides s)))
    by (by apply JsMap_keys_set_NoDup).
  assert (Hbase : is_Some (JsMap.get id (defaultPositions (env_consts E) (env_objects E)))).
  { rewrite effectivePositions_get in Hcur by done.
    destruct (JsMap.get id (defaultPositions (env_consts E) (env_objects E))); eauto. }
  split; simpl.
  - apply (follow_pan _ _ _ _ _ _ _ Hf).
  - done.
  - done.
  - done.
  - intros k Hk. rewrite <- (follow_others _ _ _ _ _ _ _ Hf k Hk).
    rewrite !effectivePositions_get by done. simpl.
    by rewrite JsMap_get_set_ne.
  - rewrite effectivePositions_get by done. simpl.
    destruct Hbase as [base ->]. rewrite JsMap_get_set_eq. simpl. f_equal.
    unfold cur', cur. rewrite moveBy_moveBy. f_equal; lia.
Qed.

Lemma moves_following E s0 p id pos0 ms s l :
  id ≠ "" → following E s0 p id pos0 s l →
  following E s0 p id pos0 (stateAfter E s (map MouseMove ms)) (lastPosition l ms).
Proof.
  intros Hne. revert s l. induction ms as [|m ms IH]; intros s l Hf; simpl; [done|].
  rewrite stateAfter_cons. simpl.
  replace (lastPosition l (m :: ms)) with (lastPosition m ms).
  - apply IH. by eapply handleMouseMove_following.
  - unfold lastPosition. rewrite (last_cons m ms). by destruct (last ms).
Qed.

Lemma gesture_state E s0 p ms :
  stateAfter E s0 (gesture p ms)
  = handleMouseUp (stateAfter E (handleMouseDown E s0 p) (map MouseMove ms)).
Proof.
  unfold gesture. rewrite stateAfter_cons, stateAfter_app. simpl.
  by rewrite stateAfter_cons.
Qed.

(** X11. A pressed node follows the pointer: after a press that hits the
    node [id], any moves and the release, the node's effective position is
    its position at the press shifted by the displacement of the pointer
    (kind, depth and label as they were), every other node is where it was,
    the camera has not moved, and the controller is idle again with the
    drag kept in the overlay. *)
Theorem X11_drag_follows_pointer (E : Env) (s0 : State) (p : MouseEvent)
    (ms : list MouseEvent) (id : string) :
  wfMap (dragOverrides s0) → id ≠ "" →
  hitTest (env_consts E) (effectivePositions E s0) (worldX E s0 p) (worldY E s0 p)
  = Some id →
  ∃ pos0,
    JsMap.get id (effectivePositions E s0) = Some pos0
    ∧ JsMap.get id (effectivePositions E (stateAfter E s0 (gesture p ms)))
      = Some (moveBy pos0 (clientX (lastPosition p ms) - clientX p)
                          (clientY (lastPosition p ms) - clientY p))
    ∧ (∀ k, k ≠ id →
         JsMap.get k (effectivePositions E (stateAfter E s0 (gesture p ms)))
         = JsMap.get k (effectivePositions E s0))
    ∧ panOffset (stateAfter E s0 (gesture p ms)) = panOffset s0
    ∧ draggedNodeHash (stateAfter E s0 (gesture p ms)) = None
    ∧ isPanning (stateAfter E s0 (gesture p ms)) = false.
Proof.
  intros Hwf Hne Hhit.
  destruct (hitTest_Some _ _ _ _ _ (effectivePositions_wf E s0) Hhit) as (pos0 & Hpos0 & _).
  pose proof (handleMouseDown_following E s0 p id pos0 Hwf Hne Hhit Hpos0) as Hf.
  pose proof (moves_following E s0 p id pos0 ms _ _ Hne Hf) as Hf'.
  exists pos0. rewrite gesture_state. split; [done|].
  rewrite handleMouseUp_effective. split; [apply (follow_pos _ _ _ _ _ _ _ Hf')|].
  split; [apply (follow_others _ _ _ _ _ _ _ Hf')|].
  split; [apply (follow_pan _ _ _ _ _ _ _ Hf')|]. done.
Qed.

Lemma X11_drag_follows_pointer_witness :
  wfMap (dragOverrides initialState) ∧ "t2" ≠ ""
  ∧ hitTest graphConsts (effectivePositions (ex_env ex_nested) initialState)
      (worldX (ex_env ex_nested) initialState (ex_at 470 150))
      (worldY (ex_env ex_nested) initialState (ex_at 470 150)) = Some "t2"
  ∧ ∃ cur, JsMap.get "t2" (effectivePositions (ex_env ex_nested)
                              (stateAfter (ex_env ex_nested) initialState
                                 (gesture (ex_at 470 150) [ex_at 500 100; ex_at 480 160])))
           = Some cur
           ∧ pos_x cur = 430 ∧ pos_y cur = 110.
Proof.
  assert (Hwf : wfMap (dragOverrides initialState)) by apply NoDup_nil_2.
  assert (Hne : "t2" ≠ "") by discriminate.
  assert (Hhit : hitTest graphConsts (effectivePositions (ex_env ex_nested) initialState)
      (worldX (ex_env ex_nested) initialState (ex_at 470 150))
      (worldY (ex_env ex_nested) initialState (ex_at 470 150)) = Some "t2")
    by (vm_compute; reflexivity).
  split; [exact Hwf|]. split; [exact Hne|]. split; [exact Hhit|].
  destruct (X11_drag_follows_pointer (ex_env ex_nested) initialState (ex_at 470 150)
              [ex_at 500 100; ex_at 480 160] "t2" Hwf Hne Hhit)
    as (pos0 & Hpos0 & Hcur & _).
  eexists. split; [exact Hcur|].
  vm_compute in Hpos0. injection Hpos0 as <-. split; reflexivity.
Defined.

Lemma handleMouseDown_panning E s0 p :
  truthyHash (draggedNodeHash s0) = None →
  truthyHash (hitTest (env_consts E) (effectivePositions E s0)
                (worldX E s0 p) (worldY E s0 p)) = None →
  panning s0 p (handleMouseDown E s0 p) p.
Proof.
  intros Hidle Hmiss. unfold handleMouseDown.
  fold (worldX E s0 p) (worldY E s0 p). rewrite Hmiss. split; simpl; try done.
  destruct (panOffset s0). simpl. f_equal; lia.
Qed.

Lemma handleMouseMove_panning E s0 p s l m :
  panning s0 p s l → panning s0 p (handleMouseMove E s m) m.
Proof.
  intros Hp. unfold handleMouseMove.
  rewrite (pan_node _ _ _ _ Hp), (pan_flag _ _ _ _ Hp), (pan_last _ _ _ _ Hp),
    (pan_camera _ _ _ _ Hp). simpl.
  split; simpl; try done.
  - apply (pan_node _ _ _ _ Hp).
  - apply (pan_overlay _ _ _ _ Hp).
  - f_equal; lia.
Qed.

Lemma moves_panning E s0 p ms s l :
  panning s0 p s l →
  panning s0 p (stateAfter E s (map MouseMove ms)) (lastPosition l ms).
Proof.
  revert s l. induction ms as [|m ms IH]; intros s l Hp; simpl; [done|].
  rewrite stateAfter_cons. simpl.
  replace (lastPosition l (m :: ms)) with (lastPosition m ms).
  - apply IH. by apply (handleMouseMove_panning E s0 p s l m).
  - unfold lastPosition. rewrite (last_cons m ms). by destruct (last ms).
Qed.

(** X12. Pressing the background pans: after a press that hits no node
    (no node being dragged at that time), any moves and the release, the
    camera offset has grown by the displacement of the pointer, the overlay
    is untouched, and the controller is idle again. *)
Theorem X12_pan_follows_pointer (E : Env) (s0 : State) (p : MouseEvent)
    (ms : list MouseEvent) :
  truthyHash (draggedNodeHash s0) = None →
  truthyHash (hitTest (env_consts E) (effectivePositions E s0)
                (worldX E s0 p) (worldY E s0 p)) = None →
  panOffset (stateAfter E s0 (gesture p ms))
  = {| pt_x := pt_x (panOffset s0) + (clientX (lastPosition p ms) - clientX p);
       pt_y := pt_y (panOffset s0) + (clientY (lastPosition p ms) - clientY p) |}
  ∧ dragOverrides (stateAfter E s0 (gesture p ms)) = dragOverrides s0
  ∧ isPanning (stateAfter E s0 (gesture p ms)) = false
  ∧ draggedNodeHash (stateAfter E s0 (gesture p ms)) = None.
Proof.
  intros Hidle Hmiss.
  pose proof (moves_panning E s0 p ms _ _ (handleMouseDown_panning E s0 p Hidle Hmiss)) as Hp.
  rewrite gesture_state. simpl.
  split; [apply (pan_camera _ _ _ _ Hp)|]. split; [apply (pan_overlay _ _ _ _ Hp)|]. done.
Qed.

Lemma X12_pan_follows_pointer_witness :
  truthyHash (draggedNodeHash initialState) = None
  ∧ truthyHash (hitTest graphConsts (effectivePositions (ex_env ex_nested) initialState)
                  (worldX (ex_env ex_nested) initialState (ex_at 10 10))
                  (worldY (ex_env ex_nested) initialState (ex_at 10 10))) = None
  ∧ panOffset (stateAfter (ex_env ex_nested) initialState
                 (gesture (ex_at 10 10) [ex_at 40 5; ex_at 30 25]))
    = {| pt_x := 70; pt_y := 65 |}.
Proof.
  assert (Hidle : truthyHash (draggedNodeHash initialState) = None) by reflexivity.
  assert (Hmiss : truthyHash (hitTest graphConsts
                    (effectivePositions (ex_env ex_nested) initialState)
                    (worldX (ex_env ex_nested) initialState (ex_at 10 10))
                    (worldY (ex_env ex_nested) initialState (ex_at 10 10))) = None)
    by (vm_compute; reflexivity).
  split; [exact Hidle|]. split; [exact Hmiss|].
  rewrite (proj1 (X12_pan_follows_pointer (ex_env ex_nested) initialState (ex_at 10 10)
                    [ex_at 40 5; ex_at 30 25] Hidle Hmiss)).
  reflexivity.
Defined.

(** X13. A click that began on the background selects nothing: after a
    press that hits no node (no node being dragged at that time), any moves
    and the release, the click at the last pointer position does not invoke
    the selection callback.  (Either a move exceeded the threshold, or the
    camera has moved with the pointer and the pointer is over the same empty
    spot of the scene.) *)
Theorem X13_background_click (E : Env) (s0 : State) (p : MouseEvent)
    (ms : list MouseEvent) :
  truthyHash (draggedNodeHash s0) = None →
  truthyHash (hitTest (env_consts E) (effectivePositions E s0)
                (worldX E s0 p) (worldY E s0 p)) = None →
  handleClick E (stateAfter E s0 (gesture p ms)) (lastPosition p ms) = None.
Proof.
  intros Hidle Hmiss.
  pose proof (moves_panning E s0 p ms _ _ (handleMouseDown_panning E s0 p Hidle Hmiss)) as Hp.
  rewrite gesture_state. unfold handleClick.
  destruct (hasMoved (handleMouseUp _)); [done|].
  rewrite handleMouseUp_effective.
  assert (Heff : effectivePositions E (stateAfter E (handleMouseDown E s0 p) (map MouseMove ms))
                 = effectivePositions E s0).
  { unfold effectivePositions. by rewrite (pan_overlay _ _ _ _ Hp). }
  rewrite Heff. simpl. rewrite (pan_camera _ _ _ _ Hp). simpl.
  replace (clientX (lastPosition p ms) - rect_left E
           - (pt_x (panOffset s0) + (clientX (lastPosition p ms) - clientX p)))
    with (worldX E s0 p) by (unfold worldX; lia).
  replace (clientY (lastPosition p ms) - rect_top E
           - (pt_y (panOffset s0) + (clientY (lastPosition p ms) - clientY p)))
    with (worldY E s0 p) by (unfold worldY; lia).
  done.
Qed.

Lemma X13_background_click_witness :
  truthyHash (draggedNodeHash initialState) = None
  ∧ truthyHash (hitTest graphConsts (effectivePositions (ex_env ex_nested) initialState)
                  (worldX (ex_env ex_nested) initialState (ex_at 10 10))
                  (worldY (ex_env ex_nested) initialState (ex_at 10 10))) = None
  ∧ handleClick (ex_env ex_nested)
      (stateAfter (ex_env ex_nested) initialState (gesture (ex_at 10 10) [ex_at 11 10]))
      (lastPosition (ex_at 10 10) [ex_at 11 10]) = None.
Proof.
  assert (Hidle : truthyHash (draggedNodeHash initialState) = None) by reflexivity.
  assert (Hmiss : truthyHash (hitTest graphConsts
                    (effectivePositions (ex_env ex_nested) initialState)
                    (worldX (ex_env ex_nested) initialState (ex_at 10 10))
                    (worldY (ex_env ex_nested) initialState (ex_at 10 10))) = None)
    by (vm_compute; reflexivity).
  split; [exact Hidle|]. split; [exact Hmiss|].
  exact (X13_background_click (ex_env ex_nested) initialState (ex_at 10 10)
           [ex_at 11 10] Hidle Hmiss).
Defined.

(** ** Interaction: what holds in every reachable state *)

Lemma truthyHash_nonempty found h : truthyHash found = Some h → h ≠ "".
Proof.
  unfold truthyHash, truthy. destruct found as [h'|]; [|done].
  destruct (String.eqb_spec h' ""); simpl; [done|]. by intros [= <-].
Qed.

Lemma reachable_dragged_nonempty s h :
  reachable s → draggedNodeHash s = Some h → h ≠ "".
Proof.
  intros Hr. revert h. induction Hr as [|E s ev _ IH]; intros h; [done|].
  destruct ev as [e|e| |e]; simpl; try done.
  - unfold handleMouseDown.
    destruct (truthyHash _) as [h'|] eqn:Hh; simpl; [|apply IH].
    intros [= <-]. by eapply truthyHash_nonempty.
  - unfold handleMouseMove. destruct (truthyHash _); simpl; apply IH.
  - apply IH.
Qed.

Lemma reachable_stateAfter E s evs : reachable s → reachable (stateAfter E s evs).
Proof.
  revert s. induction evs as [|ev evs IH]; intros s Hr; [done|].
  rewrite stateAfter_cons. apply IH. by constructor.
Qed.

(** X14. In every state the handlers can produce from the initial one,
    whatever the props of each render: the overlay holds each key once,
    every override and every effective position carries its key in its
    [hash] field (so the highlight tests of the render pass, which read that
    field, test the node they draw), and the dragged hash, if any, is not
    the empty string. *)
Theorem X14_reachable_invariants (s : State) :
  reachable s →
  wfMap (dragOverrides s)
  ∧ keyed (dragOverrides s)
  ∧ (∀ E, keyed (effectivePositions E s))
  ∧ (∀ h, draggedNodeHash s = Some h → h ≠ "").
Proof.
  intros Hr. destruct (reachable_overlay s Hr) as [Hwf Hkeyed].
  split; [done|]. split; [done|]. split.
  - intros E. by apply reachable_effective_keyed.
  - intros h. by apply reachable_dragged_nonempty.
Qed.

Lemma X14_reachable_invariants_witness :
  reachable ex_after_drag ∧ keyed (dragOverrides ex_after_drag).
Proof.
  assert (Hr : reachable ex_after_drag).
  { apply (reachable_stateAfter (ex_env ex_nested) initialState). constructor. }
  split; [exact Hr|].
  exact (proj1 (proj2 (X14_reachable_invariants ex_after_drag Hr))).
Defined.

(** ** The shell: filter buttons, counts and selection *)

Lemma toggleType_elem prev ty t :
  t ∈ ObjectDatabase.toggleType prev ty ↔ (t = ty ∧ ty ∉ prev) ∨ (t ≠ ty ∧ t ∈ prev).
Proof.
  unfold ObjectDatabase.toggleType. case_bool_decide as Hin.
  - rewrite list_elem_of_filter. split.
    + intros [Hne Ht]. by right.
    + intros [[_ ?]|[? ?]]; done.
  - rewrite elem_of_app, list_elem_of_singleton. split.
    + intros [Ht| ->]; [right|by left]. split; [|done]. by intros ->.
    + intros [[-> _]|[_ ?]]; [by right|by left].
Qed.

(** X15. A filter button flips the visibility of its own type and of no
    other; the list of visible types never repeats a type; pressing the same
    button twice makes the same types visible as before. *)
Theorem X15_toggle_visibility (prev : list ObjType) (ty : ObjType) :
  (∀ t, t ∈ ObjectDatabase.toggleType prev ty ↔
        (t = ty ∧ ty ∉ prev) ∨ (t ≠ ty ∧ t ∈ prev))
  ∧ (NoDup prev → NoDup (ObjectDatabase.toggleType prev ty))
  ∧ (∀ t, t ∈ ObjectDatabase.toggleType (ObjectDatabase.toggleType prev ty) ty ↔ t ∈ prev).
Proof.
  split; [intros t; apply toggleType_elem|]. split.
  - intros Hnd. unfold ObjectDatabase.toggleType. case_bool_decide as Hin.
    + by apply NoDup_filter.
    + apply NoDup_app. split; [done|]. split; [|apply NoDup_singleton].
      by intros x Hx ->%list_elem_of_singleton.
  - intros t. rewrite !toggleType_elem. destruct (decide (t = ty)) as [->|Hne].
    + split.
      * intros [[_ Hn]|[? _]]; [|done].
        destruct (decide (ty ∈ prev)); [done|]. exfalso. apply Hn. by left.
      * intros Hin. left. split; [done|]. intros [[_ ?]|[? _]]; done.
    + split.
      * intros [[? _]|[_ [[? _]|[_ ?]]]]; done.
      * intros Hin. right. split; [done|]. by right.
Qed.

Lemma X15_toggle_visibility_witness :
  NoDup ObjectDatabase.initialVisibleTypes
  ∧ NoDup (ObjectDatabase.toggleType ObjectDatabase.initialVisibleTypes commit)
  ∧ ObjectDatabase.toggleType ObjectDatabase.initialVisibleTypes commit = [tree; blob; tag].
Proof.
  assert (Hnd : NoDup ObjectDatabase.initialVisibleTypes).
  { apply (bool_decide_unpack _). vm_compute. exact I. }
  split; [exact Hnd|]. split; [|reflexivity].
  exact (proj1 (proj2 (X15_toggle_visibility ObjectDatabase.initialVisibleTypes commit)) Hnd).
Defined.

Lemma filteredObjects_elem objects visible o :
  o ∈ ObjectDatabase.filteredObjects objects visible ↔ o ∈ objects ∧ type o ∈ visible.
Proof. unfold ObjectDatabase.filteredObjects. rewrite list_elem_of_filter. tauto. Qed.

(** X16. The graph lays out exactly the objects of the visible types: the
    layout of the filtered collection has an entry under a hash exactly when
    an object of a visible type has that hash.  The filtered collection
    keeps the order of the collection, and with the four types visible it
    is the collection itself. *)
Theorem X16_filtered_layout (K : LayoutConsts) (objects : list GitObject)
    (visibleTypes : list ObjType) :
  (∀ k, k ∈ JsMap.keys (defaultPositions K
                          (ObjectDatabase.filteredObjects objects visibleTypes))
        ↔ ∃ o, o ∈ objects ∧ type o ∈ visibleTypes ∧ hash o = k)
  ∧ ObjectDatabase.filteredObjects objects visibleTypes `sublist_of` objects
  ∧ ObjectDatabase.filteredObjects objects ObjectDatabase.initialVisibleTypes = objects.
Proof.
  split; [|split].
  - intros k. rewrite defaultPositions_keys. split.
    + intros (o & [Ho Hty]%filteredObjects_elem & Hk). eauto.
    + intros (o & Ho & Hty & Hk). exists o. by rewrite filteredObjects_elem.
  - apply sublist_filter.
  - unfold ObjectDatabase.filteredObjects. induction objects as [|o l IH]; [done|].
    rewrite filter_cons_True; [by rewrite IH|].
    unfold ObjectDatabase.initialVisibleTypes. destruct o; simpl; set_solver.
Qed.

Lemma objectCounts_fold (objects : list GitObject) (acc : gmap ObjType Z) (ty : ObjType) :
  default 0 (foldl (λ (acc : gmap ObjType Z) obj,
                      <[type obj := default 0 (acc !! type obj) + 1]> acc)
               acc objects !! ty)
  = default 0 (acc !! ty) + Z.of_nat (length (filter (λ o, type o = ty) objects)).
Proof.
  revert acc. induction objects as [|o l IH]; intros acc; simpl; [lia|].
  rewrite IH. destruct (decide (type o = ty)) as [<-|Hne].
  - rewrite filter_cons_True by done. rewrite lookup_insert_eq. simpl. lia.
  - rewrite filter_cons_False by done. by rewrite lookup_insert_ne.
Qed.

Lemma length_by_type (objects : list GitObject) :
  (length (filter (λ o, type o = commit) objects)
   + length (filter (λ o, type o = tree) objects)
   + length (filter (λ o, type o = blob) objects)
   + length (filter (λ o, type o = tag) objects))%nat = length objects.
Proof.
  induction objects as [|o l IH]; [done|].
  destruct o; simpl;
    repeat (first [rewrite filter_cons_True by done | rewrite filter_cons_False by done]);
    simpl; lia.
Qed.

(** X17. The badge of a filter button shows the number of objects of its
    type in the whole collection (0 for a type without objects), whether
    the type is visible or not, and the four badges add up to the size of
    the collection. *)
Theorem X17_object_counts (objects : list GitObject) :
  (∀ ty, ObjectDatabase.shownCount objects ty
         = Z.of_nat (length (filter (λ o, type o = ty) objects)))
  ∧ ObjectDatabase.shownCount objects commit + ObjectDatabase.shownCount objects tree
    + ObjectDatabase.shownCount objects blob + ObjectDatabase.shownCount objects tag
    = Z.of_nat (length objects).
Proof.
  assert (Hcount : ∀ ty, ObjectDatabase.shownCount objects ty
                         = Z.of_nat (length (filter (λ o, type o = ty) objects))).
  { intros ty. unfold ObjectDatabase.shownCount, ObjectDatabase.objectCounts.
    rewrite objectCounts_fold. by rewrite lookup_empty. }
  split; [done|]. rewrite !Hcount. pose proof (length_by_type objects). lia.
Qed.

Lemma find_hash_first (objects : list GitObject) (h : string) (o : GitObject) :
  List.find (λ o, String.eqb (hash o) h) objects = Some o ↔
  ∃ l1 l2, objects = l1 ++ o :: l2 ∧ hash o = h ∧ h ∉ map hash l1.
Proof.
  revert o. induction objects as [|x l IH]; intros o; simpl.
  - split; [done|]. intros (l1 & l2 & Heq & _). by destruct l1.
  - destruct (String.eqb_spec (hash x) h) as [Hx|Hx].
    + split.
      * intros [= <-]. exists [], l. split; [done|]. split; [done|]. apply not_elem_of_nil.
      * intros (l1 & l2 & Heq & Ho & Hn). destruct l1 as [|y l1]; simplify_eq/=; [done|].
        exfalso. apply Hn. apply elem_of_cons. by left.
    + rewrite IH. split.
      * intros (l1 & l2 & -> & Ho & Hn). exists (x :: l1), l2. split; [done|].
        split; [done|]. simpl. rewrite not_elem_of_cons. done.
      * intros (l1 & l2 & Heq & Ho & Hn). destruct l1 as [|y l1]; simplify_eq/=.
        exists l1, l2. split; [done|]. split; [done|].
        intros Hin. apply Hn. apply elem_of_cons. by right.
Qed.

Lemma find_hash_is_Some (objects : list GitObject) (h : string) :
  is_Some (List.find (λ o, String.eqb (hash o) h) objects) ↔ h ∈ map hash objects.
Proof.
  induction objects as [|x l IH]; simpl.
  - split; [by intros [? ?]|by intros ?%elem_of_nil].
  - rewrite elem_of_cons. destruct (String.eqb_spec (hash x) h) as [Hx|Hx].
    + split; [by left|eauto].
    + rewrite IH. split; [by right|]. by intros [?|?].
Qed.

Lemma handleClick_Some E s e h :
  handleClick E s e = Some h →
  hasMoved s = false ∧ h ≠ ""
  ∧ ∃ o, o ∈ env_objects E ∧ hash o = h.
Proof.
  unfold handleClick. destruct (hasMoved s); [done|]. intros Hh. split; [done|].
  destruct (hitTest _ _ _ _) as [k|] eqn:Hhit; [|done]. simpl in Hh.
  destruct (truthy k) eqn:Hk; [|done]. injection Hh as ->. split.
  - intros ->. done.
  - destruct (hitTest_Some _ _ _ _ _ (effectivePositions_wf E s) Hhit) as (p & Hp & _).
    apply defaultPositions_keys with (K := env_consts E).
    rewrite <- effectivePositions_keys with (s := s). apply JsMap_get_is_Some. eauto.
Qed.

(** X18. From a click to the selection.  The graph is given the objects of
    the visible types.  When a click on it reports a hash, that hash is not
    empty, the click did not end a drag, and the shell selects the first
    object of the whole collection with that hash, so that the hash comes
    back to the graph as the selected one; some object with that hash is of
    a visible type.  A hash that no object of the collection has leaves the
    selection as it was. *)
Theorem X18_click_selects (objects : list GitObject) (visibleTypes : list ObjType)
    (E : Env) (s : State) (e : MouseEvent) (sel : option GitObject) (h : string) :
  env_objects E = ObjectDatabase.filteredObjects objects visibleTypes →
  handleClick E s e = Some h →
  hasMoved s = false ∧ h ≠ ""
  ∧ (∃ l1 o l2, objects = l1 ++ o :: l2 ∧ hash o = h ∧ (h ∉ map hash l1)
       ∧ ObjectDatabase.onSelectObject objects sel h = Some o)
  ∧ ObjectDatabase.selectedHashOf (ObjectDatabase.onSelectObject objects sel h) = Some h
  ∧ (∃ v, v ∈ objects ∧ hash v = h ∧ type v ∈ visibleTypes)
  ∧ (∀ h', h' ∉ map hash objects → ObjectDatabase.onSelectObject objects sel h' = sel).
Proof.
  intros Henv Hclick.
  destruct (handleClick_Some _ _ _ _ Hclick) as (Hmoved & Hne & v & Hv & Hvh).
  rewrite Henv in Hv. apply filteredObjects_elem in Hv as [Hv Hty].
  assert (Hin : h ∈ map hash objects).
  { apply list_elem_of_fmap. by exists v. }
  apply find_hash_is_Some in Hin as [o Hfind].
  assert (Hsel : ObjectDatabase.onSelectObject objects sel h = Some o).
  { unfold ObjectDatabase.onSelectObject. by rewrite Hfind. }
  pose proof Hfind as (l1 & l2 & Heq & Ho & Hn)%find_hash_first.
  split; [done|]. split; [done|]. split.
  { exists l1, o, l2. done. }
  split.
  { rewrite Hsel. simpl. by rewrite Ho. }
  split.
  { exists v. done. }
  intros h' Hh'. unfold ObjectDatabase.onSelectObject.
  destruct (List.find (λ x, String.eqb (hash x) h') objects) as [o'|] eqn:Hf; [|done].
  exfalso. apply Hh'. apply (proj1 (find_hash_is_Some objects h')). by exists o'.
Qed.

Lemma X18_click_selects_witness :
  env_objects (ex_env ex_nested_no_commits)
  = ObjectDatabase.filteredObjects ex_nested [tree; blob; tag]
  ∧ handleClick (ex_env ex_nested_no_commits) initialState (ex_at 350 80) = Some "t1"
  ∧ ObjectDatabase.selectedHashOf (ObjectDatabase.onSelectObject ex_nested None "t1")
    = Some "t1".
Proof.
  assert (Henv : env_objects (ex_env ex_nested_no_commits)
                 = ObjectDatabase.filteredObjects ex_nested [tree; blob; tag])
    by (vm_compute; reflexivity).
  assert (Hclick : handleClick (ex_env ex_nested_no_commits) initialState (ex_at 350 80)
                   = Some "t1") by (vm_compute; reflexivity).
  split; [exact Henv|]. split; [exact Hclick|].
  exact (proj1 (proj2 (proj2 (proj2
           (X18_click_selects ex_nested [tree; blob; tag] (ex_env ex_nested_no_commits)
              initialState (ex_at 350 80) None "t1" Henv Hclick))))).
Defined.

(** X19. Hiding the commits flattens the graph: the collection handed to
    the graph then has no commit to start from, no object gets a depth from
    the walk, and every tree is laid out as a root (depth 0) and every blob
    at depth 1, whatever the trees contain; stated for an object whose
    identifier no other visible object shares. *)
Theorem X19_hidden_commits (K : LayoutConsts) (objects : list GitObject)
    (visibleTypes : list ObjType) (l1 l2 : list GitObject) (o : GitObject) :
  commit ∉ visibleTypes →
  ObjectDatabase.filteredObjects objects visibleTypes = l1 ++ o :: l2 →
  hash o ∉ map hash (l1 ++ l2) →
  computeDepthMap (ObjectDatabase.filteredObjects objects visibleTypes) = ∅
  ∧ ∃ p, JsMap.get (hash o)
           (defaultPositions K (ObjectDatabase.filteredObjects objects visibleTypes))
         = Some p
         ∧ match o with
           | Commit _ => False
           | Tree _ => pos_depth p = 0 ∧ pos_x p = COL_START_OBJECTS K
           | Blob _ => pos_depth p = 1 ∧ pos_x p = COL_START_OBJECTS K + DEPTH_INDENT K
           | Tag _ => pos_depth p = 0
           end.
Proof.
  intros Hhidden Heq Hn.
  assert (Hempty : computeDepthMap (ObjectDatabase.filteredObjects objects visibleTypes) = ∅).
  { apply map_empty. intros h. apply computeDepthMap_None.
    intros n (sd & (c & Hc & _) & _).
    apply filteredObjects_elem in Hc as [_ Hc]. done. }
  split; [done|].
  assert (Ho : o ∈ ObjectDatabase.filteredObjects objects visibleTypes).
  { rewrite Heq. apply elem_of_app. right. apply elem_of_cons. by left. }
  apply filteredObjects_elem in Ho as [_ Hty].
  rewrite Heq in *.
  destruct (orphan_position K l1 l2 o Hn) as (p & Hp & Hshape).
  { by rewrite Hempty. }
  exists p. split; [done|]. destruct o as [c|t|b|g]; simpl in *; [done|done|done|].
  rewrite (tag_position K l1 g l2 Hn) in Hp. by injection Hp as <-.
Qed.

Lemma X19_hidden_commits_witness :
  (commit ∉ [tree; blob; tag])
  ∧ ObjectDatabase.filteredObjects ex_nested [tree; blob; tag]
    = [ex_tree "t1" ["t2"]] ++ ex_tree "t2" [] :: []
  ∧ (hash (ex_tree "t2" []) ∉ map hash ([ex_tree "t1" ["t2"]] ++ []))
  ∧ ∃ p, JsMap.get "t2" (defaultPositions graphConsts
                           (ObjectDatabase.filteredObjects ex_nested [tree; blob; tag]))
         = Some p ∧ pos_depth p = 0.
Proof.
  assert (H1 : commit ∉ [tree; blob; tag]).
  { apply (bool_decide_unpack _). vm_compute. exact I. }
  assert (H2 : ObjectDatabase.filteredObjects ex_nested [tree; blob; tag]
               = [ex_tree "t1" ["t2"]] ++ ex_tree "t2" [] :: [])
    by (vm_compute; reflexivity).
  assert (H3 : hash (ex_tree "t2" []) ∉ map hash ([ex_tree "t1" ["t2"]] ++ [])).
  { apply (bool_decide_unpack _). vm_compute. exact I. }
  split; [exact H1|]. split; [exact H2|]. split; [exact H3|].
  destruct (X19_hidden_commits graphConsts ex_nested [tree; blob; tag]
              [ex_tree "t1" ["t2"]] [] (ex_tree "t2" []) H1 H2 H3)
    as (_ & p & Hp & Hd & _).
  exists p. split; [exact Hp|exact Hd].
Defined.

(** ** The inspector's lookups *)

Lemma parentObjs_hashes (all : list GitObject) (parents : list string) :
  map hash (omap (ObjectDetail.getObjectByHash all) parents)
  = filter (λ p, p ∈ map hash all) parents
  ∧ Forall (λ o, o ∈ all) (omap (ObjectDetail.getObjectByHash all) parents)
  ∧ (length (omap (ObjectDetail.getObjectByHash all) parents) ≤ length parents)%nat.
Proof.
  unfold ObjectDetail.getObjectByHash.
  induction parents as [|p ps (IH1 & IH2 & IH3)].
  - split; [done|]. split; [constructor|done].
  - change (omap ?f (p :: ps))
      with (match f p with Some y => y :: omap f ps | None => omap f ps end).
    cbv beta.
    destruct (List.find (λ o, String.eqb (hash o) p) all) as [o|] eqn:Hf.
    + pose proof Hf as (l1 & l2 & Heq & Ho & _)%find_hash_first.
      assert (Hin : p ∈ map hash all).
      { apply (proj1 (find_hash_is_Some all p)). by exists o. }
      rewrite filter_cons_True by done. rewrite map_cons, IH1, Ho.
      split; [done|]. split; [|simpl; lia]. constructor; [|done].
      rewrite Heq. apply elem_of_app. right. apply elem_of_cons. by left.
    + assert (Hin : p ∉ map hash all).
      { intros [o Ho]%find_hash_is_Some. by rewrite Hf in Ho. }
      rewrite filter_cons_False by done. split; [done|]. split; [done|simpl; lia].
Qed.

(** X20. The parents that the inspector lists for a commit are, in the
    order of the commit's parent hashes, the objects of those hashes that
    the collection holds: a parent hash without an object is left out, a
    commit without parent field has none, and no listed parent comes from
    outside the collection. *)
Theorem X20_parent_objects (allObjects : list GitObject) (c : CommitObject) :
  map hash (ObjectDetail.parentObjs allObjects c)
  = filter (λ p, p ∈ map hash allObjects) (default [] (commit_parent c))
  ∧ Forall (λ o, o ∈ allObjects) (ObjectDetail.parentObjs allObjects c)
  ∧ (length (ObjectDetail.parentObjs allObjects c)
     ≤ length (default [] (commit_parent c)))%nat.
Proof.
  unfold ObjectDetail.parentObjs. destruct (commit_parent c) as [parents|]; simpl.
  - apply parentObjs_hashes.
  - split; [done|]. split; [constructor|lia].
Qed.

Lemma objectMap_last (objects : list GitObject) (h : string) (o : GitObject) :
  objectMap objects !! h = Some o ↔
  ∃ l1 l2, objects = l1 ++ o :: l2 ∧ hash o = h ∧ h ∉ map hash l2.
Proof.
  revert o. induction objects as [|x l IH] using rev_ind; intros o.
  - unfold objectMap. simpl. rewrite lookup_empty. split; [done|].
    intros (l1 & l2 & Heq & _). by destruct l1.
  - rewrite objectMap_snoc. destruct (decide (hash x = h)) as [Hx|Hx].
    + rewrite Hx, lookup_insert_eq. split.
      * intros [= <-]. exists l, []. split; [done|]. split; [done|]. apply not_elem_of_nil.
      * intros (l1 & l2 & Heq & Ho & Hn).
        destruct l2 as [|y l2 _] using rev_ind.
        -- apply app_inj_tail in Heq as [_ ->]. done.
        -- exfalso. apply Hn.
           change (l1 ++ o :: l2 ++ [y]) with (l1 ++ (o :: l2) ++ [y]) in Heq.
           rewrite app_assoc in Heq. apply app_inj_tail in Heq as [_ ->].
           rewrite map_app. apply elem_of_app. right. simpl. apply elem_of_cons. by left.
    + rewrite lookup_insert_ne by done. rewrite IH. split.
      * intros (l1 & l2 & -> & Ho & Hn). exists l1, (l2 ++ [x]).
        split; [by rewrite <- app_assoc|]. split; [done|].
        rewrite map_app. simpl. intros [Hin|Hin%list_elem_of_singleton]%elem_of_app; done.
      * intros (l1 & l2 & Heq & Ho & Hn).
        destruct l2 as [|y l2 _] using rev_ind.
        -- apply app_inj_tail in Heq as [_ ->]. done.
        -- change (l1 ++ o :: l2 ++ [y]) with (l1 ++ (o :: l2) ++ [y]) in Heq.
           rewrite app_assoc in Heq. apply app_inj_tail in Heq as [-> ->].
           exists l1, l2. split; [done|]. split; [done|].
           intros Hin. apply Hn. rewrite map_app. apply elem_of_app. by left.
Qed.

(** X21. Two lookups by hash.  The inspector's lookup gives the first
    object of the collection with the hash, the graph's index the last
    one; each finds an object exactly when the other does, and where no
    two objects share a hash they give the same answer for every hash. *)
Theorem X21_first_and_last (allObjects : list GitObject) (h : string) :
  (∀ o, ObjectDetail.getObjectByHash allObjects h = Some o ↔
        ∃ l1 l2, allObjects = l1 ++ o :: l2 ∧ hash o = h ∧ (h ∉ map hash l1))
  ∧ (∀ o, objectMap allObjects !! h = Some o ↔
          ∃ l1 l2, allObjects = l1 ++ o :: l2 ∧ hash o = h ∧ (h ∉ map hash l2))
  ∧ (is_Some (ObjectDetail.getObjectByHash allObjects h)
     ↔ is_Some (objectMap allObjects !! h))
  ∧ (NoDup (map hash allObjects) →
     ObjectDetail.getObjectByHash allObjects h = objectMap allObjects !! h).
Proof.
  split; [intros o; apply find_hash_first|].
  split; [intros o; apply objectMap_last|].
  assert (Hsome : is_Some (objectMap allObjects !! h) ↔ h ∈ map hash allObjects).
  { split.
    - intros [o (Ho & <-)%objectMap_lookup_Some]. apply list_elem_of_fmap. by exists o.
    - induction allObjects as [|x l IH] using rev_ind; [by intros ?%elem_of_nil|].
      rewrite map_app, elem_of_app, objectMap_snoc. simpl. intros Hin.
      destruct (decide (hash x = h)) as [Hx|Hx].
      + rewrite Hx, lookup_insert_eq. eauto.
      + rewrite lookup_insert_ne by done. apply IH.
        destruct Hin as [Hin|Hin%list_elem_of_singleton]; done. }
  split.
  { unfold ObjectDetail.getObjectByHash. by rewrite find_hash_is_Some, Hsome. }
  intros Hnd. unfold ObjectDetail.getObjectByHash.
  destruct (List.find (λ x, String.eqb (hash x) h) allObjects) as [o|] eqn:Hf.
  - symmetry. apply objectMap_last.
    pose proof Hf as (l1 & l2 & Heq & Ho & _)%find_hash_first.
    exists l1, l2. split; [done|]. split; [done|].
    rewrite Heq, map_app in Hnd. simpl in Hnd.
    apply NoDup_app in Hnd as (_ & _ & Hnd). apply NoDup_cons in Hnd as [Hnd _].
    by rewrite Ho in Hnd.
  - destruct (objectMap allObjects !! h) as [o|] eqn:Hom; [|done].
    exfalso. apply objectMap_lookup_Some in Hom as [Ho Hh].
    assert (Hin : h ∈ map hash allObjects) by (apply list_elem_of_fmap; by exists o).
    apply find_hash_is_Some in Hin as [o' Ho']. by rewrite Hf in Ho'.
Qed.

Lemma X21_first_and_last_witness :
  NoDup (map hash ex_repo)
  ∧ ObjectDetail.getObjectByHash ex_repo "t2" = objectMap ex_repo !! "t2"
  ∧ ObjectDetail.getObjectByHash [ex_blob "a"; ex_tree "a" []] "a" = Some (ex_blob "a")
  ∧ objectMap [ex_blob "a"; ex_tree "a" []] !! "a" = Some (ex_tree "a" []).
Proof.
  assert (Hnd : NoDup (map hash ex_repo)).
  { apply (bool_decide_unpack _). vm_compute. exact I. }
  split; [exact Hnd|]. split.
  - exact (proj2 (proj2 (proj2 (X21_first_and_last ex_repo "t2"))) Hnd).
  - split; vm_compute; reflexivity.
Defined.

(** ** The label under a node *)

Lemma length_substring_0 (n : nat) (s : string) :
  String.length (String.substring 0 n s) = Nat.min n (String.length s).
Proof.
  revert s. induction n as [|n IH]; intros [|c s]; simpl; try done. by rewrite IH.
Qed.

Lemma length_append (s1 s2 : string) :
  String.length (String.append s1 s2) = (String.length s1 + String.length s2)%nat.
Proof. induction s1 as [|c s1 IH]; simpl; [done|]. by rewrite IH. Qed.

Lemma substring_0_split (n : nat) (s : string) :
  ∃ rest, s = String.append (String.substring 0 n s) rest.
Proof.
  revert s. induction n as [|n IH]; intros [|c s]; simpl.
  - by exists "".
  - by exists (String c s).
  - by exists "".
  - destruct (IH s) as [rest Hrest]. exists rest.
    change (String c s = String c (String.append (String.substring 0 n s) rest)).
    f_equal. exact Hrest.
Qed.

(** X22. The label drawn under a node is never longer than 23 characters:
    a label of at most 20 characters is drawn as it is, a longer one as its
    first 20 characters followed by three dots.  A label that the layout
    derives from a hash (six characters at most) is therefore always drawn
    in full. *)
Theorem X22_display_label (label : string) :
  (String.length (displayLabel label) ≤ 23)%nat
  ∧ ((String.length label ≤ 20)%nat → displayLabel label = label)
  ∧ ((20 < String.length label)%nat →
     ∃ pre rest, label = String.append pre rest ∧ String.length pre = 20%nat
                 ∧ displayLabel label = String.append pre "...")
  ∧ displayLabel (nodeLabel [] label) = nodeLabel [] label.
Proof.
  assert (Hshort : ∀ l, (String.length l ≤ 20)%nat → displayLabel l = l).
  { intros l Hl. unfold displayLabel, MAX_LABEL_LENGTH.
    destruct (Nat.ltb_spec 20 (String.length l)); [lia|done]. }
  split; [|split; [apply Hshort|split]].
  - unfold displayLabel, MAX_LABEL_LENGTH.
    destruct (Nat.ltb_spec 20 (String.length label)); [|lia].
    rewrite length_append, length_substring_0.
    change (String.length "...") with 3%nat. lia.
  - intros Hlong. destruct (substring_0_split 20 label) as [rest Hrest].
    exists (String.substring 0 20 label), rest. split; [done|]. split.
    + rewrite length_substring_0. lia.
    + unfold displayLabel, MAX_LABEL_LENGTH.
      destruct (Nat.ltb_spec 20 (String.length label)); [done|lia].
  - apply Hshort. unfold nodeLabel. rewrite length_substring_0. lia.
Qed.

Lemma X22_display_label_witness :
  (20 < String.length "a-commit-message-of-some-length")%nat
  ∧ ∃ pre rest, "a-commit-message-of-some-length" = String.append pre rest
                ∧ String.length pre = 20%nat
                ∧ displayLabel "a-commit-message-of-some-length" = String.append pre "...".
Proof.
  assert (Hlong : (20 < String.length "a-commit-message-of-some-length")%nat)
    by (vm_compute; lia).
  split; [exact Hlong|].
  exact (proj1 (proj2 (proj2 (X22_display_label "a-commit-message-of-some-length"))) Hlong).
Defined.
